(** * The option wizard of the Luraph VS Code extension

    A shallow embedding of the option handling of [src/extension.ts]
    (the body of the [luraph.obfuscate] command, lines 159-448): the
    computation of [idOrder], the collection loop with its checkbox
    clusters, the visibility filter of a cluster and the hand-over of the
    collected values to [createNewJob].  Around it: the checks before the
    service is called (lines 38-91), the list of the node pick (lines
    118-140), the selection handler of a cluster (lines 315-334) and the
    choice of the path the result is saved under (lines 463-496).

    Conventions.
    - A JavaScript object used as a dictionary ([nodeInfo.options], an
      option's [dependencies]) is the list of its own properties in
      enumeration order; [userOptionValues], which is only read and
      written by key, is a finite map of its own properties.  Both are
      plain objects: reading a key that is no own property finds what
      [Object.prototype] has under that name ([property]), and assigning
      to [__proto__] stores nothing ([assign]).  Used as a key,
      [undefined] is the string [undefined].
    - [undefined] is [None].
    - A statement sequence that may throw, or a loop that may never end,
      lives in the [Completion] monad.
    - [Array.prototype.sort] belongs to the JavaScript engine.  The
      resolver is parametric in it ([ArraySort]); module [V8] gives the
      sort of the engine VS Code runs on, for arrays shorter than 64
      elements. *)

From Stdlib Require Import ZArith Ascii.
From stdpp Require Import base gmap strings list relations pretty.

Set Default Proof Using "Type".
#[local] Set Warnings "-clear-no-such-hyp".

(** ** Completions *)

Inductive Error :=
  | TypeError                          (* reading a property of undefined *)
  | InvalidOptionType (type : string). (* line 420 *)

(** [Diverges] is the result of a loop of the program that never ends
    (the loop in question grows an array, so in practice it goes on until
    the engine has no memory left).
    [OutOfFuel] is the result of a loop or recursion of the model that was
    not given enough iterations.  No function of the program yields it:
    see the lemmas on fuel at the end. *)
Inductive Completion (A : Type) :=
  | Normal (a : A)
  | Throw (e : Error)
  | Diverges
  | OutOfFuel.
Arguments Normal {A} a.
Arguments Throw {A} e.
Arguments Diverges {A}.
Arguments OutOfFuel {A}.

#[global] Instance Completion_ret : MRet Completion := λ A a, Normal a.
#[global] Instance Completion_bind : MBind Completion := λ A B f m,
  match m with
  | Normal a => f a
  | Throw e => Throw e
  | Diverges => Diverges
  | OutOfFuel => OutOfFuel
  end.

(** [arr.forEach(f)] for a callback that updates captured state. *)
Fixpoint forEach {A S : Type} (f : A → S → Completion S) (arr : list A) (s : S)
    : Completion S :=
  match arr with
  | [] => Normal s
  | x :: arr' => s' ← f x s; forEach f arr' s'
  end.

(** ** Data model *)

Inductive Tier := CUSTOMER_ONLY | PREMIUM_ONLY | ADMIN_ONLY.

(** An option value: [boolean | string]. *)
Inductive Value :=
  | VBool (b : bool)
  | VStr (s : string).

#[global] Instance Value_eq_dec : EqDecision Value.
Proof. solve_decision. Defined.

(** A dictionary object: own properties in the order [Object.entries]
    lists them. *)
Definition Dict (V : Type) : Type := list (string * V).

Definition keys {V : Type} (o : Dict V) : list string := o.*1.

(** The own property [k] of [o] *)
Fixpoint get {V : Type} (o : Dict V) (k : string) : option V :=
  match o with
  | [] => None
  | (k', v) :: o' => if bool_decide (k' = k) then Some v else get o' k
  end.

Record LuraphOptionInfo := {
  name : string;
  description : string;
  tier : Tier;
  type : string;                (* "CHECKBOX" | "DROPDOWN" | "TEXT" *)
  choices : list string;
  dependencies : option (Dict (list Value));
}.

Definition OptionSet : Type := Dict LuraphOptionInfo.

(** The names of the properties of [Object.prototype], which every object
    made by [JSON.parse] or by [{}] inherits.  All are functions, except
    [__proto__], an accessor that reads as the prototype itself. *)
Definition objectPrototype : list string :=
  [ "constructor"; "__defineGetter__"; "__defineSetter__"; "hasOwnProperty";
    "__lookupGetter__"; "__lookupSetter__"; "isPrototypeOf";
    "propertyIsEnumerable"; "toString"; "valueOf"; "__proto__";
    "toLocaleString" ].

(** What [nodeInfo.options[id]] evaluates to: an option, or a function or
    object inherited from [Object.prototype], of which [type],
    [dependencies] and [choices] are [undefined], or [undefined]. *)
Inductive Property :=
  | Own (option : LuraphOptionInfo)
  | Inherited
  | Undefined.

(** [nodeInfo.options[id]] *)
Definition property (options : OptionSet) (id : string) : Property :=
  match get options id with
  | Some o => Own o
  | None => if bool_decide (id ∈ objectPrototype) then Inherited else Undefined
  end.

(** The own properties of [userOptionValues]; a key can hold
    [undefined]. *)
Abbreviation LuraphOptionList := (gmap string (option Value)).

(** [userOptionValues[k]], as far as [includes] can tell: a boolean or a
    string, or something else ([undefined] when there is no such
    property, a function or an object when the property is inherited from
    [Object.prototype]), which is no element of an array of booleans and
    strings. *)
Definition valueOf (userOptionValues : LuraphOptionList) (k : string)
    : option Value :=
  mjoin (userOptionValues !! k).

(** [vals.includes(x)] *)
Definition includes (vals : list Value) (x : option Value) : bool :=
  match x with
  | Some v => bool_decide (v ∈ vals)
  | None => false
  end.

(** [nodeInfo.options[id].type]: throws when [nodeInfo.options[id]] is
    [undefined]. *)
Definition typeOf (options : OptionSet) (id : string)
    : Completion (option string) :=
  match property options id with
  | Own o => Normal (Some (type o))
  | Inherited => Normal None
  | Undefined => Throw TypeError
  end.

(** [nodeInfo.options[id].dependencies]: throws when
    [nodeInfo.options[id]] is [undefined]. *)
Definition dependenciesOf (options : OptionSet) (id : string)
    : Completion (option (Dict (list Value))) :=
  match property options id with
  | Own o => Normal (dependencies o)
  | Inherited => Normal None
  | Undefined => Throw TypeError
  end.

(** ** Dependency resolver (lines 162-211) *)

(** Lines 167-173. *)
Definition linkedOptions (options : OptionSet) : list string :=
  flat_map (λ '(id, option),
              match dependencies option with
              | Some deps => id :: keys deps
              | None => []
              end) options.

(** The comparators of lines 177 and 206-207; both ignore their second
    argument. *)
Definition typeFirst (ty : string) (options : OptionSet) (a b : string)
    : Completion Z :=
  t ← typeOf options a;
  Normal (if bool_decide (t = Some ty) then (-1)%Z else 0%Z).

Definition Comparator : Type := string → string → Completion Z.
Definition ArraySort : Type := Comparator → list string → Completion (list string).

(** Lines 179-199. [visited] only ever maps to [true], so it is a set.
    [fuel] bounds the depth of the recursion of [visit]. *)
Record VisitState := {
  visited : gset string;
  result : list string;
}.

Fixpoint visit (options : OptionSet) (fuel : nat) (id : string) (s : VisitState)
    : Completion VisitState :=
  if bool_decide (id ∈ visited s) then Normal s
  else
    match fuel with
    | O => OutOfFuel
    | S fuel' =>
        let s1 := {| visited := {[id]} ∪ visited s; result := result s |} in
        dependencies ← dependenciesOf options id;
        s2 ← match dependencies with
             | Some deps => forEach (visit options fuel') (keys deps) s1
             | None => Normal s1
             end;
        Normal {| visited := visited s2; result := result s2 ++ [id] |}
    end.

Definition topologicalSort (options : OptionSet) (arr : list string)
    : Completion (list string) :=
  s ← forEach (visit options (S (length options))) arr
        {| visited := ∅; result := [] |};
  Normal (result s).

(** [arr.indexOf(v)] *)
Definition indexOf (arr : list string) (v : string) : option nat :=
  fst <$> list_find (λ x, x = v) arr.

(** [arr.filter((v, i, arr) => arr.indexOf(v) === i)], the array being
    [seen ++ todo] and [todo] starting at index [i]. *)
Fixpoint firstOccurrences (arr : list string) (i : nat) (todo : list string)
    : list string :=
  match todo with
  | [] => []
  | v :: todo' =>
      if bool_decide (indexOf arr v = Some i)
      then v :: firstOccurrences arr (S i) todo'
      else firstOccurrences arr (S i) todo'
  end.

Definition removeDupes (arr : list string) : list string :=
  firstOccurrences arr 0 arr.

Section Resolver.
Variable sort : ArraySort.

(** Lines 175-177. *)
Definition groupDropdowns (options : OptionSet) (linked : list string)
    : Completion (list string) :=
  sort (typeFirst "DROPDOWN" options) linked.

(** Lines 162-211. *)
Definition idOrder (options : OptionSet) : Completion (list string) :=
  linked ← groupDropdowns options (linkedOptions options);
  linked ← topologicalSort options linked;
  rest ← sort (typeFirst "CHECKBOX" options) (keys options);
  Normal (removeDupes (linked ++ rest)).
End Resolver.

(** ** The engine's sort *)

(** V8 sorts with TimSort ([third_party/v8/builtins/array-sort.tq]).  For an
    array shorter than 64 elements the minimal run length is the array
    length, so the whole sort is: find the run at the start of the array
    ([CountAndMakeRun]), then insert the remaining elements one by one
    ([BinaryInsertionSort]).  Longer arrays are cut into several runs that
    are merged; that part is not modelled. *)
Module V8.
Section Sort.
Variable cmp : Comparator.

(** The loop of [CountAndMakeRun]: the elements that continue the run,
    and the others. *)
Fixpoint extendRun (descending : bool) (previous : string) (rest : list string)
    : Completion (list string * list string) :=
  match rest with
  | [] => Normal ([], [])
  | current :: rest' =>
      order ← cmp current previous;
      if (if descending then (0 <=? order)%Z else (order <? 0)%Z)
      then Normal ([], rest)
      else '(run, others) ← extendRun descending current rest';
           Normal (current :: run, others)
  end.

Definition countAndMakeRun (arr : list string)
    : Completion (list string * list string) :=
  match arr with
  | a0 :: a1 :: rest =>
      order ← cmp a1 a0;
      let descending := (order <? 0)%Z in
      '(run, others) ← extendRun descending a1 rest;
      let run := a0 :: a1 :: run in
      Normal (if descending then reverse run else run, others)
  | _ => Normal (arr, [])
  end.

(** The binary search of [BinaryInsertionSort]; [right - left] iterations
    are enough. *)
Fixpoint insertionPoint (fuel : nat) (pivot : string) (sorted : list string)
    (left right : nat) : Completion nat :=
  if bool_decide (left < right) then
    match fuel with
    | O => OutOfFuel
    | S fuel' =>
        let mid := left + (right - left) `div` 2 in
        order ← cmp pivot (sorted !!! mid);
        if (order <? 0)%Z
        then insertionPoint fuel' pivot sorted left mid
        else insertionPoint fuel' pivot sorted (mid + 1) right
    end
  else Normal left.

Fixpoint binaryInsertionSort (sorted rest : list string)
    : Completion (list string) :=
  match rest with
  | [] => Normal sorted
  | pivot :: rest' =>
      left ← insertionPoint (length sorted) pivot sorted 0 (length sorted);
      binaryInsertionSort (take left sorted ++ pivot :: drop left sorted) rest'
  end.

Definition sort (arr : list string) : Completion (list string) :=
  if bool_decide (length arr < 2) then Normal arr
  else '(run, rest) ← countAndMakeRun arr; binaryInsertionSort run rest.
End Sort.
End V8.

(** ** Interactive collection (lines 222-422) *)

(** The person at the prompts.  Every prompt of a run is asked once, so an
    answer is a function of what the prompt is about.  An item of a pick is
    represented by the id (checkbox) or the position (dropdown) it stands
    for; titles, labels and icons are not modelled.  Of the multi-select
    pick of a cluster only the outcome is modelled: between its display and
    its end the user ticks items and the handler of lines 315-334 replaces
    the items shown, and in the end the pick resolves with items of the
    cluster or is hidden. *)
Record User := {
  (* [showInputBox] for the TEXT option [id]: the submitted string,
     [None] when the box is dismissed *)
  inputBox : string → option string;
  (* [showQuickPick] for the DROPDOWN option [id]: the position of the
     picked item in the list shown, [None] when dismissed *)
  quickPick : string → option nat;
  (* the multi-select pick of a checkbox cluster: the ids ticked when it
     is accepted, [None] when it is hidden without being accepted *)
  checkboxPick : list string → option (list string);
  (* the modal "Confirm options" is answered "Obfuscate" *)
  confirmOptions : LuraphOptionList → bool;
}.

(** [userOptionValues] together with the history of the assignments
    [userOptionValues[k] = v] made to it, oldest first.  The history is not
    in the program; it is kept to state what is assigned when. *)
Record Store := {
  userOptionValues : LuraphOptionList;
  assignments : list (string * option Value);
}.

Definition emptyStore : Store :=
  {| userOptionValues := ∅; assignments := [] |}.

(** [userOptionValues[k] = v], for a boolean, a string or [undefined].
    The object is a plain [{}] (line 159): under the key [__proto__] the
    assignment calls the setter inherited from [Object.prototype], which
    ignores such a value, and no property is stored. *)
Definition assign (k : string) (v : option Value) (σ : Store) : Store :=
  {| userOptionValues :=
       if bool_decide (k = "__proto__") then userOptionValues σ
       else <[k := v]> (userOptionValues σ);
     assignments := assignments σ ++ [(k, v)] |}.

(** [nodeInfo.options[optionId]?.type === "CHECKBOX"] *)
Definition isCheckbox (options : OptionSet) (optionId : string) : bool :=
  match get options optionId with
  | Some o => bool_decide (type o = "CHECKBOX")
  | None => false
  end.

(** How the loop of lines 237-261 ends: with the cluster and what is left
    of [idOrder], or never. *)
Inductive ClusterResult :=
  | Breaks (cluster rest : list string) (σ : Store)
  | Loops (σ : Store).

(** Lines 237-261; [rest] is [idOrder] after [optionId].  Past the end of
    [idOrder], [idOrder[i]] is [undefined], and line 253 reads the property
    of [nodeInfo.options] of that name.  When it is a checkbox the loop
    goes on, and every further pass assigns [false] under the key
    [undefined], adds an item and reads the same property again: [Loops]
    gives the store after the first such assignment. *)
Fixpoint checkboxCluster (options : OptionSet) (optionId : string)
    (rest : list string) (σ : Store) : ClusterResult :=
  let σ := assign optionId (Some (VBool false)) σ in
  match rest with
  | next :: rest' =>
      if isCheckbox options next
      then match checkboxCluster options next rest' σ with
           | Breaks cluster rest'' σ' => Breaks (optionId :: cluster) rest'' σ'
           | Loops σ' => Loops σ'
           end
      else Breaks [optionId] rest σ
  | [] =>
      if isCheckbox options "undefined"
      then Loops (assign "undefined" (Some (VBool false)) σ)
      else Breaks [optionId] [] σ
  end.

(** The loop of lines 280-289 over the entries of [option.dependencies]. *)
Fixpoint dependenciesHold (values : LuraphOptionList) (selectedItems : list string)
    (deps : Dict (list Value)) : bool :=
  match deps with
  | [] => true
  | (depId, depVals) :: deps' =>
      if negb (includes depVals (valueOf values depId))
         && negb (includes depVals (Some (VBool (bool_decide (depId ∈ selectedItems)))))
      then false
      else dependenciesHold values selectedItems deps'
  end.

(** The callback of [checkboxCluster.filter] (lines 275-292). *)
Definition isVisible (options : OptionSet) (values : LuraphOptionList)
    (selectedItems : list string) (id : string) : Completion bool :=
  dependencies ← dependenciesOf options id;
  match dependencies with
  | None => Normal true
  | Some deps => Normal (dependenciesHold values selectedItems deps)
  end.

Fixpoint filterC {A : Type} (p : A → Completion bool) (arr : list A)
    : Completion (list A) :=
  match arr with
  | [] => Normal []
  | x :: arr' =>
      keep ← p x; kept ← filterC p arr';
      Normal (if keep : bool then x :: kept else kept)
  end.

(** Lines 274-292. *)
Definition getVisibleOptions (options : OptionSet) (values : LuraphOptionList)
    (selectedItems : list string) (cluster : list string)
    : Completion (list string) :=
  filterC (isVisible options values selectedItems) cluster.

(** [!selectedValue] for [selectedValue : string | undefined] *)
Definition falsy (selectedValue : option string) : bool :=
  match selectedValue with
  | None => true
  | Some s => bool_decide (s = "")
  end.

Record CollectorState := {
  pending : list string;        (* [idOrder] from index [i] on *)
  store : Store;
}.

Inductive StepResult :=
  | Advance (st : CollectorState)      (* [break] out of the [switch] *)
  | Cancelled.                         (* [return] *)

(** One iteration of the loop of lines 222-422, at [optionId = idOrder[i]]
    followed by [rest].  [selectedValues] are the items of the cluster the
    pick resolves with. *)
Definition step (options : OptionSet) (user : User) (optionId : string)
    (rest : list string) (σ : Store) : Completion StepResult :=
  match property options optionId with
  | Undefined => Throw TypeError
  | Inherited => Throw (InvalidOptionType "undefined")
  | Own o =>
      if bool_decide (type o = "CHECKBOX") then
        match checkboxCluster options optionId rest σ with
        | Loops _ => Diverges
        | Breaks cluster rest' σ =>
            _ ← getVisibleOptions options (userOptionValues σ) [] cluster;
            match checkboxPick user cluster with
            | None => Normal Cancelled
            | Some ticked =>
                let selectedValues := filter (λ id, id ∈ ticked) cluster in
                Normal (Advance
                  {| pending := rest';
                     store := foldl (λ σ id, assign id (Some (VBool true)) σ)
                                    σ selectedValues |})
            end
        end
      else if bool_decide (type o = "DROPDOWN") then
        let σ := assign optionId (VStr <$> head (choices o)) σ in
        match quickPick user optionId ≫= (λ index, choices o !! index) with
        | None => Normal Cancelled
        | Some label =>
            Normal (Advance
              {| pending := rest;
                 store := assign optionId (Some (VStr label)) σ |})
        end
      else if bool_decide (type o = "TEXT") then
        let σ := assign optionId (Some (VStr "")) σ in
        let selectedValue := inputBox user optionId in
        if falsy selectedValue then Normal Cancelled
        else Normal (Advance
               {| pending := rest;
                  store := assign optionId (VStr <$> selectedValue) σ |})
      else Throw (InvalidOptionType (type o))
  end.

(** The loop of lines 222-422: [Some] of the collected values when it runs
    to its end, [None] when a prompt made the command return. *)
Fixpoint collect (options : OptionSet) (user : User) (fuel : nat)
    (st : CollectorState) : Completion (option LuraphOptionList) :=
  match pending st with
  | [] => Normal (Some (userOptionValues (store st)))
  | optionId :: rest =>
      match fuel with
      | O => OutOfFuel
      | S fuel' =>
          r ← step options user optionId rest (store st);
          match r with
          | Cancelled => Normal None
          | Advance st' => collect options user fuel' st'
          end
      end
  end.

Definition initialState (idOrder : list string) : CollectorState :=
  {| pending := idOrder; store := emptyStore |}.

Definition collectOptions (options : OptionSet) (user : User)
    (idOrder : list string) : Completion (option LuraphOptionList) :=
  collect options user (length idOrder) (initialState idOrder).

(** Lines 159-448: the option list handed to [createNewJob], [None] when the
    command ends without that call. *)
Definition obfuscate (sort : ArraySort) (options : OptionSet) (user : User)
    : Completion (option LuraphOptionList) :=
  ids ← idOrder sort options;
  collected ← collectOptions options user ids;
  match collected with
  | None => Normal None
  | Some values => if confirmOptions user values then Normal (Some values)
                   else Normal None
  end.

(** One iteration of the loop leads from [st] to [st']. *)
Definition stepsTo (options : OptionSet) (user : User)
    (st st' : CollectorState) : Prop :=
  ∃ optionId rest,
    pending st = optionId :: rest ∧
    step options user optionId rest (store st) = Normal (Advance st').

(** ** Presentation units *)

Inductive PresentationUnit :=
  | Cluster (ids : list string)
  | Singleton (id : string).

Definition unitIds (u : PresentationUnit) : list string :=
  match u with
  | Cluster ids => ids
  | Singleton id => [id]
  end.

(** The unit the loop presents at [optionId], and where its cursor stands
    afterwards: the cursor movement of [step]. *)
Definition nextUnit (options : OptionSet) (optionId : string) (rest : list string)
    : Completion (PresentationUnit * list string) :=
  match property options optionId with
  | Undefined => Throw TypeError
  | Inherited => Throw (InvalidOptionType "undefined")
  | Own o =>
      if bool_decide (type o = "CHECKBOX") then
        match checkboxCluster options optionId rest emptyStore with
        | Loops _ => Diverges
        | Breaks cluster rest' _ => Normal (Cluster cluster, rest')
        end
      else if bool_decide (type o = "DROPDOWN") || bool_decide (type o = "TEXT") then
        Normal (Singleton optionId, rest)
      else Throw (InvalidOptionType (type o))
  end.

(** The units of a run in which no prompt is dismissed. *)
Fixpoint segmentFrom (options : OptionSet) (fuel : nat) (ids : list string)
    : Completion (list PresentationUnit) :=
  match ids with
  | [] => Normal []
  | optionId :: rest =>
      match fuel with
      | O => OutOfFuel
      | S fuel' =>
          '(unit, rest') ← nextUnit options optionId rest;
          units ← segmentFrom options fuel' rest';
          Normal (unit :: units)
      end
  end.

Definition segment (options : OptionSet) (idOrder : list string)
    : Completion (list PresentationUnit) :=
  segmentFrom options (length idOrder) idOrder.

(** * Specification vocabulary *)

(** What [Array.prototype.sort] does in every engine when the comparator
    does not throw: it rearranges the array. *)
Definition Rearranges (sort : ArraySort) : Prop :=
  ∀ (cmp : Comparator) (arr : list string),
    (∀ a b, a ∈ arr → b ∈ arr → ∃ order, cmp a b = Normal order) →
    ∃ sorted, sort cmp arr = Normal sorted ∧ sorted ≡ₚ arr.

(** [a] declares a dependency on [b]. *)
Definition dependsOn (options : OptionSet) (a b : string) : Prop :=
  ∃ o deps, get options a = Some o ∧ dependencies o = Some deps ∧ b ∈ keys deps.

(** Every id referenced inside a [dependencies] mapping is a key of the
    option set. *)
Definition Closed (options : OptionSet) : Prop :=
  ∀ id o deps dep,
    (id, o) ∈ options → dependencies o = Some deps → dep ∈ keys deps →
    dep ∈ keys options.

(** [Closed] as a test. *)
Definition closedb (options : OptionSet) : bool :=
  forallb (λ e : string * LuraphOptionInfo,
             match dependencies e.2 with
             | Some deps => forallb (λ d, bool_decide (d ∈ keys options)) (keys deps)
             | None => true
             end) options.

Definition Acyclic (options : OptionSet) : Prop :=
  ∀ id, ¬ tc (dependsOn options) id id.

(** [b] occurs in [l] at a position before one of [a]. *)
Definition Before (l : list string) (b a : string) : Prop :=
  ∃ i j, l !! i = Some b ∧ l !! j = Some a ∧ i < j.

(** What a call of [visit] that returns does to the state: it appends the
    ids it marks, none of which was marked before. *)
Definition Extends (s s' : VisitState) : Prop :=
  ∃ new, result s' = result s ++ new
       ∧ visited s' = visited s ∪ list_to_set new
       ∧ NoDup new
       ∧ ∀ x, x ∈ new → x ∉ visited s.

(** Ids marked but not yet emitted: the calls of [visit] in progress. *)
Definition InProgress (s : VisitState) (x : string) : Prop :=
  x ∈ visited s ∧ x ∉ result s.

(** Every dependent in [l] is preceded by what it depends on. *)
Definition DepsFirst (options : OptionSet) (l : list string) : Prop :=
  ∀ a b, a ∈ l → dependsOn options a b → Before l b a.

(** [options[id]?.type === ty] *)
Definition isOfType (options : OptionSet) (ty : string) (id : string) : bool :=
  match get options id with
  | Some o => bool_decide (type o = ty)
  | None => false
  end.

(** The ids satisfying [p] in front, last one first, then the others in
    their order. *)
Definition movedToFront (p : string → bool) (l : list string) : list string :=
  reverse (filter (λ x, p x) l) ++ filter (λ x, ¬ p x) l.

Definition hasType (options : OptionSet) (ty : string) (id : string) : Prop :=
  ∃ o, get options id = Some o ∧ type o = ty.

(** [after] is [before] with the ids satisfying [P] moved to the front,
    the order inside both groups kept. *)
Definition StablePartition (P : string → Prop) `{!∀ x, Decision (P x)}
    (before after : list string) : Prop :=
  (∀ i j a b, after !! i = Some a → after !! j = Some b → P a → ¬ P b → i < j)
  ∧ filter P after = filter P before
  ∧ filter (λ x, ¬ P x) after = filter (λ x, ¬ P x) before.

(** The value recorded for [id] fits the type of the option. *)
Definition WellTyped (options : OptionSet) (values : LuraphOptionList)
    (id : string) : Prop :=
  ∃ o, get options id = Some o ∧
    (type o = "CHECKBOX" → ∃ b, values !! id = Some (Some (VBool b))) ∧
    (type o = "TEXT" → ∃ s, values !! id = Some (Some (VStr s))) ∧
    (type o = "DROPDOWN" →
       ∃ s, s ∈ choices o ∧ values !! id = Some (Some (VStr s))).

(** Every id names an option of one of the three types. *)
Definition ValidIds (options : OptionSet) (ids : list string) : Prop :=
  ∀ id, id ∈ ids →
    ∃ o, get options id = Some o ∧ type o ∈ ["CHECKBOX"; "DROPDOWN"; "TEXT"].

Definition UnitOk (options : OptionSet) (u : PresentationUnit) : Prop :=
  match u with
  | Cluster ids => ids ≠ [] ∧ ∀ id, id ∈ ids → hasType options "CHECKBOX" id
  | Singleton id => ¬ hasType options "CHECKBOX" id
  end.

Definition isCluster (u : PresentationUnit) : Prop :=
  match u with Cluster _ => True | Singleton _ => False end.

Definition NoAdjacentClusters (units : list PresentationUnit) : Prop :=
  ∀ i u1 u2, units !! i = Some u1 → units !! S i = Some u2 →
    ¬ (isCluster u1 ∧ isCluster u2).

(** The prompt of the unit at the cursor of [st] is dismissed without a
    value. *)
Definition dismissed (options : OptionSet) (user : User) (st : CollectorState)
    : Prop :=
  match pending st with
  | [] => False
  | optionId :: rest =>
      match get options optionId with
      | None => False
      | Some o =>
          if bool_decide (type o = "CHECKBOX") then
            match checkboxCluster options optionId rest (store st) with
            | Breaks cluster _ _ => checkboxPick user cluster = None
            | Loops _ => False       (* no prompt is shown *)
            end
          else if bool_decide (type o = "DROPDOWN") then
            quickPick user optionId = None
          else if bool_decide (type o = "TEXT") then
            inputBox user optionId = None
          else False
      end
  end.

(** From [σ] to [σ'] only keys among [ids] are assigned. *)
Definition Touches (ids : list string) (σ σ' : Store) : Prop :=
  (∃ new, assignments σ' = assignments σ ++ new ∧ ∀ k, k ∈ new.*1 → k ∈ ids) ∧
  ∀ k, k ∉ ids → userOptionValues σ' !! k = userOptionValues σ !! k.

(** * Example option sets *)

Definition mkOption (ty : string) (choices : list string)
    (deps : option (Dict (list Value))) : LuraphOptionInfo :=
  {| name := ""; description := ""; tier := CUSTOMER_ONLY; type := ty;
     choices := choices; dependencies := deps |}.

(** A checkbox, a checkbox that depends on it, a dropdown. *)
Definition scenario : OptionSet :=
  [ ("A", mkOption "CHECKBOX" [] None);
    ("B", mkOption "CHECKBOX" [] (Some [("A", [VBool true])]));
    ("C", mkOption "DROPDOWN" ["x"; "y"] None) ].

(** A checkbox that depends on two dropdowns. *)
Definition twoDropdowns : OptionSet :=
  [ ("A", mkOption "CHECKBOX" []
            (Some [("d1", [VStr "x"]); ("d2", [VStr "y"])]));
    ("d1", mkOption "DROPDOWN" ["x"; "z"] None);
    ("d2", mkOption "DROPDOWN" ["y"; "z"] None) ].

(** Two options that depend on each other. *)
Definition cyclicPair : OptionSet :=
  [ ("T", mkOption "TEXT" [] (Some [("A", [VBool true])]));
    ("A", mkOption "CHECKBOX" [] (Some [("T", [VBool false])])) ].

(** A single free-text option. *)
Definition textOnly : OptionSet :=
  [ ("T", mkOption "TEXT" [] None) ].

(** A user who ticks [A] and [B], picks the second choice of every
    dropdown, types [hello] and confirms. *)
Definition eager : User :=
  {| inputBox := λ _, Some "hello";
     quickPick := λ _, Some 1;
     checkboxPick := λ _, Some ["A"; "B"];
     confirmOptions := λ _, true |}.

(** A user who submits every text box empty. *)
Definition terse : User :=
  {| inputBox := λ _, Some "";
     quickPick := λ _, Some 0;
     checkboxPick := λ _, Some [];
     confirmOptions := λ _, true |}.

(** A user who accepts the checkboxes and dismisses the dropdown. *)
Definition hesitant : User :=
  {| inputBox := λ _, Some "hello";
     quickPick := λ _, None;
     checkboxPick := λ _, Some ["A"];
     confirmOptions := λ _, true |}.

(** The run of [eager] over [scenario]: after the checkbox cluster, and at
    the end. *)
Definition clusterAccepted : CollectorState :=
  {| pending := ["C"];
     store := assign "B" (Some (VBool true))
                (assign "A" (Some (VBool true))
                   (assign "B" (Some (VBool false))
                      (assign "A" (Some (VBool false)) emptyStore))) |}.

Definition allAccepted : CollectorState :=
  {| pending := [];
     store := assign "C" (Some (VStr "y"))
                (assign "C" (Some (VStr "x")) (store clusterAccepted)) |}.

(** The run of [hesitant] over [scenario] after the checkbox cluster. *)
Definition onlyATicked : CollectorState :=
  {| pending := ["C"];
     store := assign "A" (Some (VBool true))
                (assign "B" (Some (VBool false))
                   (assign "A" (Some (VBool false)) emptyStore)) |}.

(** A checkbox whose id is the string [undefined]. *)
Definition undefinedBox : OptionSet :=
  [ ("undefined", mkOption "CHECKBOX" [] None) ].

(** A checkbox of that id, a dropdown that depends on it, and a second
    checkbox. *)
Definition undefinedFirst : OptionSet :=
  [ ("undefined", mkOption "CHECKBOX" [] None);
    ("D", mkOption "DROPDOWN" ["x"; "y"] (Some [("undefined", [VBool true])]));
    ("B", mkOption "CHECKBOX" [] None) ].

(** A checkbox whose id is [__proto__]. *)
Definition protoBox : OptionSet :=
  [ ("__proto__", mkOption "CHECKBOX" [] None) ].

(** A user who ticks every checkbox shown first, picks the first choice of
    every dropdown, types [hello] and confirms. *)
Definition thorough : User :=
  {| inputBox := λ _, Some "hello";
     quickPick := λ _, Some 0;
     checkboxPick := λ cluster, Some (take 1 cluster);
     confirmOptions := λ _, true |}.

(** The run of [thorough] over [undefinedFirst] when it arrives at [B]. *)
Definition beforeB : CollectorState :=
  {| pending := ["B"];
     store := assign "D" (Some (VStr "x"))
                (assign "D" (Some (VStr "x"))
                   (assign "undefined" (Some (VBool true))
                      (assign "undefined" (Some (VBool false)) emptyStore))) |}.

(** The end of the run of [thorough] over [scenario]; after the checkbox
    cluster, in which only [A] is ticked, it is in [onlyATicked]. *)
Definition completed : CollectorState :=
  {| pending := [];
     store := assign "C" (Some (VStr "x"))
                (assign "C" (Some (VStr "x")) (store onlyATicked)) |}.

(** * More of the command *)

(** [id] names an option the loop can get past: it has one of the three
    types, and a choice to pick if it is a dropdown. *)
Definition Passable (options : OptionSet) (id : string) : Prop :=
  ∃ o, get options id = Some o ∧
    type o ∈ ["CHECKBOX"; "DROPDOWN"; "TEXT"] ∧
    (type o = "DROPDOWN" → choices o ≠ []).

(** An option set with a dependency on an id that names no option. *)
Definition dangling : OptionSet :=
  [ ("A", mkOption "CHECKBOX" [] (Some [("ghost", [VBool true])])) ].

(** An option set with a dependency on an id that names no option, but a
    property of [Object.prototype]. *)
Definition inheritedName : OptionSet :=
  [ ("A", mkOption "CHECKBOX" [] (Some [("constructor", [VBool true])])) ].

(** Some dependency of [options] names nothing: no option, and no property
    of [Object.prototype]. *)
Definition Dangling (options : OptionSet) : Prop :=
  ∃ id o deps dep,
    (id, o) ∈ options ∧ dependencies o = Some deps ∧ dep ∈ keys deps ∧
    (dep ∉ keys options) ∧ dep ∉ objectPrototype.

(** Every option has one of the three types. *)
Definition ValidTypes (options : OptionSet) : Prop :=
  ∀ id o, get options id = Some o →
    type o ∈ ["CHECKBOX"; "DROPDOWN"; "TEXT"].

(** [values] holds, for the ids of [unit] other than [__proto__], what
    [user] answers to the prompt of [unit]: [true] for the ticked and
    [false] for the other members of a cluster, the label picked in a
    dropdown, the string entered in a text box. *)
Definition Answered (options : OptionSet) (user : User)
    (values : LuraphOptionList) (unit : PresentationUnit) : Prop :=
  match unit with
  | Cluster cluster =>
      ∃ ticked, checkboxPick user cluster = Some ticked ∧
        ∀ id, id ∈ cluster → id ≠ "__proto__" →
          values !! id = Some (Some (VBool (bool_decide (id ∈ ticked))))
  | Singleton id =>
      ∃ o, get options id = Some o ∧
        (type o = "DROPDOWN" →
           ∃ index label, quickPick user id = Some index ∧
             choices o !! index = Some label ∧
             (id ≠ "__proto__" → values !! id = Some (Some (VStr label)))) ∧
        (type o = "TEXT" →
           ∃ s, inputBox user id = Some s ∧ s ≠ "" ∧
             (id ≠ "__proto__" → values !! id = Some (Some (VStr s))))
  end.

(** An option set with an option of a type the loop does not know. *)
Definition oddType : OptionSet :=
  [ ("A", mkOption "CHECKBOX" [] None);
    ("S", mkOption "SLIDER" [] None) ].

(** [e] is the error the loop throws at [id]: [nodeInfo.options[id]] is
    [undefined], or a property inherited from [Object.prototype], whose
    [type] is [undefined], or an option of a type that is none of the
    three. *)
Definition ThrownAt (options : OptionSet) (id : string) (e : Error) : Prop :=
  match property options id with
  | Undefined => e = TypeError
  | Inherited => e = InvalidOptionType "undefined"
  | Own o =>
      (type o ∉ ["CHECKBOX"; "DROPDOWN"; "TEXT"]) ∧ e = InvalidOptionType (type o)
  end.

(** The store of a run over [scenario] when the pick of its cluster opens. *)
Definition clusterOpened : Store :=
  assign "B" (Some (VBool false)) (assign "A" (Some (VBool false)) emptyStore).

(** A dropdown without choices. *)
Definition noChoice : OptionSet :=
  [ ("D", mkOption "DROPDOWN" [] None) ].

(** ** The selection handler of the multi-select pick (lines 315-334) *)

(** [visibleOptions.every((o, i) => o.id === optionsPick.items[i].id)]
    (line 329).  [every] stops at the first element for which the callback
    is false; past the end of [items], [optionsPick.items[i]] is
    [undefined] and reading its [id] throws. *)
Fixpoint sameOptions (visibleOptions items : list string) : Completion bool :=
  match visibleOptions with
  | [] => Normal true
  | o :: visibleOptions' =>
      match items with
      | [] => Throw TypeError
      | item :: items' =>
          if bool_decide (o = item) then sameOptions visibleOptions' items'
          else Normal false
      end
  end.

(** What a call of the handler does to the pick. *)
Inductive SelectionUpdate :=
  | Skipped                    (* [ignoreSelectionUpdate] was set; it is reset *)
  | Unchanged                  (* the items shown stay *)
  | Replaced (visibleOptions selected : list string).
                               (* [items] and [selectedItems] are assigned,
                                  [ignoreSelectionUpdate] is set *)

(** The handler of lines 315-334, called with [items] while the pick shows
    [shown] ([optionsPick.items]) and has [selectedItems] ticked
    ([optionsPick.selectedItems]). *)
Definition onDidChangeSelection (options : OptionSet) (values : LuraphOptionList)
    (cluster : list string) (ignoreSelectionUpdate : bool)
    (shown selectedItems items : list string) : Completion SelectionUpdate :=
  if ignoreSelectionUpdate then Normal Skipped
  else
    visibleOptions ← getVisibleOptions options values selectedItems cluster;
    same ← sameOptions visibleOptions shown;
    if same : bool then Normal Unchanged
    else Normal (Replaced visibleOptions items).

(** ** Where the result is saved (lines 463-496) *)

(** The characters of a string.  The functions below only compare them
    with [/] and [.]. *)
Definition chars (s : string) : list ascii := String.list_ascii_of_string s.

(** [s.lastIndexOf(c)] for a single character [c]; [None] is [-1]. *)
Fixpoint lastIndexOf (c : ascii) (s : string) : option nat :=
  match s with
  | EmptyString => None
  | String a s' =>
      match lastIndexOf c s' with
      | Some i => Some (S i)
      | None => if bool_decide (a = c) then Some 0 else None
      end
  end.

(** [s.substring(0, n)] *)
Fixpoint substringTo (n : nat) (s : string) : string :=
  match n, s with
  | S n', String a s' => String a (substringTo n' s')
  | _, _ => EmptyString
  end.

(** [s.substring(n)] *)
Fixpoint substringFrom (n : nat) (s : string) : string :=
  match n, s with
  | S n', String _ s' => substringFrom n' s'
  | _, _ => s
  end.

(** [s.split(c)[0]] for a single character [c] *)
Fixpoint firstPart (c : ascii) (s : string) : string :=
  match s with
  | EmptyString => EmptyString
  | String a s' =>
      if bool_decide (a = c) then EmptyString else String a (firstPart c s')
  end.

(** [document.uri] *)
Record Uri := {
  scheme : string;
  path : string;
}.

(** Lines 463-472: [directory] and [resultName].  [workspaceFolders] is
    [vscode.workspace.workspaceFolders], each folder given by its
    [uri.path]. *)
Definition resultLocation (workspaceFolders : option (list string)) (uri : Uri)
    : Completion (string * string) :=
  directory ← match workspaceFolders with
              | None => Normal ""                  (* [undefined || ""] *)
              | Some [] => Throw TypeError         (* [undefined.uri] *)
              | Some (folder :: _) => Normal folder
              end;
  let resultName := path uri in
  if bool_decide (scheme uri = "file") || bool_decide (scheme uri = "untitled")
  then
    match lastIndexOf "/" resultName with
    | Some lastSlash =>
        Normal (substringTo lastSlash resultName,
                substringFrom (lastSlash + 1) resultName)
    | None => Normal (directory, resultName)
    end
  else Normal (directory, resultName).

(** Line 474 *)
Definition filePartOf (resultName : string) : string := firstPart "." resultName.

(** The path of line 481.  [tries] is a whole number below [2^53 + 1], for
    which the template prints the decimal digits. *)
Definition candidate (directory filePart : string) (tries : N) : string :=
  directory +:+ "/" +:+ filePart +:+ "-obfuscated"
  +:+ (if (0 <? tries)%N then "-" +:+ pretty tries else "") +:+ ".lua".

(** [tries++] on a number: exact up to [2^53], where adding one changes
    nothing any more. *)
Definition increment (tries : N) : N := N.min (tries + 1) (2 ^ 53).

(** [vscode.workspace.fs.stat] on a path: it resolves, or rejects with a
    [FileSystemError] of code [FileNotFound], or rejects with [err]. *)
Inductive StatOutcome :=
  | Found
  | FileNotFound
  | Failed (err : string).

Inductive Search :=
  | Free (path : string)       (* [break]: [resultUri] has this path *)
  | Rethrown (err : string)    (* [throw err] *)
  | UriError                   (* [vscode.Uri.from] throws *)
  | Unfinished.                (* the model ran out of iterations *)

(** [vscode.Uri.from] is given a path and no authority: it throws a
    [UriError] when the path begins with two slashes. *)
Definition doubleSlashStart (path : string) : bool :=
  match path with
  | String "/" (String "/" _) => true
  | _ => false
  end.

(** The loop of lines 478-496 from [tries] on. *)
Fixpoint findFree (stat : string → StatOutcome) (fuel : nat)
    (directory filePart : string) (tries : N) : Search :=
  match fuel with
  | O => Unfinished
  | S fuel' =>
      let path := candidate directory filePart tries in
      if doubleSlashStart path then UriError
      else
        match stat path with
        | FileNotFound => Free path
        | Failed err => Rethrown err
        | Found => findFree stat fuel' directory filePart (increment tries)
        end
  end.

(** A folder in which the first two names are taken. *)
Definition twoTaken (path : string) : StatOutcome :=
  if bool_decide (path = "/w/main-obfuscated.lua") then Found
  else if bool_decide (path = "/w/main-obfuscated-1.lua") then Found
  else FileNotFound.

(** ** Before the options (lines 38-154) *)

(** How the part of the command before the [try] ends.  [saved] is the key
    written by [settings.update], if that call was made. *)
Inductive Preflight :=
  | Returned (saved : option string)
  | ErrorShown (message : string) (saved : option string)
  | Proceeds (apiKey fileName contents : string) (saved : option string).

(** Lines 38-91.  [configured] is the setting [API Key]; [action] tells
    whether the button [Set API Key] of the error message was pressed;
    [input] is what the input box resolves with; [document] is the file
    name and text of the active editor's document. *)
Definition preflight (configured : option string) (action : bool)
    (input : option string) (document : option (string * string)) : Preflight :=
  let withKey (apiKey : string) (saved : option string) :=
    match document with
    | None => ErrorShown "Please open an file to obfuscate." saved
    | Some (fileName, contents) =>
        if bool_decide (contents = "")
        then ErrorShown "Cannot obfuscate an empty file." saved
        else Proceeds apiKey fileName contents saved
    end in
  match configured with
  | Some apiKey =>
      if bool_decide (apiKey = "") then
        if action then
          if falsy input then Returned None
          else withKey (default "" input) input
        else Returned None
      else withKey apiKey None
  | None =>
      if action then
        if falsy input then Returned None
        else withKey (default "" input) input
      else Returned None
  end.

Module Nodes.
(** An item of the node pick; its [iconPath] and its [detail] (CPU usage
    and number of options) are left out. *)
Record Item := {
  label : string;
  description : option string;
  picked : bool;
}.

(** The loop of lines 118-140 over the ids of [nodes.nodes];
    [recommendedId] is [None] when the service names none. *)
Definition availableNodes (recommendedId : option string)
    (nodeIds : list string) : list Item :=
  foldl (λ availableNodes nodeId,
           let recommended := bool_decide (Some nodeId = recommendedId) in
           let quickPickItem :=
             {| label := nodeId;
                description := if recommended then Some " (recommended)" else None;
                picked := recommended |} in
           if recommended then quickPickItem :: availableNodes  (* [unshift] *)
           else availableNodes ++ [quickPickItem])              (* [push] *)
        [] nodeIds.
End Nodes.
(** * Properties *)

(** ** Completions and dictionaries *)

Lemma bind_Normal {A B : Type} (m : Completion A) (f : A → Completion B) (b : B) :
  m ≫= f = Normal b → ∃ a, m = Normal a ∧ f a = Normal b.
Proof. destruct m as [a| | |]; simpl; [eauto | done..]. Qed.

Lemma forEach_cons {A S : Type} (f : A → S → Completion S) x arr s :
  forEach f (x :: arr) s = f x s ≫= forEach f arr.
Proof. done. Qed.

Lemma forEach_cons_Normal {A S : Type} (f : A → S → Completion S) x arr s s' :
  forEach f (x :: arr) s = Normal s' →
  ∃ s1, f x s = Normal s1 ∧ forEach f arr s1 = Normal s'.
Proof. simpl. apply bind_Normal. Qed.

Lemma get_Some_elem {V : Type} (o : Dict V) k v :
  get o k = Some v → (k, v) ∈ o.
Proof.
  induction o as [|[k' v'] o IH]; simpl; [done|].
  case_bool_decide as Hk.
  - intros [= <-]. subst k'. apply list_elem_of_here.
  - intros Hget. apply list_elem_of_further, IH, Hget.
Qed.

Lemma get_is_Some {V : Type} (o : Dict V) k :
  k ∈ keys o ↔ is_Some (get o k).
Proof.
  unfold keys. induction o as [|[k' v'] o IH]; simpl.
  - split; [by intros ?%elem_of_nil | by intros [? ?]].
  - rewrite elem_of_cons. case_bool_decide as Hk.
    + split; [eauto | by left].
    + rewrite <- IH. split; [intros [-> | ?]; done | by right].
Qed.

Lemma get_None {V : Type} (o : Dict V) k :
  k ∉ keys o ↔ get o k = None.
Proof. rewrite get_is_Some, eq_None_not_Some. done. Qed.

Lemma elem_keys {V : Type} (o : Dict V) k v : (k, v) ∈ o → k ∈ keys o.
Proof. intros H. unfold keys. apply list_elem_of_fmap. by exists (k, v). Qed.

Lemma property_Own options id o :
  property options id = Own o ↔ get options id = Some o.
Proof.
  unfold property. destruct (get options id) as [o'|].
  - split; by intros [= ->].
  - by case_bool_decide.
Qed.

Lemma property_get options id o :
  get options id = Some o → property options id = Own o.
Proof. apply property_Own. Qed.

Lemma property_keys options id :
  id ∈ keys options → ∃ o, get options id = Some o ∧ property options id = Own o.
Proof.
  intros [o Ho]%get_is_Some. exists o. split; [done | by apply property_Own].
Qed.

Lemma dependenciesOf_get options id o :
  get options id = Some o → dependenciesOf options id = Normal (dependencies o).
Proof. intros Ho. unfold dependenciesOf. by rewrite (property_get _ _ _ Ho). Qed.

Lemma dependenciesOf_Some options id deps :
  dependenciesOf options id = Normal (Some deps) →
  ∃ o, get options id = Some o ∧ dependencies o = Some deps.
Proof.
  unfold dependenciesOf, property. destruct (get options id) as [o|].
  - intros [= Hd]. by exists o.
  - by case_bool_decide.
Qed.

Lemma dependenciesOf_Normal options id deps :
  dependenciesOf options id = Normal deps →
  id ∈ keys options ∨ id ∈ objectPrototype.
Proof.
  unfold dependenciesOf, property. rewrite get_is_Some.
  destruct (get options id) as [o|]; [by left|]. case_bool_decide; [by right | done].
Qed.

Lemma dependenciesOf_Throw options id e :
  dependenciesOf options id = Throw e → e = TypeError ∧ id ∉ keys options.
Proof.
  unfold dependenciesOf, property. rewrite get_None.
  destruct (get options id) as [o|]; [done|]. case_bool_decide; [done|].
  by intros [= <-].
Qed.

Lemma dependsOn_dependenciesOf options a b :
  dependsOn options a b ↔
  ∃ deps, dependenciesOf options a = Normal (Some deps) ∧ b ∈ keys deps.
Proof.
  split.
  - intros (o & deps & Ho & Hd & Hb). exists deps.
    by rewrite (dependenciesOf_get _ _ _ Ho), Hd.
  - intros (deps & (o & Ho & Hd)%dependenciesOf_Some & Hb). by exists o, deps.
Qed.

Lemma property_Inherited options id :
  property options id = Inherited ↔ (id ∉ keys options) ∧ id ∈ objectPrototype.
Proof.
  unfold property. rewrite get_None. destruct (get options id) as [o|].
  - naive_solver.
  - case_bool_decide; naive_solver.
Qed.

Lemma property_Undefined options id :
  property options id = Undefined ↔ (id ∉ keys options) ∧ id ∉ objectPrototype.
Proof.
  unfold property. rewrite get_None. destruct (get options id) as [o|].
  - naive_solver.
  - case_bool_decide; naive_solver.
Qed.

(** ** The topological pass *)

Lemma Extends_refl s : Extends s s.
Proof.
  exists []. rewrite app_nil_r. split_and!; [done | set_solver | constructor | ].
  by intros x ?%elem_of_nil.
Qed.

Lemma Extends_trans s1 s2 s3 : Extends s1 s2 → Extends s2 s3 → Extends s1 s3.
Proof.
  intros (n1 & Hr1 & Hv1 & Hd1 & Hf1) (n2 & Hr2 & Hv2 & Hd2 & Hf2).
  exists (n1 ++ n2). split_and!.
  - by rewrite Hr2, Hr1, (assoc_L (++)).
  - rewrite Hv2, Hv1, list_to_set_app_L. set_solver.
  - apply NoDup_app. split_and!; [done | | done].
    intros x Hx1 Hx2. apply (Hf2 x Hx2). rewrite Hv1. set_solver.
  - intros x [Hx|Hx]%elem_of_app; [by apply Hf1|].
    intros Hin. apply (Hf2 x Hx). rewrite Hv1. set_solver.
Qed.

Lemma Extends_visited s s' x : Extends s s' → x ∈ visited s → x ∈ visited s'.
Proof. intros (n & _ & Hv & _) Hx. rewrite Hv. set_solver. Qed.

Lemma forEach_Extends (f : string → VisitState → Completion VisitState) arr :
  (∀ x s s', f x s = Normal s' → Extends s s' ∧ x ∈ visited s') →
  ∀ s s', forEach f arr s = Normal s' →
    Extends s s' ∧ ∀ x, x ∈ arr → x ∈ visited s'.
Proof.
  intros Hf. induction arr as [|x arr IH]; intros s s' Hrun.
  - injection Hrun as <-. split; [apply Extends_refl | by intros x ?%elem_of_nil].
  - apply forEach_cons_Normal in Hrun as (s1 & Hx & Hrest).
    apply Hf in Hx as [Hx1 Hx2]. apply IH in Hrest as [Hr1 Hr2].
    split; [by eapply Extends_trans|].
    intros y [-> | Hy]%elem_of_cons; [by eapply Extends_visited | by apply Hr2].
Qed.

Lemma visit_Extends options fuel id s s' :
  visit options fuel id s = Normal s' → Extends s s' ∧ id ∈ visited s'.
Proof.
  revert id s s'. induction fuel as [|fuel IH]; intros id s s'; simpl.
  - case_bool_decide; [|done]. intros [= <-]. split; [apply Extends_refl | done].
  - case_bool_decide as Hvis.
    { intros [= <-]. split; [apply Extends_refl | done]. }
    intros (dependencies & _ & (s2 & Hdeps & [= <-])%bind_Normal)%bind_Normal.
    simpl.
    set (s1 := {| visited := {[id]} ∪ visited s; result := result s |}) in *.
    assert (Extends s1 s2) as (n & Hr & Hv & Hd & Hfresh).
    { destruct dependencies as [deps|].
      - by apply (forEach_Extends _ _ IH) in Hdeps as [? _].
      - injection Hdeps as <-. apply Extends_refl. }
    split; [|rewrite Hv; set_solver].
    exists (n ++ [id]). simpl in *. split_and!.
    + by rewrite Hr, (assoc_L (++)).
    + rewrite Hv, list_to_set_app_L. set_solver.
    + apply NoDup_app. split_and!; [done | | apply NoDup_singleton].
      intros x Hx ->%list_elem_of_singleton. apply (Hfresh id Hx). set_solver.
    + intros x [Hx | ->%list_elem_of_singleton]%elem_of_app; [|done].
      intros Hin. apply (Hfresh x Hx). set_solver.
Qed.

Lemma topologicalSort_NoDup options arr res :
  topologicalSort options arr = Normal res →
  NoDup res ∧ ∀ x, x ∈ arr → x ∈ res.
Proof.
  unfold topologicalSort. intros (s & Hrun & [= <-])%bind_Normal.
  apply (forEach_Extends _ _ (visit_Extends options _)) in Hrun
    as [(n & Hr & Hv & Hd & _) Hall].
  simpl in *. subst n. split; [done|].
  intros x Hx%Hall. rewrite Hv in Hx. set_solver.
Qed.

Lemma forEach_invariant {A S : Type} (f : A → S → Completion S) (P : S → Prop) arr :
  (∀ x s s', x ∈ arr → P s → f x s = Normal s' → P s') →
  ∀ s s', P s → forEach f arr s = Normal s' → P s'.
Proof.
  induction arr as [|x arr IH]; intros Hf s s' HP Hrun.
  - by injection Hrun as <-.
  - apply forEach_cons_Normal in Hrun as (s1 & Hx & Hrest).
    eapply IH; [|eapply Hf; [left|done..]|done].
    intros y t t' Hy. apply Hf. by right.
Qed.

Lemma size_list_to_set_le (l : list string) :
  size (list_to_set l : gset string) ≤ length l.
Proof.
  induction l as [|x l IH].
  - rewrite list_to_set_nil, size_empty. done.
  - rewrite list_to_set_cons, size_union_alt, size_singleton. simpl.
    apply le_n_S. etrans; [apply subseteq_size|done].
    apply subseteq_difference_l. reflexivity.
Qed.

(** The recursion of [visit] is as deep as there are unmarked keys, at
    most. *)
Lemma visit_terminates options fuel id s :
  Closed options → id ∈ keys options →
  size (list_to_set (keys options) ∖ visited s) < fuel →
  ∃ s', visit options fuel id s = Normal s'.
Proof.
  intros Hclosed. revert id s.
  induction fuel as [|fuel IH]; intros id s Hid Hsize; [lia|].
  simpl. case_bool_decide as Hvis; [eauto|].
  destruct (proj1 (get_is_Some _ _) Hid) as [o Ho].
  rewrite (dependenciesOf_get _ _ _ Ho). simpl.
  set (s1 := {| visited := {[id]} ∪ visited s; result := result s |}).
  assert (size (list_to_set (keys options) ∖ visited s1) < fuel) as Hsize1.
  { apply Nat.lt_le_trans with (size (list_to_set (keys options) ∖ visited s));
      [|lia].
    apply subset_size. simpl. set_solver. }
  destruct (dependencies o) as [deps|] eqn:Hdeps; simpl; [|eauto].
  assert (∀ arr t, (∀ d, d ∈ arr → d ∈ keys options) →
            size (list_to_set (keys options) ∖ visited t) < fuel →
            ∃ t', forEach (visit options fuel) arr t = Normal t') as Hall.
  { clear -IH. induction arr as [|d arr IHarr]; intros t Harr Ht; simpl; [eauto|].
    destruct (IH d t) as [t1 Ht1]; [apply Harr; left | done |].
    rewrite Ht1. simpl. apply IHarr; [intros; apply Harr; by right|].
    apply visit_Extends in Ht1 as [(n & _ & Hv & _) _].
    eapply Nat.le_lt_trans; [apply subseteq_size|done]. rewrite Hv. set_solver. }
  destruct (Hall (keys deps) s1) as [s2 Hs2]; [|done|rewrite Hs2; simpl; eauto].
  intros d Hd. eapply Hclosed; [by apply get_Some_elem|done..].
Qed.

Lemma topologicalSort_terminates options arr :
  Closed options → (∀ id, id ∈ arr → id ∈ keys options) →
  ∃ res, topologicalSort options arr = Normal res.
Proof.
  intros Hclosed Harr. unfold topologicalSort.
  assert (∀ l t, (∀ d, d ∈ l → d ∈ keys options) →
            ∃ t', forEach (visit options (S (length options))) l t = Normal t')
    as Hall.
  { induction l as [|d l IHl]; intros t Hl; [by eexists|].
    rewrite forEach_cons.
    destruct (visit_terminates options (S (length options)) d t) as [t1 Ht1];
      [done | apply Hl; left | | rewrite Ht1; apply IHl; intros; apply Hl; by right].
    apply Nat.lt_succ_r. etrans; [apply subseteq_size|].
    - apply subseteq_difference_l. reflexivity.
    - etrans; [apply size_list_to_set_le|]. unfold keys. by rewrite length_fmap. }
  destruct (Hall arr {| visited := ∅; result := [] |} Harr) as [s Hs].
  rewrite Hs. simpl. eauto.
Qed.


Lemma InProgress_Extends s s' g : Extends s s' → InProgress s' g → InProgress s g.
Proof.
  intros (n & Hr & Hv & _) [Hg1 Hg2]. rewrite Hr in Hg2. rewrite Hv in Hg1.
  split; set_solver.
Qed.

Lemma Before_app_l l k b a : Before l b a → Before (l ++ k) b a.
Proof.
  intros (i & j & Hi & Hj & Hij). exists i, j.
  split_and!; [by apply lookup_app_l_Some.. | done].
Qed.

Lemma Before_snoc l b a : b ∈ l → Before (l ++ [a]) b a.
Proof.
  intros (i & Hi)%list_elem_of_lookup. exists i, (length l). split_and!.
  - by apply lookup_app_l_Some.
  - by rewrite list_lookup_middle.
  - by eapply lookup_lt_Some.
Qed.

(** With an acyclic dependency relation every call in progress is an
    ancestor of the id being visited, so a dependency met by [visit] is
    never in progress: it has been emitted. *)
Lemma visit_DepsFirst options fuel id s s' :
  Acyclic options →
  visit options fuel id s = Normal s' →
  DepsFirst options (result s) →
  (∀ g, InProgress s g → rtc (dependsOn options) g id) →
  DepsFirst options (result s').
Proof.
  intros Hacyclic. revert id s s'.
  induction fuel as [|fuel IH]; intros id s s'; simpl.
  { case_bool_decide; [|done]. by intros [= <-]. }
  case_bool_decide as Hvis; [by intros [= <-]|].
  intros (dependencies & Hdo & (s2 & Hdeps & [= <-])%bind_Normal)%bind_Normal
    Hord Hprog. simpl.
  set (s1 := {| visited := {[id]} ∪ visited s; result := result s |}) in *.
  pose (P := λ t : VisitState,
          DepsFirst options (result t) ∧
          ∀ g, InProgress t g → rtc (dependsOn options) g id).
  assert (P s1) as HP1.
  { split; [done|]. intros g [Hg1 Hg2]. simpl in *.
    apply elem_of_union in Hg1 as [->%elem_of_singleton|Hg1]; [done|].
    by apply Hprog. }
  assert (P s2 ∧ ∀ b, dependsOn options id b → b ∈ visited s2) as [[Hord2 Hprog2] Hvis2].
  { destruct dependencies as [deps|].
    - split.
      + revert Hdeps. apply forEach_invariant; [|done].
        intros d t t' Hd' [Ht1 Ht2] Hrun. split.
        * eapply IH; [done..|]. intros g Hg. eapply rtc_r; [by apply Ht2|].
          apply dependsOn_dependenciesOf. by exists deps.
        * intros g Hg. apply Ht2. eapply InProgress_Extends; [|done].
          by eapply visit_Extends.
      + intros b (deps' & Hd' & Hb)%dependsOn_dependenciesOf.
        rewrite Hdo in Hd'. injection Hd' as <-.
        by apply (forEach_Extends _ _ (visit_Extends options fuel)) in Hdeps as [_ ?]; auto.
    - injection Hdeps as <-. split; [done|].
      intros b (deps' & Hd' & Hb)%dependsOn_dependenciesOf.
      by rewrite Hdo in Hd'. }
  intros a b [Ha | ->%list_elem_of_singleton]%elem_of_app Hab.
  - by apply Before_app_l, Hord2.
  - destruct (decide (b ∈ result s2)) as [Hb|Hb]; [by apply Before_snoc|].
    destruct (Hacyclic id). eapply tc_rtc_r; [by apply tc_once|].
    apply Hprog2. split; [by apply Hvis2|done].
Qed.

Lemma topologicalSort_DepsFirst options arr res :
  Acyclic options → topologicalSort options arr = Normal res →
  DepsFirst options res.
Proof.
  intros Hacyclic. unfold topologicalSort.
  intros (s & Hrun & [= <-])%bind_Normal.
  pose (P := λ t : VisitState,
          DepsFirst options (result t) ∧ ∀ g, ¬ InProgress t g).
  cut (P s); [by intros []|].
  revert Hrun. apply forEach_invariant.
  - intros d t t' _ [Ht1 Ht2] Hrun. split.
    + eapply visit_DepsFirst; [done..|]. intros g Hg. by destruct (Ht2 g).
    + intros g Hg. apply (Ht2 g). eapply InProgress_Extends; [|done].
      by eapply visit_Extends.
  - split; [by intros a b ?%elem_of_nil|]. intros g [Hg _]. simpl in Hg. set_solver.
Qed.

(** ** Removing duplicates *)

Lemma indexOf_first seen v todo :
  indexOf (seen ++ v :: todo) v = Some (length seen) ↔ v ∉ seen.
Proof.
  unfold indexOf. rewrite fmap_Some. split.
  - intros ([i x] & Hfind & Hi) Hin. simpl in Hi. subst i.
    apply list_find_Some in Hfind as (_ & _ & Hmin).
    apply list_elem_of_lookup in Hin as [j Hj].
    apply (Hmin j v); [by apply lookup_app_l_Some | by eapply lookup_lt_Some | done].
  - intros Hnin. exists (length seen, v). split; [|done].
    apply list_find_Some. split_and!; [by rewrite list_lookup_middle | done |].
    intros j y Hj Hlt ->. apply Hnin.
    rewrite lookup_app_l in Hj by done. by eapply list_elem_of_lookup_2.
Qed.

Lemma firstOccurrences_shift (seen : list string) v todo :
  firstOccurrences (seen ++ v :: todo) (S (length seen)) todo
  = firstOccurrences ((seen ++ [v]) ++ todo) (length (seen ++ [v])) todo.
Proof. rewrite <- (assoc_L (++)), length_app. simpl. by rewrite Nat.add_1_r. Qed.

Lemma firstOccurrences_elem todo seen x :
  x ∈ firstOccurrences (seen ++ todo) (length seen) todo ↔ x ∈ todo ∧ x ∉ seen.
Proof.
  revert seen. induction todo as [|v todo IH]; intros seen; simpl.
  - split; [by intros ?%elem_of_nil | by intros [?%elem_of_nil _]].
  - rewrite firstOccurrences_shift. case_bool_decide as Hv.
    + apply indexOf_first in Hv. rewrite !elem_of_cons, IH. clear IH.
      destruct (decide (x = v)) as [->|]; set_unfold; naive_solver.
    + rewrite indexOf_first in Hv. apply dec_stable in Hv.
      rewrite IH, elem_of_cons. clear IH. set_unfold. naive_solver.
Qed.

Lemma firstOccurrences_NoDup todo seen :
  NoDup (firstOccurrences (seen ++ todo) (length seen) todo).
Proof.
  revert seen. induction todo as [|v todo IH]; intros seen; simpl; [constructor|].
  rewrite firstOccurrences_shift. case_bool_decide; [|apply IH].
  constructor; [|apply IH]. rewrite firstOccurrences_elem.
  set_unfold. naive_solver.
Qed.

Lemma firstOccurrences_keep l seen k :
  NoDup (seen ++ l) →
  firstOccurrences (seen ++ l ++ k) (length seen) (l ++ k)
  = l ++ firstOccurrences (seen ++ l ++ k) (length (seen ++ l)) k.
Proof.
  revert seen. induction l as [|v l IH]; intros seen Hnd; simpl.
  - by rewrite app_nil_r.
  - rewrite bool_decide_eq_true_2.
    + f_equal. rewrite firstOccurrences_shift.
      rewrite IH by (by rewrite <- (assoc_L (++))).
      by rewrite <- !(assoc_L (++)).
    + apply (indexOf_first seen v (l ++ k)).
      apply NoDup_app in Hnd as (_ & Hnd & _). intros Hin.
      apply (Hnd v Hin). by left.
Qed.

Lemma removeDupes_NoDup arr : NoDup (removeDupes arr).
Proof. apply (firstOccurrences_NoDup arr []). Qed.

Lemma removeDupes_elem arr x : x ∈ removeDupes arr ↔ x ∈ arr.
Proof.
  unfold removeDupes. rewrite (firstOccurrences_elem arr [] x).
  split; [by intros [] | split; [done | by intros ?%elem_of_nil]].
Qed.

Lemma removeDupes_app l k :
  NoDup l → ∃ k', removeDupes (l ++ k) = l ++ k'.
Proof.
  intros Hnd. eexists. unfold removeDupes.
  apply (firstOccurrences_keep l [] k Hnd).
Qed.

(** ** The sort of V8 on short arrays *)

#[local] Arguments Nat.div : simpl never.

Section V8_total.
Variable cmp : Comparator.
Variable arr : list string.
Hypothesis cmp_total : ∀ a b, a ∈ arr → b ∈ arr → ∃ order, cmp a b = Normal order.

Lemma extendRun_total descending previous rest :
  previous ∈ arr → (∀ x, x ∈ rest → x ∈ arr) →
  ∃ run others,
    V8.extendRun cmp descending previous rest = Normal (run, others) ∧
    rest = run ++ others.
Proof using cmp_total.
  revert previous. induction rest as [|current rest IH]; intros previous Hp Hrest.
  { by exists [], []. }
  simpl. destruct (cmp_total current previous) as [order ->]; [apply Hrest; left | done |].
  simpl. destruct (if descending then _ else _).
  { by exists [], (current :: rest). }
  destruct (IH current) as (run & others & -> & ->);
    [apply Hrest; left | intros; apply Hrest; by right |].
  by exists (current :: run), others.
Qed.

Lemma countAndMakeRun_total l :
  (∀ x, x ∈ l → x ∈ arr) →
  ∃ run others,
    V8.countAndMakeRun cmp l = Normal (run, others) ∧ run ++ others ≡ₚ l.
Proof using cmp_total.
  intros Hl. destruct l as [|a0 [|a1 rest]]; [by exists [], [] | by exists [a0], [] |].
  simpl. destruct (cmp_total a1 a0) as [order ->]; [set_solver..|]. simpl.
  destruct (extendRun_total (order <? 0)%Z a1 rest) as (run & others & -> & ->);
    [set_solver..|].
  simpl. eexists _, _. split; [done|].
  destruct (order <? 0)%Z; [|done].
  by rewrite reverse_Permutation.
Qed.

Lemma insertionPoint_total fuel pivot sorted left right :
  pivot ∈ arr → (∀ x, x ∈ sorted → x ∈ arr) →
  left ≤ right → right ≤ length sorted → right - left ≤ fuel →
  ∃ pos, V8.insertionPoint cmp fuel pivot sorted left right = Normal pos ∧
         pos ≤ right.
Proof using cmp_total.
  intros Hp Hs. revert left right.
  induction fuel as [|fuel IH]; intros left right Hle Hlen Hfuel;
    cbn [V8.insertionPoint];
    case_bool_decide as Hlt; try (by exists left); [lia|].
  pose proof (Nat.div_lt (right - left) 2 ltac:(lia) ltac:(lia)) as Hhalf.
  destruct (cmp_total pivot (sorted !!! (left + (right - left) `div` 2)))
    as [order ->]; [done | apply Hs, list_elem_of_lookup_total_2; lia |].
  cbn [mbind Completion_bind]. destruct (order <? 0)%Z.
  - destruct (IH left (left + (right - left) `div` 2)) as (pos & -> & ?); [lia..|].
    exists pos. split; [done | lia].
  - apply IH; lia.
Qed.

Lemma binaryInsertionSort_total sorted rest :
  (∀ x, x ∈ sorted ++ rest → x ∈ arr) →
  ∃ l, V8.binaryInsertionSort cmp sorted rest = Normal l ∧ l ≡ₚ sorted ++ rest.
Proof using cmp_total.
  revert sorted. induction rest as [|pivot rest IH]; intros sorted Hin; simpl.
  { exists sorted. by rewrite app_nil_r. }
  destruct (insertionPoint_total (length sorted) pivot sorted 0 (length sorted))
    as (pos & -> & Hpos); [set_solver.. | lia | lia | lia |].
  simpl.
  assert (take pos sorted ++ pivot :: drop pos sorted ≡ₚ pivot :: sorted) as Hperm.
  { by rewrite <- Permutation_middle, take_drop. }
  destruct (IH (take pos sorted ++ pivot :: drop pos sorted)) as (l & -> & Hl).
  - intros x Hx. apply Hin. revert Hx. rewrite elem_of_app, Hperm. set_solver.
  - exists l. split; [done|]. rewrite Hl, Hperm. by rewrite <- Permutation_middle.
Qed.

Lemma sort_total :
  ∃ sorted, V8.sort cmp arr = Normal sorted ∧ sorted ≡ₚ arr.
Proof using cmp_total.
  unfold V8.sort. case_bool_decide; [by exists arr|].
  destruct (countAndMakeRun_total arr) as (run & others & -> & Hperm); [done|].
  simpl. destruct (binaryInsertionSort_total run others) as (l & -> & Hl).
  - intros x Hx. by rewrite Hperm in Hx.
  - exists l. split; [done|]. by rewrite Hl.
Qed.
End V8_total.

Lemma V8_sort_Rearranges : Rearranges V8.sort.
Proof. intros cmp arr Hcmp. by apply sort_total. Qed.

Lemma filter_bool_cons (p : string → bool) x l :
  filter (λ x, p x) (x :: l)
  = if p x then x :: filter (λ x, p x) l else filter (λ x, p x) l.
Proof.
  destruct (p x) eqn:Hx.
  - by rewrite filter_cons_True by (by apply Is_true_true).
  - by rewrite filter_cons_False by (by apply Is_true_false).
Qed.

Lemma filter_negb_cons (p : string → bool) x l :
  filter (λ x, ¬ p x) (x :: l)
  = if p x then filter (λ x, ¬ p x) l else x :: filter (λ x, ¬ p x) l.
Proof.
  destruct (p x) eqn:Hx.
  - rewrite filter_cons_False; [done|]. intros H. by apply H, Is_true_true.
  - by rewrite filter_cons_True by (by apply Is_true_false).
Qed.

(** A comparator that answers [-1] when its first argument satisfies [p]
    and [0] otherwise: V8 moves the elements satisfying [p] to the front
    one after the other, so that they end up in reverse order. *)
Section V8_grouping.
Variable cmp : Comparator.
Variable p : string → bool.
Variable arr : list string.
Hypothesis cmp_p : ∀ a b, a ∈ arr → cmp a b = Normal (if p a then -1 else 0)%Z.

Lemma movedToFront_snoc l x :
  movedToFront p (l ++ [x])
  = if p x then x :: movedToFront p l else movedToFront p l ++ [x].
Proof.
  unfold movedToFront. rewrite !filter_app, filter_bool_cons, filter_negb_cons.
  destruct (p x); rewrite !filter_nil.
  - by rewrite reverse_snoc, app_nil_r.
  - by rewrite app_nil_r, (assoc_L (++)).
Qed.

Lemma movedToFront_singleton a : movedToFront p [a] = [a].
Proof.
  unfold movedToFront. rewrite filter_bool_cons, filter_negb_cons.
  by destruct (p a).
Qed.

Lemma extendRun_grouping descending previous rest :
  (∀ x, x ∈ rest → x ∈ arr) →
  ∃ run others,
    V8.extendRun cmp descending previous rest = Normal (run, others) ∧
    rest = run ++ others ∧ Forall (λ x, p x = descending) run.
Proof using cmp_p.
  revert previous. induction rest as [|current rest IH]; intros previous Hrest.
  { by exists [], []. }
  simpl. rewrite cmp_p by (apply Hrest; left). simpl.
  destruct (IH current) as (run & others & Hrun & -> & Hall);
    [intros; apply Hrest; by right|].
  destruct descending, (p current) eqn:Hc; simpl.
  - rewrite Hrun. simpl. exists (current :: run), others. by repeat constructor.
  - by exists [], (current :: run ++ others).
  - by exists [], (current :: run ++ others).
  - rewrite Hrun. simpl. exists (current :: run), others. by repeat constructor.
Qed.

Lemma movedToFront_cons x l :
  movedToFront p (x :: l)
  = reverse (filter (λ x, p x) l) ++
    (if p x then x :: filter (λ x, ¬ p x) l else x :: filter (λ x, ¬ p x) l).
Proof.
  unfold movedToFront. rewrite filter_bool_cons, filter_negb_cons.
  destruct (p x); [|done]. by rewrite reverse_cons, <- (assoc_L (++)).
Qed.

Lemma filter_all (b : bool) l :
  Forall (λ x, p x = b) l →
  filter (λ x, p x) l = (if b then l else []) ∧
  filter (λ x, ¬ p x) l = (if b then [] else l).
Proof.
  induction l as [|y l IH]; [by destruct b|].
  intros [Hy [IH1 IH2]%IH]%Forall_cons.
  rewrite filter_bool_cons, filter_negb_cons, Hy, IH1, IH2. by destruct b.
Qed.

Lemma countAndMakeRun_grouping l :
  (∀ x, x ∈ l → x ∈ arr) →
  ∃ l0 others,
    V8.countAndMakeRun cmp l = Normal (movedToFront p l0, others) ∧
    l = l0 ++ others.
Proof using cmp_p.
  intros Hl. destruct l as [|a0 [|a1 rest]].
  { by exists [], []. }
  { exists [a0], []. by rewrite movedToFront_singleton. }
  simpl. rewrite cmp_p by set_solver. simpl.
  destruct (extendRun_grouping ((if p a1 then -1 else 0) <? 0)%Z a1 rest)
    as (run & others & -> & -> & Hall); [set_solver|]. simpl.
  exists (a0 :: a1 :: run), others. split; [|done]. do 2 f_equal.
  rewrite movedToFront_cons.
  destruct (p a1) eqn:H1; simpl in *.
  - destruct (filter_all true (a1 :: run)) as [-> ->]; [by constructor|].
    rewrite (reverse_cons _ a0). by destruct (p a0).
  - destruct (filter_all false (a1 :: run)) as [-> ->]; [by constructor|].
    by destruct (p a0).
Qed.

Lemma insertionPoint_front fuel pivot sorted left right :
  pivot ∈ arr → p pivot = true → right - left ≤ fuel →
  V8.insertionPoint cmp fuel pivot sorted left right = Normal left.
Proof using cmp_p.
  intros Hp Hpivot. revert right.
  induction fuel as [|fuel IH]; intros right Hfuel; cbn [V8.insertionPoint];
    case_bool_decide as Hlt; try done; [lia|].
  rewrite cmp_p, Hpivot by done. cbn.
  pose proof (Nat.div_lt (right - left) 2 ltac:(lia) ltac:(lia)).
  apply IH. lia.
Qed.

Lemma insertionPoint_back fuel pivot sorted left right :
  pivot ∈ arr → p pivot = false → left ≤ right → right - left ≤ fuel →
  V8.insertionPoint cmp fuel pivot sorted left right = Normal right.
Proof using cmp_p.
  intros Hp Hpivot. revert left.
  induction fuel as [|fuel IH]; intros left Hle Hfuel; cbn [V8.insertionPoint];
    case_bool_decide as Hlt; try (f_equal; lia); try lia.
  rewrite cmp_p, Hpivot by done. cbn.
  pose proof (Nat.div_lt (right - left) 2 ltac:(lia) ltac:(lia)).
  apply IH; lia.
Qed.

Lemma binaryInsertionSort_grouping l0 rest :
  (∀ x, x ∈ rest → x ∈ arr) →
  V8.binaryInsertionSort cmp (movedToFront p l0) rest
  = Normal (movedToFront p (l0 ++ rest)).
Proof using cmp_p.
  revert l0. induction rest as [|pivot rest IH]; intros l0 Hrest.
  { by rewrite app_nil_r. }
  cbn [V8.binaryInsertionSort].
  assert (pivot ∈ arr) as Hp by (apply Hrest; left).
  rewrite (cons_middle pivot l0 rest), (assoc_L (++)).
  rewrite <- IH by (intros; apply Hrest; by right).
  rewrite movedToFront_snoc. destruct (p pivot) eqn:Hpivot.
  - rewrite insertionPoint_front by (done || lia). by cbn.
  - rewrite insertionPoint_back by (done || lia). cbn.
    by rewrite firstn_all, drop_all.
Qed.

Lemma sort_grouping :
  V8.sort cmp arr = Normal (movedToFront p arr).
Proof using cmp_p.
  unfold V8.sort. case_bool_decide as Hlen.
  - destruct arr as [|a [|? ?]]; [done | | simpl in Hlen; lia].
    by rewrite movedToFront_singleton.
  - destruct (countAndMakeRun_grouping arr) as (l0 & others & -> & Harr); [done|].
    cbn. rewrite binaryInsertionSort_grouping; [by rewrite <- Harr|].
    intros x Hx. rewrite Harr. set_solver.
Qed.
End V8_grouping.

(** ** The resolver *)

Lemma typeFirst_Normal ty options a b :
  a ∈ keys options →
  typeFirst ty options a b
  = Normal (if isOfType options ty a then -1 else 0)%Z.
Proof.
  intros [o Ho]%get_is_Some. unfold typeFirst, typeOf, isOfType.
  rewrite (property_get _ _ _ Ho), Ho. simpl.
  do 2 case_bool_decide; congruence.
Qed.

Lemma linkedOptions_elem options x :
  x ∈ linkedOptions options ↔
  ∃ id o deps, (id, o) ∈ options ∧ dependencies o = Some deps ∧
               (x = id ∨ x ∈ keys deps).
Proof.
  unfold linkedOptions. rewrite list_elem_of_In, in_flat_map. split.
  - intros ([id o] & Hin%list_elem_of_In & Hx).
    destruct (dependencies o) as [deps|] eqn:Hd; [|done].
    exists id, o, deps. split_and!; [done..|].
    apply list_elem_of_In, elem_of_cons in Hx. done.
  - intros (id & o & deps & Hin & Hd & Hx). exists (id, o).
    split; [by apply list_elem_of_In|]. rewrite Hd.
    apply list_elem_of_In, elem_of_cons. done.
Qed.

Lemma linkedOptions_keys options x :
  Closed options → x ∈ linkedOptions options → x ∈ keys options.
Proof.
  intros Hclosed (id & o & deps & Hin & Hd & [-> | Hx])%linkedOptions_elem.
  - by eapply elem_keys.
  - by eapply Hclosed.
Qed.

Lemma dependsOn_linked options a b :
  dependsOn options a b → a ∈ linkedOptions options.
Proof.
  intros (o & deps & Ho%get_Some_elem & Hd & Hb).
  apply linkedOptions_elem. exists a, o, deps. auto.
Qed.

Lemma visit_result_keys options fuel id s s' :
  Closed options → id ∈ keys options →
  visit options fuel id s = Normal s' →
  (∀ x, x ∈ result s → x ∈ keys options) →
  ∀ x, x ∈ result s' → x ∈ keys options.
Proof.
  intros Hclosed. revert id s s'.
  induction fuel as [|fuel IH]; intros id s s' Hid; simpl.
  { case_bool_decide; [|done]. by intros [= <-]. }
  case_bool_decide as Hvis; [by intros [= <-]|].
  intros (dependencies & Hdo & (s2 & Hdeps & [= <-])%bind_Normal)%bind_Normal Hs x.
  simpl. intros [Hx | ->%list_elem_of_singleton]%elem_of_app; [|done].
  revert x Hx. destruct dependencies as [deps|].
  - apply dependenciesOf_Some in Hdo as (o & Ho%get_Some_elem & Hd).
    revert Hdeps.
    apply (forEach_invariant _ (λ t, ∀ x, x ∈ result t → x ∈ keys options));
      [|exact Hs].
    intros d t t' Hdep Ht Hrun. eapply IH; [|done..]. by eapply Hclosed.
  - by injection Hdeps as <-.
Qed.

Lemma topologicalSort_keys options arr res x :
  Closed options → (∀ id, id ∈ arr → id ∈ keys options) →
  topologicalSort options arr = Normal res → x ∈ res → x ∈ keys options.
Proof.
  intros Hclosed Harr. unfold topologicalSort.
  intros (s & Hrun & [= <-])%bind_Normal. revert x.
  revert Hrun.
  apply (forEach_invariant _ (λ t, ∀ x, x ∈ result t → x ∈ keys options)).
  - intros d t t' Hd Ht Hrun'. eapply visit_result_keys; [done | by apply Harr | done..].
  - by intros x ?%elem_of_nil.
Qed.

(** The three steps of [idOrder] when no dependency is dangling. *)
Lemma idOrder_steps sort options :
  Rearranges sort → Closed options →
  ∃ linked res rest,
    groupDropdowns sort options (linkedOptions options) = Normal linked ∧
    linked ≡ₚ linkedOptions options ∧
    topologicalSort options linked = Normal res ∧
    rest ≡ₚ keys options ∧
    idOrder sort options = Normal (removeDupes (res ++ rest)).
Proof.
  intros Hsort Hclosed. unfold idOrder, groupDropdowns.
  destruct (Hsort (typeFirst "DROPDOWN" options) (linkedOptions options))
    as (linked & Hlinked & Hperm).
  { intros a b Ha _. rewrite typeFirst_Normal; [eauto|].
    by apply linkedOptions_keys. }
  destruct (topologicalSort_terminates options linked) as [res Hres]; [done| |].
  { intros id. rewrite Hperm. by apply linkedOptions_keys. }
  destruct (Hsort (typeFirst "CHECKBOX" options) (keys options))
    as (rest & Hrest & Hperm').
  { intros a b Ha _. rewrite typeFirst_Normal; eauto. }
  exists linked, res, rest. rewrite Hlinked. simpl. rewrite Hres. simpl.
  by rewrite Hrest.
Qed.

Lemma indexOf_NoDup l i x :
  NoDup l → l !! i = Some x → indexOf l x = Some i.
Proof.
  intros Hnd Hi. unfold indexOf. apply fmap_Some. exists (i, x).
  split; [|done]. apply list_find_Some. split_and!; [done..|].
  intros j y Hj Hlt ->. pose proof (NoDup_lookup _ _ _ _ Hnd Hi Hj). lia.
Qed.

(** C1. When no dependency is dangling and the dependency relation is
    acyclic, [idOrder] lists every option after the options it declares a
    dependency on: if [a] depends on [b], the position of [b] in the
    final order is strictly smaller than the position of [a]. *)
Theorem idOrder_dependencies_first sort options :
  Rearranges sort → Closed options → Acyclic options →
  ∃ orderedIds,
    idOrder sort options = Normal orderedIds ∧
    ∀ a b, dependsOn options a b →
      ∃ i j, indexOf orderedIds b = Some i ∧ indexOf orderedIds a = Some j ∧
             i < j.
Proof.
  intros Hsort Hclosed Hacyclic.
  destruct (idOrder_steps sort options Hsort Hclosed)
    as (linked & res & rest & _ & Hperm & Hres & _ & ->).
  eexists. split; [done|]. intros a b Hab.
  destruct (topologicalSort_NoDup _ _ _ Hres) as [Hnd Hall].
  destruct (removeDupes_app res rest Hnd) as [k Hk].
  destruct (topologicalSort_DepsFirst _ _ _ Hacyclic Hres a b) as (i & j & Hi & Hj & Hij);
    [|done|].
  { apply Hall. rewrite Hperm. by eapply dependsOn_linked. }
  pose proof (removeDupes_NoDup (res ++ rest)) as Hnd'.
  exists i, j. split_and!; [| |done];
    apply indexOf_NoDup; try done; rewrite Hk; by apply lookup_app_l_Some.
Qed.

(** C3. When no dependency is dangling, [idOrder] lists every id of the
    option set exactly once and nothing else; it is a permutation of the
    keys. *)
Theorem idOrder_complete sort options :
  Rearranges sort → Closed options →
  ∃ orderedIds,
    idOrder sort options = Normal orderedIds ∧
    NoDup orderedIds ∧
    (∀ id, id ∈ orderedIds ↔ id ∈ keys options) ∧
    (NoDup (keys options) → orderedIds ≡ₚ keys options).
Proof.
  intros Hsort Hclosed.
  destruct (idOrder_steps sort options Hsort Hclosed)
    as (linked & res & rest & _ & Hperm & Hres & Hrest & ->).
  eexists. split; [done|].
  assert (∀ id, id ∈ removeDupes (res ++ rest) ↔ id ∈ keys options) as Hiff.
  { intros id. rewrite removeDupes_elem, elem_of_app, Hrest.
    split; [intros [?|?]; [|done] | by right].
    eapply (topologicalSort_keys _ linked); [done| |done..].
    intros y. rewrite Hperm. by apply linkedOptions_keys. }
  split_and!; [apply removeDupes_NoDup | done |].
  intros Hnd. by apply NoDup_Permutation; [apply removeDupes_NoDup | |].
Qed.

(** C8. The topological pass returns for every list of existing ids over
    an option set without dangling dependencies, cyclic or not, and no id
    occurs twice in its result. *)
Theorem topologicalSort_total options arr :
  Closed options → (∀ id, id ∈ arr → id ∈ keys options) →
  ∃ res, topologicalSort options arr = Normal res ∧ NoDup res.
Proof.
  intros Hclosed Harr.
  destruct (topologicalSort_terminates options arr Hclosed Harr) as [res Hres].
  exists res. split; [done|]. by eapply topologicalSort_NoDup.
Qed.

(** *** The option sets of the examples *)

Lemma closedb_Closed options : closedb options = true → Closed options.
Proof.
  unfold closedb. rewrite forallb_forall.
  intros Hall id o deps dep Hin%list_elem_of_In Hd Hdep.
  specialize (Hall _ Hin). simpl in Hall. rewrite Hd, forallb_forall in Hall.
  eapply bool_decide_eq_true_1, Hall. by apply list_elem_of_In.
Qed.

(** A rank that decreases along every dependency excludes cycles. *)
Lemma ranked_Acyclic options (rank : string → nat) :
  (∀ a b, dependsOn options a b → rank b < rank a) → Acyclic options.
Proof.
  intros Hrank id Hcycle.
  assert (∀ x y, tc (dependsOn options) x y → rank y < rank x) as Htc.
  { induction 1 as [x y Hxy | x y z Hxy _ IH]; [by apply Hrank|].
    apply Hrank in Hxy. lia. }
  apply Htc in Hcycle. lia.
Qed.

Lemma scenario_Closed : Closed scenario.
Proof. by apply closedb_Closed. Qed.

Lemma scenario_Acyclic : Acyclic scenario.
Proof.
  apply (ranked_Acyclic _ (λ id, if bool_decide (id = "B") then 1 else 0)).
  intros a b (o & deps & Ho & Hd & Hb). unfold scenario in Ho. simpl in Ho.
  repeat case_bool_decide; simplify_eq; simpl in *; simplify_eq;
    apply list_elem_of_singleton in Hb; simplify_eq; lia.
Qed.

Lemma twoDropdowns_Closed : Closed twoDropdowns.
Proof. by apply closedb_Closed. Qed.

Lemma cyclicPair_Closed : Closed cyclicPair.
Proof. by apply closedb_Closed. Qed.

Lemma idOrder_dependencies_first_witness :
  Rearranges V8.sort ∧ Closed scenario ∧ Acyclic scenario ∧
  ∃ orderedIds,
    idOrder V8.sort scenario = Normal orderedIds ∧
    ∀ a b, dependsOn scenario a b →
      ∃ i j, indexOf orderedIds b = Some i ∧ indexOf orderedIds a = Some j ∧
             i < j.
Proof.
  split_and!;
    [apply V8_sort_Rearranges | apply scenario_Closed | apply scenario_Acyclic |].
  apply (idOrder_dependencies_first V8.sort scenario);
    [apply V8_sort_Rearranges | apply scenario_Closed | apply scenario_Acyclic].
Defined.

Lemma idOrder_complete_witness :
  Rearranges V8.sort ∧ Closed twoDropdowns ∧
  ∃ orderedIds,
    idOrder V8.sort twoDropdowns = Normal orderedIds ∧
    NoDup orderedIds ∧
    (∀ id, id ∈ orderedIds ↔ id ∈ keys twoDropdowns) ∧
    (NoDup (keys twoDropdowns) → orderedIds ≡ₚ keys twoDropdowns).
Proof.
  split_and!; [apply V8_sort_Rearranges | apply twoDropdowns_Closed |].
  apply (idOrder_complete V8.sort twoDropdowns);
    [apply V8_sort_Rearranges | apply twoDropdowns_Closed].
Defined.

(** The topological pass on a cyclic option set. *)
Lemma topologicalSort_total_witness :
  Closed cyclicPair ∧ (∀ id, id ∈ ["T"; "A"; "A"; "T"] → id ∈ keys cyclicPair) ∧
  ∃ res, topologicalSort cyclicPair ["T"; "A"; "A"; "T"] = Normal res ∧ NoDup res.
Proof.
  assert (∀ id, id ∈ ["T"; "A"; "A"; "T"] → id ∈ keys cyclicPair) as Hin.
  { intros id Hid. unfold keys. simpl. set_solver. }
  split_and!; [apply cyclicPair_Closed | done |].
  apply (topologicalSort_total cyclicPair _ cyclicPair_Closed Hin).
Defined.

Example topologicalSort_cyclicPair :
  dependsOn cyclicPair "T" "A" ∧ dependsOn cyclicPair "A" "T" ∧
  topologicalSort cyclicPair (linkedOptions cyclicPair) = Normal ["A"; "T"].
Proof.
  split_and!; [| |done]; eexists _, _; (split_and!; [done..|]);
    apply list_elem_of_singleton; done.
Qed.

(** *** Grouping the dropdowns *)

Lemma filter_none {A : Type} (P : A → Prop) `{!∀ x, Decision (P x)} (l : list A) :
  (∀ x, x ∈ l → ¬ P x) → filter P l = [].
Proof.
  induction l as [|x l IH]; intros Hl; [done|].
  rewrite filter_cons_False by (apply Hl; left). apply IH.
  intros y Hy. apply Hl. by right.
Qed.

Lemma movedToFront_filter (p : string → bool) l :
  filter (λ x, p x) (movedToFront p l) = reverse (filter (λ x, p x) l).
Proof.
  unfold movedToFront. rewrite filter_app, filter_reverse.
  rewrite list_filter_filter_l by done.
  rewrite (filter_none _ (filter _ l)), app_nil_r; [done|].
  by intros x [? _]%list_elem_of_filter.
Qed.

Lemma movedToFront_filter_not (p : string → bool) l :
  filter (λ x, ¬ p x) (movedToFront p l) = filter (λ x, ¬ p x) l.
Proof.
  unfold movedToFront. rewrite filter_app, filter_reverse.
  rewrite (list_filter_filter_l _ (λ x, ¬ p x)) by done.
  rewrite (filter_none _ (filter _ l)); [done|].
  intros x [? _]%list_elem_of_filter. tauto.
Qed.

Lemma movedToFront_order (p : string → bool) l i j a b :
  movedToFront p l !! i = Some a → movedToFront p l !! j = Some b →
  p a → ¬ p b → i < j.
Proof.
  unfold movedToFront. intros Hi Hj Ha Hb.
  apply lookup_app_Some in Hi as [Hi | [_ Hi]].
  - apply lookup_app_Some in Hj as [Hj | [Hj _]].
    + apply list_elem_of_lookup_2, elem_of_reverse, list_elem_of_filter in Hj.
      by destruct Hj.
    + apply lookup_lt_Some in Hi. lia.
  - apply list_elem_of_lookup_2, list_elem_of_filter in Hi. by destruct Hi.
Qed.

Lemma V8_groupDropdowns_movedToFront options linked :
  (∀ id, id ∈ linked → id ∈ keys options) →
  groupDropdowns V8.sort options linked
  = Normal (movedToFront (isOfType options "DROPDOWN") linked).
Proof.
  intros Hlinked. unfold groupDropdowns. apply sort_grouping.
  intros a b Ha. by apply typeFirst_Normal, Hlinked.
Qed.

(** C2, as amended.  On V8, for a collection of fewer than 64 linked ids
    that all name options, the grouping step puts every DROPDOWN id before
    every other id and keeps the order of the other ids, but the DROPDOWN
    ids come out in the reverse of the order they had. *)
Theorem groupDropdowns_V8 options linked :
  (∀ id, id ∈ linked → id ∈ keys options) →
  length linked < 64 →
  ∃ after,
    groupDropdowns V8.sort options linked = Normal after ∧
    (∀ i j a b, after !! i = Some a → after !! j = Some b →
       isOfType options "DROPDOWN" a → ¬ isOfType options "DROPDOWN" b →
       i < j) ∧
    filter (λ id, isOfType options "DROPDOWN" id) after
    = reverse (filter (λ id, isOfType options "DROPDOWN" id) linked) ∧
    filter (λ id, ¬ isOfType options "DROPDOWN" id) after
    = filter (λ id, ¬ isOfType options "DROPDOWN" id) linked.
Proof.
  intros Hlinked _. eexists. split; [by apply V8_groupDropdowns_movedToFront|].
  split_and!.
  - intros i j a b. apply movedToFront_order.
  - apply movedToFront_filter.
  - apply movedToFront_filter_not.
Qed.

Lemma groupDropdowns_V8_witness :
  (∀ id, id ∈ linkedOptions twoDropdowns → id ∈ keys twoDropdowns) ∧
  length (linkedOptions twoDropdowns) < 64 ∧
  ∃ after,
    groupDropdowns V8.sort twoDropdowns (linkedOptions twoDropdowns)
    = Normal after ∧
    (∀ i j a b, after !! i = Some a → after !! j = Some b →
       isOfType twoDropdowns "DROPDOWN" a →
       ¬ isOfType twoDropdowns "DROPDOWN" b → i < j) ∧
    filter (λ id, isOfType twoDropdowns "DROPDOWN" id) after
    = reverse (filter (λ id, isOfType twoDropdowns "DROPDOWN" id)
                      (linkedOptions twoDropdowns)) ∧
    filter (λ id, ¬ isOfType twoDropdowns "DROPDOWN" id) after
    = filter (λ id, ¬ isOfType twoDropdowns "DROPDOWN" id)
             (linkedOptions twoDropdowns).
Proof.
  assert (∀ id, id ∈ linkedOptions twoDropdowns → id ∈ keys twoDropdowns) as Hin.
  { intros id. apply linkedOptions_keys, twoDropdowns_Closed. }
  assert (length (linkedOptions twoDropdowns) < 64) as Hlen by (simpl; lia).
  split_and!; [done.. |].
  apply (groupDropdowns_V8 twoDropdowns (linkedOptions twoDropdowns) Hin Hlen).
Defined.

(** C2, as stated, fails: the linked ids of [twoDropdowns] are
    [A, d1, d2]; V8 finds the descending run [A, d1, d2] and reverses it,
    so the two dropdowns change places. *)
Lemma groupDropdowns_not_stable :
  linkedOptions twoDropdowns = ["A"; "d1"; "d2"] ∧
  groupDropdowns V8.sort twoDropdowns (linkedOptions twoDropdowns)
  = Normal ["d2"; "d1"; "A"] ∧
  ¬ StablePartition (λ id, isOfType twoDropdowns "DROPDOWN" id)
      (linkedOptions twoDropdowns) ["d2"; "d1"; "A"].
Proof.
  split_and!; [done..|]. intros (_ & Hdropdowns & _).
  vm_compute in Hdropdowns. discriminate.
Qed.

(** ** The collection loop *)

Lemma isCheckbox_hasType options id :
  isCheckbox options id = true ↔ hasType options "CHECKBOX" id.
Proof.
  unfold isCheckbox, hasType. destruct (get options id) as [o|].
  - rewrite bool_decide_eq_true. naive_solver.
  - naive_solver.
Qed.

Lemma assign_lookup k v σ k' :
  userOptionValues (assign k v σ) !! k'
  = if decide (k' = k ∧ k ≠ "__proto__") then Some v
    else userOptionValues σ !! k'.
Proof.
  unfold assign. simpl. case_bool_decide as Hproto.
  - rewrite decide_False; [done | tauto].
  - destruct (decide (k' = k)) as [->|Hne].
    + by rewrite lookup_insert_eq, decide_True.
    + rewrite lookup_insert_ne by done. rewrite decide_False; [done | tauto].
Qed.

#[local] Opaque assign.

Lemma checkboxCluster_spec options id rest σ cluster rest' σ' :
  checkboxCluster options id rest σ = Breaks cluster rest' σ' →
  id :: rest = cluster ++ rest' ∧
  (∃ more, cluster = id :: more ∧ ∀ x, x ∈ more → isCheckbox options x = true) ∧
  (∀ next r, rest' = next :: r → isCheckbox options next = false) ∧
  σ' = foldl (λ σ x, assign x (Some (VBool false)) σ) σ cluster.
Proof.
  revert id σ cluster rest' σ'.
  induction rest as [|next rest IH]; intros id σ cluster rest' σ'; simpl.
  - destruct (isCheckbox options "undefined"); [done|].
    intros [= <- <- <-]. split_and!; [done | | done | done].
    exists []. split; [done|]. by intros x ?%elem_of_nil.
  - destruct (isCheckbox options next) eqn:Hnext.
    + destruct (checkboxCluster options next rest _) as [c r s|s] eqn:Hrec; [|done].
      intros [= <- <- <-].
      apply IH in Hrec as (Heq & (more & -> & Hmore) & Hmax & ->).
      split_and!; [by rewrite Heq | | done | done].
      exists (next :: more). split; [done|].
      intros x [-> | Hx]%elem_of_cons; auto.
    + intros [= <- <- <-]. split_and!; [done | | | done].
      * exists []. split; [done|]. by intros x ?%elem_of_nil.
      * by intros ? ? [= <- <-].
Qed.

(** The loop ends exactly when it meets an id that is no checkbox, or
    when it has passed the end of [idOrder] and no checkbox is called
    [undefined]. *)
Lemma checkboxCluster_Loops options id rest σ :
  (∃ σ', checkboxCluster options id rest σ = Loops σ') ↔
  isCheckbox options "undefined" = true ∧
  ∀ x, x ∈ rest → isCheckbox options x = true.
Proof.
  revert id σ. induction rest as [|next rest IH]; intros id σ; simpl.
  - destruct (isCheckbox options "undefined").
    + split; [intros _; split; [done | by intros x ?%elem_of_nil] | eauto].
    + split; [by intros [? ?] | by intros [? _]].
  - destruct (isCheckbox options next) eqn:Hnext.
    + specialize (IH next (assign id (Some (VBool false)) σ)).
      destruct (checkboxCluster options next rest _) as [c r s|s].
      * split; [by intros [? ?]|]. intros [Hu Hall].
        destruct (proj2 IH) as [? ?]; [|done]. split; [done|].
        intros x Hx. apply Hall. by right.
      * split; [|eauto]. intros _. destruct (proj1 IH) as [Hu Hall]; [eauto|].
        split; [done|]. intros x [-> | Hx]%elem_of_cons; auto.
    + split; [by intros [? ?]|]. intros [_ Hall].
      rewrite Hall in Hnext; [done | by left].
Qed.

Lemma checkboxCluster_Breaks options id rest σ :
  isCheckbox options "undefined" = false →
  ∃ cluster rest' σ', checkboxCluster options id rest σ = Breaks cluster rest' σ'.
Proof.
  intros Hu. destruct (checkboxCluster options id rest σ) as [c r s|s] eqn:Hc; [eauto|].
  destruct (proj1 (checkboxCluster_Loops options id rest σ)) as [Hu' _]; [eauto|].
  congruence.
Qed.

(** The store of a loop that never ends. *)
Lemma checkboxCluster_Loops_store options id rest σ σ' :
  checkboxCluster options id rest σ = Loops σ' →
  σ' = assign "undefined" (Some (VBool false))
         (foldl (λ σ x, assign x (Some (VBool false)) σ) σ (id :: rest)).
Proof.
  revert id σ. induction rest as [|next rest IH]; intros id σ; simpl.
  - destruct (isCheckbox options "undefined"); [|done]. by intros [= <-].
  - destruct (isCheckbox options next); [|done].
    destruct (checkboxCluster options next rest _) as [c r s|s] eqn:Hrec; [done|].
    intros [= <-]. by apply IH in Hrec.
Qed.

(** The cluster and the cursor do not depend on the values. *)
Lemma checkboxCluster_store options id rest σ1 σ2 cluster rest' σ1' :
  checkboxCluster options id rest σ1 = Breaks cluster rest' σ1' →
  ∃ σ2', checkboxCluster options id rest σ2 = Breaks cluster rest' σ2'.
Proof.
  revert id σ1 σ2 cluster. induction rest as [|next rest IH];
    intros id σ1 σ2 cluster; simpl.
  - destruct (isCheckbox options "undefined"); [done|]. intros [= <- <- <-]. eauto.
  - destruct (isCheckbox options next); [|intros [= <- <- <-]; eauto].
    destruct (checkboxCluster options next rest (assign id _ σ1))
      as [c1 r1 s1|s1] eqn:H1; [|done].
    intros [= <- <- <-].
    destruct (IH _ _ (assign id (Some (VBool false)) σ2) _ H1) as [s2 ->]. eauto.
Qed.

Lemma Touches_refl ids σ : Touches ids σ σ.
Proof.
  split; [|done]. exists []. rewrite app_nil_r. split; [done|].
  by intros k ?%elem_of_nil.
Qed.

Lemma Touches_trans ids ids' σ1 σ2 σ3 :
  (∀ k, k ∈ ids' → k ∈ ids) →
  Touches ids σ1 σ2 → Touches ids' σ2 σ3 → Touches ids σ1 σ3.
Proof.
  intros Hsub [(n1 & Ha1 & Hn1) Hv1] [(n2 & Ha2 & Hn2) Hv2]. split.
  - exists (n1 ++ n2). rewrite Ha2, Ha1, (assoc_L (++)). split; [done|].
    intros k. rewrite fmap_app, elem_of_app. intros [?|?]; auto.
  - intros k Hk. rewrite Hv2, Hv1; [done..|]. intros ?. apply Hk. auto.
Qed.

Lemma Touches_mono ids ids' σ σ' :
  (∀ k, k ∈ ids → k ∈ ids') → Touches ids σ σ' → Touches ids' σ σ'.
Proof.
  intros Hsub [(new & Ha & Hn) Hv]. split.
  - exists new. split; [done|]. auto.
  - intros k Hk. apply Hv. intros ?. apply Hk. auto.
Qed.

Lemma Touches_assign ids k v σ : k ∈ ids → Touches ids σ (assign k v σ).
Proof.
  intros Hk. split.
  - exists [(k, v)]. split; [done|]. by intros k' ->%list_elem_of_singleton.
  - intros k' Hk'. rewrite assign_lookup, decide_False; [done|].
    intros [-> _]. done.
Qed.

Lemma Touches_foldl ids v l σ :
  (∀ k, k ∈ l → k ∈ ids) →
  Touches ids σ (foldl (λ σ x, assign x v σ) σ l).
Proof.
  revert σ. induction l as [|x l IH]; intros σ Hl; simpl; [apply Touches_refl|].
  eapply (Touches_trans ids ids); [done | apply Touches_assign, Hl; left |].
  apply IH. intros k Hk. apply Hl. by right.
Qed.

Lemma foldl_assign_lookup v l σ k :
  userOptionValues (foldl (λ σ x, assign x v σ) σ l) !! k
  = if decide (k ∈ l ∧ k ≠ "__proto__") then Some v
    else userOptionValues σ !! k.
Proof.
  revert σ. induction l as [|x l IH]; intros σ; cbn [foldl].
  { rewrite decide_False; [done|]. by intros [?%elem_of_nil _]. }
  rewrite IH, assign_lookup.
  destruct (decide (k ∈ l ∧ k ≠ "__proto__")) as [[Hk Hp]|Hk].
  - rewrite decide_True; [done|]. split; [by right | done].
  - destruct (decide (k = x ∧ x ≠ "__proto__")) as [[-> Hp]|Hx].
    + rewrite decide_True; [done|]. split; [by left | done].
    + rewrite decide_False; [done|]. intros [[-> | ?]%elem_of_cons ?]; tauto.
Qed.

Lemma getVisibleOptions_Normal options values selectedItems cluster :
  (∀ x, x ∈ cluster → is_Some (get options x)) →
  ∃ visible,
    getVisibleOptions options values selectedItems cluster = Normal visible.
Proof.
  unfold getVisibleOptions.
  induction cluster as [|x cluster IH]; intros Hc; cbn [filterC]; [eauto|].
  destruct (Hc x) as [o Ho]; [by left|].
  destruct IH as [visible ->]; [intros; apply Hc; by right|].
  unfold isVisible. rewrite (dependenciesOf_get _ _ _ Ho). simpl.
  destruct (dependencies o); simpl; eauto.
Qed.

Lemma checkboxCluster_options options id rest σ cluster rest' σ' o :
  checkboxCluster options id rest σ = Breaks cluster rest' σ' →
  get options id = Some o → type o = "CHECKBOX" →
  ∀ x, x ∈ cluster → hasType options "CHECKBOX" x.
Proof.
  intros (_ & (more & -> & Hmore) & _)%checkboxCluster_spec Ho Hty x.
  intros [-> | Hx]%elem_of_cons; [by exists o|].
  by apply isCheckbox_hasType, Hmore.
Qed.

Lemma checkboxCluster_visible options id rest σ cluster rest' σ' o values :
  checkboxCluster options id rest σ = Breaks cluster rest' σ' →
  get options id = Some o → type o = "CHECKBOX" →
  ∃ visible, getVisibleOptions options values [] cluster = Normal visible.
Proof.
  intros Hc Ho Hcb. apply getVisibleOptions_Normal. intros x Hx.
  destruct (checkboxCluster_options _ _ _ _ _ _ _ _ Hc Ho Hcb x Hx) as (? & -> & _).
  done.
Qed.

(** What an iteration that goes on to the next one has done: it presented
    one unit, moved the cursor past it, assigned to the ids of that unit
    only, and left each of them, unless it is [__proto__], with a value of
    its type. *)
Lemma step_Advance options user id rest σ st' :
  step options user id rest σ = Normal (Advance st') →
  ∃ unit,
    nextUnit options id rest = Normal (unit, pending st') ∧
    id :: rest = unitIds unit ++ pending st' ∧
    Touches (unitIds unit) σ (store st') ∧
    (∀ k, k ∈ unitIds unit → k ≠ "__proto__" →
          WellTyped options (userOptionValues (store st')) k) ∧
    (∀ k, k ∈ unitIds unit → Passable options k).
Proof.
  unfold step, nextUnit. destruct (property options id) as [o| |] eqn:Hprop; [|done..].
  apply property_Own in Hprop as Ho.
  case_bool_decide as Hcb; [|case_bool_decide as Hdd; [|case_bool_decide as Htx]].
  - destruct (checkboxCluster options id rest σ) as [cluster rest' σ1|σ1] eqn:Hc;
      [|done].
    destruct (checkboxCluster_store _ _ _ _ emptyStore _ _ _ Hc) as [s0 ->].
    intros (visible & _ & Hpick)%bind_Normal.
    destruct (checkboxPick user cluster) as [ticked|]; [|done].
    injection Hpick as <-. simpl. exists (Cluster cluster).
    pose proof (checkboxCluster_options _ _ _ _ _ _ _ _ Hc Ho Hcb) as Htypes.
    apply checkboxCluster_spec in Hc as (Heq & _ & _ & ->).
    split_and!; [done.. | | |].
    + eapply (Touches_trans _ cluster); [done | by apply Touches_foldl |].
      apply Touches_foldl. by intros k [_ ?]%list_elem_of_filter.
    + intros k Hk Hproto. destruct (Htypes k Hk) as (ok & Hok & Hty).
      exists ok. split; [done|].
      split_and!; [intros _ | by rewrite Hty | by rewrite Hty].
      rewrite !foldl_assign_lookup. rewrite (decide_True (P := k ∈ cluster ∧ _)) by done.
      case_decide; eauto.
    + intros k Hk. destruct (Htypes k Hk) as (ok & Hok & Hty).
      exists ok. rewrite Hty. split_and!; [done | set_solver | done].
  - destruct (quickPick user id ≫= _) as [label|] eqn:Hpick; [|done].
    intros [= <-]. simpl. exists (Singleton id).
    apply bind_Some in Hpick as (index & _ & Hlabel%list_elem_of_lookup_2).
    split_and!; [done.. | | |].
    + eapply (Touches_trans _ [id]); [done | |];
        apply Touches_assign, list_elem_of_singleton; done.
    + intros k ->%list_elem_of_singleton Hproto. exists o. split; [done|].
      split_and!; [done | by rewrite Hdd | intros _].
      exists label. split; [done|]. by rewrite assign_lookup, decide_True.
    + intros k ->%list_elem_of_singleton. exists o. rewrite Hdd.
      split_and!; [done | set_solver |]. intros _ Hnil. rewrite Hnil in Hlabel.
      by apply elem_of_nil in Hlabel.
  - destruct (inputBox user id) as [s|] eqn:Hinput; simpl; [|done].
    case_bool_decide; [done|]. intros [= <-]. simpl.
    exists (Singleton id).
    split_and!; [done.. | | |].
    + eapply (Touches_trans _ [id]); [done | |];
        apply Touches_assign, list_elem_of_singleton; done.
    + intros k ->%list_elem_of_singleton Hproto. exists o. split; [done|].
      split_and!; [done | intros _ | by rewrite Htx].
      exists s. by rewrite assign_lookup, decide_True.
    + intros k ->%list_elem_of_singleton. exists o. rewrite Htx.
      split_and!; [done | set_solver | done].
  - done.
Qed.

Lemma stepsTo_pending options user st st' :
  stepsTo options user st st' →
  ∃ unit, pending st = unitIds unit ++ pending st' ∧ unitIds unit ≠ [] ∧
          Touches (unitIds unit) (store st) (store st') ∧
          (∀ k, k ∈ unitIds unit → k ≠ "__proto__" →
                WellTyped options (userOptionValues (store st')) k) ∧
          (∀ k, k ∈ unitIds unit → Passable options k).
Proof.
  intros (id & rest & Hp & Hstep).
  apply step_Advance in Hstep as (unit & Hunit & Heq & Ht & Hw & Hpass).
  exists unit. rewrite Hp. split_and!; [done | | done..].
  intros Hnil. unfold nextUnit in Hunit.
  destruct (property options id) as [o| |]; [|done..].
  repeat case_match; simplify_eq; simpl in *; try done.
  match goal with H : checkboxCluster _ _ _ _ = _ |- _ =>
    apply checkboxCluster_spec in H as (_ & (? & ? & _) & _) end.
  simplify_eq.
Qed.

Lemma stepsTo_shorter options user st st' :
  stepsTo options user st st' → length (pending st') < length (pending st).
Proof.
  intros (unit & -> & Hne & _)%stepsTo_pending. rewrite length_app.
  destruct (unitIds unit); [done | simpl; lia].
Qed.

Lemma collect_unfold options user fuel st optionId rest :
  pending st = optionId :: rest →
  collect options user (S fuel) st
  = r ← step options user optionId rest (store st);
    match r with
    | Cancelled => Normal None
    | Advance st' => collect options user fuel st'
    end.
Proof. intros Hp. simpl. by rewrite Hp. Qed.

(** The loop needs as many iterations as there are pending ids, at most. *)
Lemma collect_fuel options user fuel1 fuel2 st :
  length (pending st) ≤ fuel1 → length (pending st) ≤ fuel2 →
  collect options user fuel1 st = collect options user fuel2 st.
Proof.
  revert fuel2 st. induction fuel1 as [|fuel1 IH]; intros fuel2 st H1 H2.
  - destruct (pending st) eqn:Hp; [|simpl in H1; lia].
    destruct fuel2; simpl; by rewrite Hp.
  - destruct (pending st) as [|id rest] eqn:Hp.
    { destruct fuel2; simpl; by rewrite Hp. }
    destruct fuel2 as [|fuel2]; [simpl in H2; lia|].
    rewrite !(collect_unfold _ _ _ _ _ _ Hp).
    destruct (step options user id rest (store st)) as [[st'|]| | |] eqn:Hstep;
      simpl; try done.
    assert (stepsTo options user st st') as Hlt%stepsTo_shorter by (by exists id, rest).
    rewrite Hp in Hlt. simpl in *. apply IH; lia.
Qed.

Lemma collect_stepsTo options user st st' :
  rtc (stepsTo options user) st st' →
  collect options user (length (pending st)) st
  = collect options user (length (pending st')) st'.
Proof.
  induction 1 as [|st st1 st' Hstep _ IH]; [done|]. rewrite <- IH.
  pose proof (stepsTo_shorter _ _ _ _ Hstep) as Hlt.
  destruct Hstep as (id & rest & Hp & Hstep).
  destruct (length (pending st)) as [|fuel] eqn:Hlen; [lia|].
  rewrite (collect_unfold _ _ _ _ _ _ Hp), Hstep. simpl.
  apply collect_fuel; lia.
Qed.

(** The model of the loop is given iterations enough. *)
Lemma filterC_total {A : Type} (p : A → Completion bool) arr :
  (∀ x, p x ≠ OutOfFuel) → filterC p arr ≠ OutOfFuel.
Proof.
  intros Hp. induction arr as [|x arr IH]; [done|]. cbn [filterC].
  specialize (Hp x). destruct (p x); [|done..].
  destruct (filterC p arr); done.
Qed.

Lemma isVisible_total options values selectedItems x :
  isVisible options values selectedItems x ≠ OutOfFuel.
Proof.
  unfold isVisible, dependenciesOf.
  destruct (property options x) as [o| |]; simpl; [|done..].
  by destruct (dependencies o).
Qed.

Lemma step_total options user id rest σ :
  step options user id rest σ ≠ OutOfFuel.
Proof.
  unfold step. destruct (property options id) as [o| |]; [|done..].
  case_bool_decide; [|repeat case_match; done].
  destruct (checkboxCluster options id rest σ) as [cluster rest' σ'|σ']; [|done].
  assert (getVisibleOptions options (userOptionValues σ') [] cluster ≠ OutOfFuel)
    as Hv by apply filterC_total, isVisible_total.
  destruct (getVisibleOptions _ _ _ _); simpl; [|done..].
  by destruct (checkboxPick user cluster).
Qed.

Lemma collect_total options user fuel st :
  length (pending st) ≤ fuel → collect options user fuel st ≠ OutOfFuel.
Proof.
  revert st. induction fuel as [|fuel IH]; intros st Hle.
  - destruct (pending st) eqn:Hp; [|simpl in Hle; lia]. simpl. by rewrite Hp.
  - destruct (pending st) as [|id rest] eqn:Hp; [simpl; by rewrite Hp|].
    rewrite (collect_unfold _ _ _ _ _ _ Hp).
    destruct (step options user id rest (store st)) as [[st'|]| | |] eqn:Hstep;
      simpl; try done.
    + apply IH.
      assert (stepsTo options user st st') as Hlt%stepsTo_shorter
        by (by exists id, rest).
      rewrite Hp in Hlt. simpl in *. lia.
    + by apply step_total in Hstep.
Qed.

Lemma collectOptions_total options user ids :
  collectOptions options user ids ≠ OutOfFuel.
Proof. by apply collect_total. Qed.

Lemma WellTyped_lookup options values values' id :
  values' !! id = values !! id →
  WellTyped options values id → WellTyped options values' id.
Proof. intros Heq (o & Ho & H). exists o. by rewrite Heq. Qed.

Lemma collect_WellTyped options user fuel st values :
  collect options user fuel st = Normal (Some values) →
  ∀ id, id ≠ "__proto__" →
    id ∈ pending st ∨ WellTyped options (userOptionValues (store st)) id →
    WellTyped options values id.
Proof.
  revert st. induction fuel as [|fuel IH]; intros st.
  - simpl. destruct (pending st); [|done].
    intros [= <-] id _ [?%elem_of_nil|?]; done.
  - destruct (pending st) as [|x rest] eqn:Hp.
    { simpl. rewrite Hp. intros [= <-] id _ [?%elem_of_nil|?]; done. }
    rewrite (collect_unfold _ _ _ _ _ _ Hp).
    intros ([st'|] & Hstep & Hrun)%bind_Normal; [|done].
    assert (stepsTo options user st st')
      as (unit & Hu & _ & [_ Hsame] & Hw & _)%stepsTo_pending
      by (by exists x, rest).
    intros id Hproto Hid. apply (IH st' Hrun); [done|].
    destruct (decide (id ∈ unitIds unit)) as [Hin|Hnin]; [right; by apply Hw|].
    destruct Hid as [Hid|Hid].
    + left. rewrite Hp in Hu. rewrite Hu in Hid.
      by apply elem_of_app in Hid as [?|?].
    + right. eapply WellTyped_lookup; [by apply Hsame|done].
Qed.

(** Every id a completed run has passed names an option it can pass. *)
Lemma collect_Passable options user fuel st values :
  collect options user fuel st = Normal (Some values) →
  ∀ id, id ∈ pending st → Passable options id.
Proof.
  revert st. induction fuel as [|fuel IH]; intros st.
  - simpl. destruct (pending st); [|done]. by intros _ id ?%elem_of_nil.
  - destruct (pending st) as [|x rest] eqn:Hp.
    { simpl. rewrite Hp. by intros _ id ?%elem_of_nil. }
    rewrite (collect_unfold _ _ _ _ _ _ Hp).
    intros ([st'|] & Hstep & Hrun)%bind_Normal; [|done].
    assert (stepsTo options user st st')
      as (unit & Hu & _ & _ & _ & Hpass)%stepsTo_pending
      by (by exists x, rest).
    intros id Hid. rewrite Hp in Hu. rewrite Hu in Hid.
    apply elem_of_app in Hid as [?|?]; [by apply Hpass | by apply (IH st' Hrun)].
Qed.

(** X20. When the collection loop runs to its end, the value it has
    recorded for every id of [idOrder] other than [__proto__] has the type
    of the option: a boolean for a CHECKBOX, a string for a TEXT, one of
    the declared choices for a DROPDOWN. *)
Theorem collected_values_WellTyped options user idOrder values :
  collectOptions options user idOrder = Normal (Some values) →
  ∀ id, id ∈ idOrder → id ≠ "__proto__" → WellTyped options values id.
Proof.
  intros Hrun id Hid Hproto. eapply collect_WellTyped; [exact Hrun | done |].
  by left.
Qed.

Lemma collected_values_WellTyped_witness :
  collectOptions scenario thorough ["A"; "B"; "C"]
  = Normal (Some (userOptionValues (store completed))) ∧
  ∀ id, id ∈ ["A"; "B"; "C"] → id ≠ "__proto__" →
    WellTyped scenario (userOptionValues (store completed)) id.
Proof.
  assert (collectOptions scenario thorough ["A"; "B"; "C"]
          = Normal (Some (userOptionValues (store completed)))) as Hrun.
  { vm_compute. reflexivity. }
  split; [exact Hrun|].
  apply (collected_values_WellTyped scenario thorough ["A"; "B"; "C"] _ Hrun).
Defined.

(** C10 (the code departs from it).  The node has one option, a CHECKBOX
    whose id is [__proto__].  The user ticks it and confirms: no
    assignment to [userOptionValues] stores anything, the loop ends with
    an empty object, and that is what [createNewJob] is given. *)
Theorem proto_checkbox_unrecorded :
  idOrder V8.sort protoBox = Normal ["__proto__"] ∧
  hasType protoBox "CHECKBOX" "__proto__" ∧
  checkboxPick thorough ["__proto__"] = Some ["__proto__"] ∧
  collectOptions protoBox thorough ["__proto__"] = Normal (Some ∅) ∧
  (∅ : LuraphOptionList) !! "__proto__" = None ∧
  ¬ WellTyped protoBox ∅ "__proto__" ∧
  obfuscate V8.sort protoBox thorough = Normal (Some ∅).
Proof.
  split_and!; try (vm_compute; reflexivity).
  - by eexists.
  - intros (o & [= <-] & Hcb & _). destruct (Hcb eq_refl) as [b Hb].
    by rewrite lookup_empty in Hb.
Qed.

(** ** Values once confirmed *)

Lemma stepsTo_Touches options user st st' :
  rtc (stepsTo options user) st st' →
  Touches (pending st) (store st) (store st') ∧
  ∃ consumed, pending st = consumed ++ pending st'.
Proof.
  induction 1 as [st|st st1 st' Hstep _ [IHt [consumed IHc]]].
  - split; [apply Touches_refl | by exists []].
  - apply stepsTo_pending in Hstep as (unit & Hu & _ & Ht & _). split.
    + eapply (Touches_trans _ (pending st1)); [|
        eapply (Touches_mono (unitIds unit)); [|exact Ht] |done].
      * intros k Hk. rewrite Hu. apply elem_of_app. by right.
      * intros k Hk. rewrite Hu. apply elem_of_app. by left.
    + exists (unitIds unit ++ consumed). by rewrite Hu, IHc, (assoc_L (++)).
Qed.

Lemma idOrder_NoDup sort options ids :
  idOrder sort options = Normal ids → NoDup ids.
Proof.
  unfold idOrder.
  intros (? & _ & (? & _ & (? & _ & [= <-])%bind_Normal)%bind_Normal)%bind_Normal.
  apply removeDupes_NoDup.
Qed.

(** X21. In a run over [idOrder], the iterations that end with an accepted
    prompt assign to the ids of their own unit only: once the loop has
    moved past a unit, no such iteration assigns to an id of that unit, and
    the values recorded for the accepted ids stay what they are. *)
Theorem confirmed_values_final sort options user ids st st' :
  idOrder sort options = Normal ids →
  rtc (stepsTo options user) (initialState ids) st →
  rtc (stepsTo options user) st st' →
  ∃ accepted later,
    ids = accepted ++ pending st ∧
    assignments (store st') = assignments (store st) ++ later ∧
    ∀ id, id ∈ accepted →
      (id ∉ later.*1) ∧
      userOptionValues (store st') !! id = userOptionValues (store st) !! id.
Proof.
  intros Hnd%idOrder_NoDup [_ [accepted Hacc]]%stepsTo_Touches
    [[(later & Hlater & Hkeys) Hsame] _]%stepsTo_Touches.
  simpl in Hacc. exists accepted, later. split_and!; [done..|].
  intros id Hid. rewrite Hacc in Hnd.
  apply NoDup_app in Hnd as (_ & Hdisj & _). specialize (Hdisj id Hid).
  split; [by intros ?%Hkeys | by apply Hsame].
Qed.

Lemma confirmed_values_final_witness :
  idOrder V8.sort scenario = Normal ["A"; "B"; "C"] ∧
  rtc (stepsTo scenario thorough) (initialState ["A"; "B"; "C"]) onlyATicked ∧
  rtc (stepsTo scenario thorough) onlyATicked completed ∧
  ∃ accepted later,
    ["A"; "B"; "C"] = accepted ++ pending onlyATicked ∧
    assignments (store completed)
    = assignments (store onlyATicked) ++ later ∧
    ∀ id, id ∈ accepted →
      (id ∉ later.*1) ∧
      userOptionValues (store completed) !! id
      = userOptionValues (store onlyATicked) !! id.
Proof.
  assert (idOrder V8.sort scenario = Normal ["A"; "B"; "C"]) as Hids
    by (vm_compute; reflexivity).
  assert (rtc (stepsTo scenario thorough) (initialState ["A"; "B"; "C"])
            onlyATicked) as Hreach.
  { apply rtc_once. exists "A", ["B"; "C"]. split; [done|].
    vm_compute. reflexivity. }
  assert (rtc (stepsTo scenario thorough) onlyATicked completed) as Hlater.
  { apply rtc_once. exists "C", []. split; [done|]. vm_compute. reflexivity. }
  split_and!; [done..|].
  apply (confirmed_values_final V8.sort scenario thorough _ _ _ Hids Hreach Hlater).
Defined.

(** C9 (the code departs from it).  In [undefinedFirst] the order is
    [undefined], [D], [B].  The user ticks the checkbox [undefined] and
    picks a choice for [D]; the value [true] of [undefined] is confirmed.
    The cluster of [B] is the last: its loop reads past the end of
    [idOrder], finds the checkbox [undefined] again, and assigns [false]
    to it; the loop never ends. *)
Theorem confirmed_value_overwritten :
  idOrder V8.sort undefinedFirst = Normal ["undefined"; "D"; "B"] ∧
  rtc (stepsTo undefinedFirst thorough)
    (initialState ["undefined"; "D"; "B"]) beforeB ∧
  userOptionValues (store beforeB) !! "undefined" = Some (Some (VBool true)) ∧
  (∃ σ,
     checkboxCluster undefinedFirst "B" [] (store beforeB) = Loops σ ∧
     assignments σ
     = assignments (store beforeB)
       ++ [("B", Some (VBool false)); ("undefined", Some (VBool false))] ∧
     userOptionValues σ !! "undefined" = Some (Some (VBool false))) ∧
  collectOptions undefinedFirst thorough ["undefined"; "D"; "B"] = Diverges.
Proof.
  split_and!; try (vm_compute; reflexivity).
  - eapply rtc_l; [|apply rtc_once].
    + exists "undefined", ["D"; "B"]. split; [done|]. vm_compute. reflexivity.
    + exists "D", ["B"]. split; [done|]. vm_compute. reflexivity.
  - eexists. split_and!; vm_compute; reflexivity.
Qed.

(** ** Dismissed prompts *)

Lemma step_dismissed options user st :
  dismissed options user st →
  ∃ optionId rest,
    pending st = optionId :: rest ∧
    step options user optionId rest (store st) = Normal Cancelled.
Proof.
  unfold dismissed. destruct (pending st) as [|id rest] eqn:Hp; [done|].
  destruct (get options id) as [o|] eqn:Ho; [|done]. intros Hdis.
  exists id, rest. split; [done|]. unfold step. rewrite (property_get _ _ _ Ho).
  case_bool_decide as Hcb; [|case_bool_decide; [|case_bool_decide; [|done]]].
  - destruct (checkboxCluster options id rest (store st))
      as [cluster rest' σ|σ] eqn:Hc; [|done].
    destruct (checkboxCluster_visible _ _ _ _ _ _ _ _ (userOptionValues σ) Hc Ho Hcb)
      as [visible ->].
    simpl. by rewrite Hdis.
  - by rewrite Hdis.
  - by rewrite Hdis.
Qed.

Lemma collect_dismissed options user st :
  dismissed options user st →
  collect options user (length (pending st)) st = Normal None.
Proof.
  intros (id & rest & Hp & Hstep)%step_dismissed. rewrite Hp. simpl length.
  by rewrite (collect_unfold _ _ _ _ _ _ Hp), Hstep.
Qed.

(** C6. If, anywhere in a run, the prompt of a unit is dismissed without
    a value, the command returns in that iteration: the loop yields no
    option list and [createNewJob] is not called. *)
Theorem dismissed_ends_run sort options user ids st :
  idOrder sort options = Normal ids →
  rtc (stepsTo options user) (initialState ids) st →
  dismissed options user st →
  (∃ optionId rest,
     pending st = optionId :: rest ∧
     step options user optionId rest (store st) = Normal Cancelled) ∧
  collectOptions options user ids = Normal None ∧
  obfuscate sort options user = Normal None.
Proof.
  intros Hids Hreach Hdis.
  assert (collectOptions options user ids = Normal None) as Hrun.
  { unfold collectOptions.
    change (length ids) with (length (pending (initialState ids))).
    rewrite (collect_stepsTo _ _ _ _ Hreach). by apply collect_dismissed. }
  split_and!; [by apply step_dismissed | done |].
  unfold obfuscate. rewrite Hids. simpl. by rewrite Hrun.
Qed.

Lemma dismissed_ends_run_witness :
  idOrder V8.sort scenario = Normal ["A"; "B"; "C"] ∧
  rtc (stepsTo scenario hesitant) (initialState ["A"; "B"; "C"]) onlyATicked ∧
  dismissed scenario hesitant onlyATicked ∧
  (∃ optionId rest,
     pending onlyATicked = optionId :: rest ∧
     step scenario hesitant optionId rest (store onlyATicked) = Normal Cancelled) ∧
  collectOptions scenario hesitant ["A"; "B"; "C"] = Normal None ∧
  obfuscate V8.sort scenario hesitant = Normal None.
Proof.
  assert (idOrder V8.sort scenario = Normal ["A"; "B"; "C"]) as Hids
    by (vm_compute; reflexivity).
  assert (rtc (stepsTo scenario hesitant) (initialState ["A"; "B"; "C"])
            onlyATicked) as Hreach.
  { apply rtc_once. exists "A", ["B"; "C"]. split; [done|].
    vm_compute. reflexivity. }
  assert (dismissed scenario hesitant onlyATicked) as Hdis
    by (vm_compute; reflexivity).
  split_and!; [done..| | |];
    apply (dismissed_ends_run V8.sort scenario hesitant _ _ Hids Hreach Hdis).
Defined.

(** ** Presentation units *)

Lemma nextUnit_Normal options id rest unit rest' :
  nextUnit options id rest = Normal (unit, rest') →
  id :: rest = unitIds unit ++ rest' ∧ length rest' ≤ length rest.
Proof.
  unfold nextUnit. destruct (property options id) as [o| |]; [|done..].
  case_bool_decide.
  - destruct (checkboxCluster options id rest emptyStore) as [c r s|s] eqn:Hc;
      [|done].
    intros [= <- <-].
    apply checkboxCluster_spec in Hc as (Heq & (more & -> & _) & _).
    split; [done|]. apply (f_equal length) in Heq.
    rewrite length_app in Heq. simpl in *. lia.
  - destruct (_ || _); [|done]. by intros [= <- <-].
Qed.

Lemma nextUnit_spec options id rest :
  isCheckbox options "undefined" = false →
  (∃ o, get options id = Some o ∧ type o ∈ ["CHECKBOX"; "DROPDOWN"; "TEXT"]) →
  ∃ unit rest',
    nextUnit options id rest = Normal (unit, rest') ∧
    id :: rest = unitIds unit ++ rest' ∧
    unitIds unit ≠ [] ∧
    UnitOk options unit ∧
    (isCluster unit ↔ isCheckbox options id = true) ∧
    (isCluster unit → ∀ next r, rest' = next :: r → isCheckbox options next = false).
Proof.
  intros Hu (o & Ho & Hty). unfold nextUnit, isCheckbox.
  rewrite (property_get _ _ _ Ho), Ho.
  case_bool_decide as Hcb.
  - destruct (checkboxCluster_Breaks options id rest emptyStore Hu)
      as (cluster & rest' & σ & Hc). rewrite Hc.
    pose proof (checkboxCluster_options _ _ _ _ _ _ _ _ Hc Ho Hcb) as Htypes.
    apply checkboxCluster_spec in Hc as (Heq & (more & -> & _) & Hmax & _).
    exists (Cluster (id :: more)), rest'. simpl.
    split_and!; try done; try tauto; auto.
  - exists (Singleton id), rest. simpl.
    assert (¬ hasType options "CHECKBOX" id) as Hno.
    { intros (o' & Ho' & Hty'). by simplify_eq. }
    repeat case_bool_decide; simpl; split_and!; try done; try tauto.
    set_solver.
Qed.

Lemma segmentFrom_partition options fuel ids :
  isCheckbox options "undefined" = false →
  length ids ≤ fuel → ValidIds options ids →
  ∃ units,
    segmentFrom options fuel ids = Normal units ∧
    concat (unitIds <$> units) = ids ∧
    Forall (UnitOk options) units ∧
    NoAdjacentClusters units ∧
    ∀ u us, units = u :: us →
      ∃ id r, ids = id :: r ∧ (isCluster u ↔ isCheckbox options id = true).
Proof.
  intros Hu. revert ids. induction fuel as [|fuel IH]; intros ids Hlen Hvalid.
  { destruct ids; [|simpl in Hlen; lia]. exists []. by split_and!. }
  destruct ids as [|id rest].
  { exists []. by split_and!. }
  destruct (nextUnit_spec options id rest Hu)
    as (unit & rest' & Hunit & Heq & Hne & Hok & Hcl & Hmax); [apply Hvalid; left|].
  destruct (IH rest') as (units & Hunits & Hcat & Hoks & Hadj & Hhead).
  { apply (f_equal length) in Heq. rewrite length_app in Heq. simpl in *.
    destruct (unitIds unit); [done | simpl in *; lia]. }
  { intros x Hx. apply Hvalid. rewrite Heq. apply elem_of_app. by right. }
  exists (unit :: units). cbn [segmentFrom]. rewrite Hunit. cbn. rewrite Hunits. cbn.
  split_and!; [done | by rewrite Hcat | by constructor | |].
  - intros [|i] u1 u2 H1 H2; [|by eapply Hadj].
    injection H1 as <-. destruct units as [|u us]; [done|]. injection H2 as <-.
    destruct (Hhead u us eq_refl) as (next & r & -> & Hu').
    intros [Hc1 Hc2]. apply Hu' in Hc2. by rewrite (Hmax Hc1 next r eq_refl) in Hc2.
  - intros u us [= <- <-]. by exists id, rest.
Qed.

Lemma segmentFrom_more options fuel1 fuel2 ids units :
  segmentFrom options fuel1 ids = Normal units → length ids ≤ fuel2 →
  segmentFrom options fuel2 ids = Normal units.
Proof.
  revert fuel2 ids units. induction fuel1 as [|fuel1 IH]; intros fuel2 ids units.
  { destruct ids; [|done]. intros [= <-] _. by destruct fuel2. }
  destruct ids as [|id rest]; [intros [= <-] _; by destruct fuel2|].
  cbn [segmentFrom].
  intros ([unit rest'] & Hunit & (us & Hus & [= <-])%bind_Normal)%bind_Normal Hlen.
  destruct fuel2 as [|fuel2]; [simpl in Hlen; lia|]. cbn [segmentFrom].
  rewrite Hunit. cbn. apply nextUnit_Normal in Hunit as [_ Hle].
  rewrite (IH fuel2 rest' us Hus); [done | simpl in Hlen; lia].
Qed.

(** An iteration that ends with an accepted prompt takes the first unit
    of the segmentation of what is pending. *)
Lemma stepsTo_segment options user st st' units :
  segment options (pending st) = Normal units →
  stepsTo options user st st' →
  ∃ unit, units = unit :: drop 1 units ∧
          segment options (pending st') = Normal (drop 1 units).
Proof.
  intros Hseg (id & rest & Hp & Hstep).
  apply step_Advance in Hstep as (unit & Hunit & _).
  unfold segment in Hseg. rewrite Hp in Hseg. cbn [length segmentFrom] in Hseg.
  rewrite Hunit in Hseg. cbn in Hseg.
  apply bind_Normal in Hseg as (us & Hus & [= <-]).
  exists unit. split; [done|]. simpl. rewrite drop_0.
  apply (segmentFrom_more _ _ _ _ _ Hus). done.
Qed.

Lemma nsteps_segment options user n st st' units :
  segment options (pending st) = Normal units →
  nsteps (stepsTo options user) n st st' →
  segment options (pending st') = Normal (drop n units).
Proof.
  intros Hseg Hrun. revert units Hseg.
  induction Hrun as [st|n st st1 st' Hstep _ IH]; intros units Hseg.
  - by rewrite drop_0.
  - destruct (stepsTo_segment _ _ _ _ _ Hseg Hstep) as (unit & Hunits & Hseg1).
    rewrite (IH _ Hseg1), drop_drop. by rewrite Nat.add_1_l.
Qed.

Lemma segmentFrom_concat options fuel ids units :
  segmentFrom options fuel ids = Normal units →
  concat (unitIds <$> units) = ids.
Proof.
  revert ids units. induction fuel as [|fuel IH]; intros ids units.
  { destruct ids; [|done]. by intros [= <-]. }
  destruct ids as [|id rest]; [by intros [= <-]|]. cbn [segmentFrom].
  intros ([unit rest'] & Hunit & (us & Hus & [= <-])%bind_Normal)%bind_Normal.
  apply nextUnit_Normal in Hunit as [-> _].
  rewrite fmap_cons, concat_cons. by rewrite (IH _ _ Hus).
Qed.

(** X22. When no CHECKBOX option has the id [undefined], then for a list
    of ids that all name options of one of the three types the units
    partition the list in order: their concatenation is the list, every
    cluster is non-empty and made of CHECKBOX ids, every singleton is an
    id that is not a CHECKBOX, and no two neighbouring units are both
    clusters.  The loop follows these units: after [n] accepted prompts
    the ids still pending are those of the units from the [n]-th on. *)
Theorem segment_partition options idOrder :
  ¬ hasType options "CHECKBOX" "undefined" →
  ValidIds options idOrder →
  ∃ units,
    segment options idOrder = Normal units ∧
    concat (unitIds <$> units) = idOrder ∧
    Forall (UnitOk options) units ∧
    NoAdjacentClusters units ∧
    ∀ user n st,
      nsteps (stepsTo options user) n (initialState idOrder) st →
      pending st = concat (unitIds <$> drop n units).
Proof.
  intros Hu Hvalid.
  assert (isCheckbox options "undefined" = false) as Hu'.
  { apply not_true_is_false. by rewrite isCheckbox_hasType. }
  destruct (segmentFrom_partition options (length idOrder) idOrder)
    as (units & Hseg & ? & ? & ? & _); [done..|].
  exists units. split_and!; [done..|].
  intros user n st Hrun.
  pose proof (nsteps_segment options user n (initialState idOrder) st units Hseg Hrun)
    as Hst.
  symmetry. by eapply segmentFrom_concat.
Qed.

Lemma segment_partition_witness :
  (¬ hasType scenario "CHECKBOX" "undefined") ∧
  ValidIds scenario ["A"; "B"; "C"] ∧
  ∃ units,
    segment scenario ["A"; "B"; "C"] = Normal units ∧
    concat (unitIds <$> units) = ["A"; "B"; "C"] ∧
    Forall (UnitOk scenario) units ∧
    NoAdjacentClusters units ∧
    ∀ user n st,
      nsteps (stepsTo scenario user) n (initialState ["A"; "B"; "C"]) st →
      pending st = concat (unitIds <$> drop n units).
Proof.
  assert (¬ hasType scenario "CHECKBOX" "undefined") as Hu.
  { by intros (o & [=] & _). }
  assert (ValidIds scenario ["A"; "B"; "C"]) as Hvalid.
  { intros id Hid. repeat (apply elem_of_cons in Hid as [-> | Hid]);
      [eexists; split; [reflexivity | simpl; set_solver] .. |].
    by apply elem_of_nil in Hid. }
  split_and!; [done..|]. apply (segment_partition scenario ["A"; "B"; "C"] Hu Hvalid).
Defined.

Example segment_scenario :
  segment scenario ["A"; "B"; "C"] = Normal [Cluster ["A"; "B"]; Singleton "C"].
Proof. reflexivity. Qed.

(** C7 (the code departs from it).  The node has one option, a CHECKBOX
    whose id is the string [undefined].  After it the loop of the cluster
    reads [idOrder[1]], which is [undefined], finds the same option under
    that name and goes on, without end: there is no cluster, no unit and
    no prompt. *)
Theorem cluster_never_closes :
  ValidIds undefinedBox ["undefined"] ∧
  idOrder V8.sort undefinedBox = Normal ["undefined"] ∧
  (∃ σ, checkboxCluster undefinedBox "undefined" [] emptyStore = Loops σ) ∧
  segment undefinedBox ["undefined"] = Diverges ∧
  (∀ user, collectOptions undefinedBox user ["undefined"] = Diverges) ∧
  (∀ user, obfuscate V8.sort undefinedBox user = Diverges).
Proof.
  split_and!; try (vm_compute; reflexivity).
  - intros id ->%list_elem_of_singleton. eexists. split; [reflexivity|].
    simpl. set_solver.
  - by eexists.
Qed.

(** ** The visibility filter *)

Lemma dependenciesHold_false values selectedItems deps depId depVals :
  (depId, depVals) ∈ deps →
  includes depVals (valueOf values depId) = false →
  includes depVals (Some (VBool (bool_decide (depId ∈ selectedItems)))) = false →
  dependenciesHold values selectedItems deps = false.
Proof.
  intros Hin H1 H2. induction deps as [|[d vs] deps IH]; [by apply elem_of_nil in Hin|].
  apply elem_of_cons in Hin as [[= <- <-] | Hin]; cbn [dependenciesHold].
  - by rewrite H1, H2.
  - rewrite IH by done. by destruct (_ && _).
Qed.

Lemma filterC_elem {A : Type} (p : A → Completion bool) arr kept x :
  filterC p arr = Normal kept → x ∈ kept → p x = Normal true.
Proof.
  revert kept. induction arr as [|y arr IH]; intros kept; cbn [filterC].
  { by intros [= <-] ?%elem_of_nil. }
  intros (keep & Hy & (kept' & Hrest & [= <-])%bind_Normal)%bind_Normal.
  destruct keep; [intros [-> | Hx]%elem_of_cons|]; eauto.
Qed.

(** C4, as amended.  When a dependency pair of an option names an id that
    has no entry in [userOptionValues] and is not among the selected items,
    and the acceptable values of that pair do not contain [false], the
    option is not visible and is left out of the items of the cluster. *)
Theorem unreached_dependency_hides options values selectedItems cluster
    id o deps depId depVals :
  get options id = Some o → dependencies o = Some deps →
  (depId, depVals) ∈ deps →
  values !! depId = None → depId ∉ selectedItems →
  VBool false ∉ depVals →
  isVisible options values selectedItems id = Normal false ∧
  ∀ visible,
    getVisibleOptions options values selectedItems cluster = Normal visible →
    id ∉ visible.
Proof.
  intros Ho Hd Hin Hnone Hsel Hfalse.
  assert (isVisible options values selectedItems id = Normal false) as Hvis.
  { unfold isVisible. rewrite (dependenciesOf_get _ _ _ Ho), Hd. simpl. f_equal.
    eapply dependenciesHold_false; [done| |].
    - unfold valueOf. by rewrite Hnone.
    - rewrite bool_decide_eq_false_2 by done. simpl.
      by apply bool_decide_eq_false_2. }
  split; [done|]. intros visible Hrun Hid.
  apply (filterC_elem _ _ _ _ Hrun) in Hid. congruence.
Qed.

Lemma unreached_dependency_hides_witness :
  get scenario "B" = Some (mkOption "CHECKBOX" [] (Some [("A", [VBool true])])) ∧
  dependencies (mkOption "CHECKBOX" [] (Some [("A", [VBool true])]))
  = Some [("A", [VBool true])] ∧
  ("A", [VBool true]) ∈ [("A", [VBool true])] ∧
  (∅ : LuraphOptionList) !! "A" = None ∧ ("A" ∉ ([] : list string)) ∧
  (VBool false ∉ [VBool true]) ∧
  isVisible scenario ∅ [] "B" = Normal false ∧
  ∀ visible,
    getVisibleOptions scenario ∅ [] ["B"] = Normal visible → "B" ∉ visible.
Proof.
  assert (("A", [VBool true]) ∈ [("A", [VBool true])]) as Hin by (by left).
  assert ("A" ∉ ([] : list string)) as Hsel by (by intros ?%elem_of_nil).
  assert (VBool false ∉ [VBool true]) as Hfalse by (by intros ?%list_elem_of_singleton).
  assert ((∅ : LuraphOptionList) !! "A" = None) as Hnone by apply lookup_empty.
  split_and!; [done.. | |];
    apply (unreached_dependency_hides scenario ∅ [] ["B"] "B" _ _ "A" _
             eq_refl eq_refl Hin Hnone Hsel Hfalse).
Defined.

(** C4, as stated, fails.  In [cyclicPair] the checkbox [A] comes first
    and depends on [T] with [false] as acceptable value.  When the cluster
    of [A] is shown, [T] has no entry in [userOptionValues] and is not a
    selected item, yet [A] is visible: an id that is not selected counts as
    [false]. *)
Lemma unreached_dependency_visible :
  idOrder V8.sort cyclicPair = Normal ["A"; "T"] ∧
  checkboxCluster cyclicPair "A" ["T"] emptyStore
  = Breaks ["A"] ["T"] (assign "A" (Some (VBool false)) emptyStore) ∧
  dependsOn cyclicPair "A" "T" ∧
  userOptionValues (assign "A" (Some (VBool false)) emptyStore) !! "T" = None ∧
  ("T" ∉ ([] : list string)) ∧
  isVisible cyclicPair (userOptionValues (assign "A" (Some (VBool false)) emptyStore))
    [] "A" = Normal true ∧
  getVisibleOptions cyclicPair
    (userOptionValues (assign "A" (Some (VBool false)) emptyStore)) [] ["A"]
  = Normal ["A"].
Proof.
  split_and!; try (vm_compute; reflexivity).
  - eexists _, _. split_and!; [done..|]. by left.
  - by intros ?%elem_of_nil.
Qed.

(** ** Free text *)

Lemma step_text options user id rest σ o :
  get options id = Some o → type o = "TEXT" →
  step options user id rest σ
  = match inputBox user id with
    | None | Some "" => Normal Cancelled
    | Some s =>
        Normal (Advance {| pending := rest;
                           store := assign id (Some (VStr s))
                                      (assign id (Some (VStr "")) σ) |})
    end.
Proof.
  intros Ho Hty. unfold step. rewrite (property_get _ _ _ Ho), Hty. simpl.
  destruct (inputBox user id) as [s|]; simpl; [|done].
  case_bool_decide as Hs; [by subst|]. destruct s; done.
Qed.

(** C5 (the code departs from it).  The user submits the empty string for
    the only option, a TEXT: the iteration returns as for a dismissed
    prompt, the loop yields nothing and no job is created. *)
Theorem empty_text_cancels :
  inputBox terse "T" = Some "" ∧
  step textOnly terse "T" [] emptyStore = Normal Cancelled ∧
  collectOptions textOnly terse ["T"] = Normal None ∧
  obfuscate V8.sort textOnly terse = Normal None.
Proof. split_and!; vm_compute; reflexivity. Qed.

(** ** The fuel is enough *)

Lemma bind_OutOfFuel {A B : Type} (m : Completion A) (f : A → Completion B) :
  m ≠ OutOfFuel → (∀ a, m = Normal a → f a ≠ OutOfFuel) → m ≫= f ≠ OutOfFuel.
Proof. destruct m; simpl; auto. Qed.

Lemma visit_fuel options fuel id s :
  size (list_to_set (keys options) ∖ visited s) < fuel →
  visit options fuel id s ≠ OutOfFuel.
Proof.
  revert id s. induction fuel as [|fuel IH]; intros id s Hsize; [lia|].
  simpl. case_bool_decide as Hvis; [done|].
  apply bind_OutOfFuel.
  { unfold dependenciesOf. by destruct (property options id). }
  intros dependencies Hdo. apply bind_OutOfFuel; [|done].
  destruct dependencies as [deps|]; [|done].
  apply dependenciesOf_Some in Hdo as (o & Ho & _).
  set (s1 := {| visited := {[id]} ∪ visited s; result := result s |}).
  assert (size (list_to_set (keys options) ∖ visited s1) < fuel) as Hsize1.
  { apply Nat.lt_le_trans with (size (list_to_set (keys options) ∖ visited s));
      [|lia].
    apply subset_size. simpl.
    assert (id ∈ keys options) by (apply get_is_Some; by rewrite Ho).
    set_solver. }
  revert Hsize1. generalize s1 (keys deps). clear -IH.
  intros t arr. revert t. induction arr as [|d arr IHarr]; intros t Ht; [done|].
  rewrite forEach_cons. apply bind_OutOfFuel; [by apply IH|].
  intros t1 [(n & _ & Hv & _) _]%visit_Extends. apply IHarr.
  eapply Nat.le_lt_trans; [apply subseteq_size|done]. rewrite Hv. set_solver.
Qed.

Lemma topologicalSort_fuel options arr :
  topologicalSort options arr ≠ OutOfFuel.
Proof.
  unfold topologicalSort. apply bind_OutOfFuel; [|done].
  generalize {| visited := ∅; result := [] |}.
  induction arr as [|d arr IH]; intros t; [done|].
  rewrite forEach_cons. apply bind_OutOfFuel; [|auto].
  apply visit_fuel, Nat.lt_succ_r. etrans; [apply subseteq_size|].
  - apply subseteq_difference_l. reflexivity.
  - etrans; [apply size_list_to_set_le|]. unfold keys. by rewrite length_fmap.
Qed.

Section V8_fuel.
Variable cmp : Comparator.
Hypothesis cmp_fuel : ∀ a b, cmp a b ≠ OutOfFuel.

Lemma extendRun_fuel descending previous rest :
  V8.extendRun cmp descending previous rest ≠ OutOfFuel.
Proof using cmp_fuel.
  revert previous. induction rest as [|current rest IH]; intros previous; [done|].
  cbn [V8.extendRun]. apply bind_OutOfFuel; [done|]. intros order _.
  destruct (if descending then _ else _); [done|].
  apply bind_OutOfFuel; [done|]. by intros [].
Qed.

Lemma insertionPoint_fuel fuel pivot sorted left right :
  right - left ≤ fuel →
  V8.insertionPoint cmp fuel pivot sorted left right ≠ OutOfFuel.
Proof using cmp_fuel.
  revert left right. induction fuel as [|fuel IH]; intros left right Hfuel;
    cbn [V8.insertionPoint]; case_bool_decide as Hlt; try done; [lia|].
  pose proof (Nat.div_lt (right - left) 2 ltac:(lia) ltac:(lia)).
  apply bind_OutOfFuel; [done|]. intros order _.
  destruct (order <? 0)%Z; apply IH; lia.
Qed.

Lemma sort_fuel arr : V8.sort cmp arr ≠ OutOfFuel.
Proof using cmp_fuel.
  unfold V8.sort. case_bool_decide; [done|]. apply bind_OutOfFuel.
  - unfold V8.countAndMakeRun. destruct arr as [|a0 [|a1 rest]]; try done.
    apply bind_OutOfFuel; [done|]. intros order _.
    apply bind_OutOfFuel; [apply extendRun_fuel | by intros []].
  - intros [run rest] _. revert run.
    induction rest as [|pivot rest IH]; intros run; [done|].
    cbn [V8.binaryInsertionSort]. apply bind_OutOfFuel; [|auto].
    apply insertionPoint_fuel. lia.
Qed.
End V8_fuel.

Lemma typeFirst_fuel ty options a b : typeFirst ty options a b ≠ OutOfFuel.
Proof. unfold typeFirst, typeOf. by destruct (property options a). Qed.

Lemma idOrder_V8_fuel options : idOrder V8.sort options ≠ OutOfFuel.
Proof.
  unfold idOrder, groupDropdowns.
  apply bind_OutOfFuel; [apply sort_fuel, typeFirst_fuel|]. intros linked _.
  apply bind_OutOfFuel; [apply topologicalSort_fuel|]. intros res _.
  apply bind_OutOfFuel; [apply sort_fuel, typeFirst_fuel | done].
Qed.

Lemma segmentFrom_fuel options fuel ids :
  length ids ≤ fuel → segmentFrom options fuel ids ≠ OutOfFuel.
Proof.
  revert ids. induction fuel as [|fuel IH]; intros ids Hlen.
  { by destruct ids; [|simpl in Hlen; lia]. }
  destruct ids as [|id rest]; [done|]. cbn [segmentFrom].
  apply bind_OutOfFuel.
  { unfold nextUnit. destruct (property options id); [|done..].
    destruct (checkboxCluster _ _ _ _); by repeat case_match. }
  intros [unit rest'] Hunit. apply bind_OutOfFuel; [|done]. apply IH.
  apply nextUnit_Normal in Hunit as [_ Hle]. simpl in Hlen. lia.
Qed.

Lemma segment_fuel options ids : segment options ids ≠ OutOfFuel.
Proof. by apply segmentFrom_fuel. Qed.

Lemma obfuscate_V8_fuel options user : obfuscate V8.sort options user ≠ OutOfFuel.
Proof.
  unfold obfuscate. apply bind_OutOfFuel; [apply idOrder_V8_fuel|]. intros ids _.
  apply bind_OutOfFuel; [apply collectOptions_total|]. intros [values|] _; [|done].
  by destruct (confirmOptions user values).
Qed.

(** * Further properties *)

(** ** Errors of the resolver *)

Lemma bind_Throw {A B : Type} (m : Completion A) (f : A → Completion B) e :
  m ≫= f = Throw e → m = Throw e ∨ ∃ a, m = Normal a ∧ f a = Throw e.
Proof. destruct m as [a| | |]; simpl; [eauto | intros [= ->]; auto | done..]. Qed.

Lemma bind_Diverges {A B : Type} (m : Completion A) (f : A → Completion B) :
  m ≫= f = Diverges → m = Diverges ∨ ∃ a, m = Normal a ∧ f a = Diverges.
Proof. destruct m as [a| | |]; simpl; [eauto | done | auto | done]. Qed.

Section V8_any.
Variable cmp : Comparator.

Lemma extendRun_split descending previous rest run others :
  V8.extendRun cmp descending previous rest = Normal (run, others) →
  rest = run ++ others.
Proof.
  revert previous run others.
  induction rest as [|current rest IH]; intros previous run others; cbn [V8.extendRun].
  { by intros [= <- <-]. }
  intros (order & _ & Hrest)%bind_Normal.
  destruct (if descending then _ else _); [by injection Hrest as <- <-|].
  apply bind_Normal in Hrest as ([run' others'] & Hrec & [= <- <-]).
  apply IH in Hrec as ->. done.
Qed.

Lemma countAndMakeRun_perm l run others :
  V8.countAndMakeRun cmp l = Normal (run, others) → run ++ others ≡ₚ l.
Proof.
  destruct l as [|a0 [|a1 rest]]; cbn [V8.countAndMakeRun];
    [by intros [= <- <-] | by intros [= <- <-] |].
  intros (order & _ & ([run' others'] & Hrun%extendRun_split & [= <- <-])%bind_Normal)%bind_Normal.
  subst rest. destruct (order <? 0)%Z; [|done]. by rewrite reverse_Permutation.
Qed.

Lemma binaryInsertionSort_perm sorted rest l :
  V8.binaryInsertionSort cmp sorted rest = Normal l → l ≡ₚ sorted ++ rest.
Proof.
  revert sorted. induction rest as [|pivot rest IH]; intros sorted;
    cbn [V8.binaryInsertionSort].
  { intros [= <-]. by rewrite app_nil_r. }
  intros (pos & _ & Hrec%IH)%bind_Normal. rewrite Hrec.
  rewrite <- (assoc_L (++)). simpl.
  rewrite <- (Permutation_middle (take pos sorted)), (assoc_L (++)), take_drop.
  by rewrite <- Permutation_middle.
Qed.

(** Whenever the sort returns, it has rearranged the array. *)
Lemma sort_perm arr l : V8.sort cmp arr = Normal l → l ≡ₚ arr.
Proof.
  unfold V8.sort. case_bool_decide; [by intros [= <-]|].
  intros ([run rest] & Hrun%countAndMakeRun_perm & Hsort%binaryInsertionSort_perm)%bind_Normal.
  by rewrite Hsort.
Qed.

(** The sort throws what the comparator throws. *)
Lemma extendRun_Throw descending previous rest e :
  V8.extendRun cmp descending previous rest = Throw e → ∃ a b, cmp a b = Throw e.
Proof.
  revert previous. induction rest as [|current rest IH]; intros previous;
    cbn [V8.extendRun]; [done|].
  intros [Hcmp | (order & _ & Hrest)]%bind_Throw; [eauto|].
  destruct (if descending then _ else _); [done|].
  apply bind_Throw in Hrest as [Hrec | ([? ?] & _ & ?)]; [by eapply IH | done].
Qed.

Lemma insertionPoint_Throw fuel pivot sorted left right e :
  V8.insertionPoint cmp fuel pivot sorted left right = Throw e →
  ∃ a b, cmp a b = Throw e.
Proof.
  revert left right. induction fuel as [|fuel IH]; intros left right;
    cbn [V8.insertionPoint]; case_bool_decide; try done.
  intros [Hcmp | (order & _ & Hrest)]%bind_Throw; [eauto|].
  destruct (order <? 0)%Z; by eapply IH.
Qed.

Lemma sort_Throw arr e : V8.sort cmp arr = Throw e → ∃ a b, cmp a b = Throw e.
Proof.
  unfold V8.sort. case_bool_decide; [done|].
  intros [Hrun | ([run rest] & _ & Hsort)]%bind_Throw.
  - unfold V8.countAndMakeRun in Hrun. destruct arr as [|a0 [|a1 rest]]; try done.
    apply bind_Throw in Hrun as [Hcmp | (order & _ & Hrun)]; [eauto|].
    apply bind_Throw in Hrun as [Hrun | ([? ?] & _ & ?)]; [|done].
    by eapply extendRun_Throw.
  - revert run Hsort. induction rest as [|pivot rest IH]; intros run;
      cbn [V8.binaryInsertionSort]; [done|].
    intros [Hpos | (pos & _ & Hrec)]%bind_Throw; [by eapply insertionPoint_Throw|].
    by eapply IH.
Qed.

(** The sort itself always comes to an end. *)
Lemma extendRun_Diverges descending previous rest :
  V8.extendRun cmp descending previous rest = Diverges → ∃ a b, cmp a b = Diverges.
Proof.
  revert previous. induction rest as [|current rest IH]; intros previous;
    cbn [V8.extendRun]; [done|].
  intros [Hcmp | (order & _ & Hrest)]%bind_Diverges; [eauto|].
  destruct (if descending then _ else _); [done|].
  apply bind_Diverges in Hrest as [Hrec | ([? ?] & _ & ?)]; [by eapply IH | done].
Qed.

Lemma insertionPoint_Diverges fuel pivot sorted left right :
  V8.insertionPoint cmp fuel pivot sorted left right = Diverges →
  ∃ a b, cmp a b = Diverges.
Proof.
  revert left right. induction fuel as [|fuel IH]; intros left right;
    cbn [V8.insertionPoint]; case_bool_decide; try done.
  intros [Hcmp | (order & _ & Hrest)]%bind_Diverges; [eauto|].
  destruct (order <? 0)%Z; by eapply IH.
Qed.

Lemma sort_Diverges arr : V8.sort cmp arr = Diverges → ∃ a b, cmp a b = Diverges.
Proof.
  unfold V8.sort. case_bool_decide; [done|].
  intros [Hrun | ([run rest] & _ & Hsort)]%bind_Diverges.
  - unfold V8.countAndMakeRun in Hrun. destruct arr as [|a0 [|a1 rest]]; try done.
    apply bind_Diverges in Hrun as [Hcmp | (order & _ & Hrun)]; [eauto|].
    apply bind_Diverges in Hrun as [Hrun | ([? ?] & _ & ?)]; [|done].
    by eapply extendRun_Diverges.
  - revert run Hsort. induction rest as [|pivot rest IH]; intros run;
      cbn [V8.binaryInsertionSort]; [done|].
    intros [Hpos | (pos & _ & Hrec)]%bind_Diverges; [by eapply insertionPoint_Diverges|].
    by eapply IH.
Qed.
End V8_any.

Lemma typeFirst_Throw ty options a b e :
  typeFirst ty options a b = Throw e → e = TypeError.
Proof.
  unfold typeFirst, typeOf. destruct (property options a); simpl; [done..|].
  by intros [= <-].
Qed.

Lemma typeFirst_Diverges ty options a b : typeFirst ty options a b ≠ Diverges.
Proof. unfold typeFirst, typeOf. by destruct (property options a). Qed.

Lemma visit_Throw options fuel id s e :
  visit options fuel id s = Throw e → e = TypeError.
Proof.
  revert id s. induction fuel as [|fuel IH]; intros id s; simpl;
    case_bool_decide; try done.
  intros [[-> _]%dependenciesOf_Throw | (dependencies & _ & Hrest)]%bind_Throw; [done|].
  apply bind_Throw in Hrest as [Hdeps | (s2 & _ & ?)]; [|done].
  destruct dependencies as [deps|]; [|done].
  revert Hdeps. generalize {| visited := {[id]} ∪ visited s; result := result s |}.
  induction (keys deps) as [|d arr IHarr]; intros t; [done|]. rewrite forEach_cons.
  intros [Hd | (t1 & _ & Hrest)]%bind_Throw; [by eapply IH | by eapply IHarr].
Qed.

Lemma topologicalSort_Throw options arr e :
  topologicalSort options arr = Throw e → e = TypeError.
Proof.
  unfold topologicalSort. intros [Hrun | (s & _ & ?)]%bind_Throw; [|done].
  revert Hrun. generalize {| visited := ∅; result := [] |}.
  induction arr as [|d arr IH]; intros t; [done|]. rewrite forEach_cons.
  intros [Hd | (t1 & _ & Hrest)]%bind_Throw; [by eapply visit_Throw | by eapply IH].
Qed.

Lemma visit_Diverges options fuel id s : visit options fuel id s ≠ Diverges.
Proof.
  revert id s. induction fuel as [|fuel IH]; intros id s; simpl;
    case_bool_decide; try done.
  intros [Hdo | (dependencies & _ & Hrest)]%bind_Diverges.
  { unfold dependenciesOf in Hdo. by destruct (property options id). }
  apply bind_Diverges in Hrest as [Hdeps | (s2 & _ & ?)]; [|done].
  destruct dependencies as [deps|]; [|done].
  revert Hdeps. generalize {| visited := {[id]} ∪ visited s; result := result s |}.
  induction (keys deps) as [|d arr IHarr]; intros t; [done|]. rewrite forEach_cons.
  intros [Hd | (t1 & _ & Hrest)]%bind_Diverges; [by eapply IH | by eapply IHarr].
Qed.

Lemma topologicalSort_Diverges options arr : topologicalSort options arr ≠ Diverges.
Proof.
  unfold topologicalSort. intros [Hrun | (s & _ & ?)]%bind_Diverges; [|done].
  revert Hrun. generalize {| visited := ∅; result := [] |}.
  induction arr as [|d arr IH]; intros t; [done|]. rewrite forEach_cons.
  intros [Hd | (t1 & _ & Hrest)]%bind_Diverges; [by eapply visit_Diverges | by eapply IH].
Qed.

(** What the pass emits it has read. *)
Lemma visit_result_read options fuel id s s' :
  visit options fuel id s = Normal s' →
  (∀ x, x ∈ result s → x ∈ keys options ∨ x ∈ objectPrototype) →
  ∀ x, x ∈ result s' → x ∈ keys options ∨ x ∈ objectPrototype.
Proof.
  revert id s s'. induction fuel as [|fuel IH]; intros id s s'; simpl.
  { case_bool_decide; [|done]. by intros [= <-]. }
  case_bool_decide as Hvis; [by intros [= <-]|].
  intros (dependencies & Hdo & (s2 & Hdeps & [= <-])%bind_Normal)%bind_Normal Hs x.
  simpl. intros [Hx | ->%list_elem_of_singleton]%elem_of_app;
    [|by eapply dependenciesOf_Normal].
  revert x Hx. destruct dependencies as [deps|].
  - revert Hdeps.
    apply (forEach_invariant _
             (λ t, ∀ x, x ∈ result t → x ∈ keys options ∨ x ∈ objectPrototype));
      [|exact Hs].
    intros d t t' _ Ht Hrun. by eapply IH.
  - by injection Hdeps as <-.
Qed.

Lemma topologicalSort_read options arr res x :
  topologicalSort options arr = Normal res → x ∈ res →
  x ∈ keys options ∨ x ∈ objectPrototype.
Proof.
  unfold topologicalSort. intros (s & Hrun & [= <-])%bind_Normal. revert x.
  revert Hrun.
  apply (forEach_invariant _
           (λ t, ∀ x, x ∈ result t → x ∈ keys options ∨ x ∈ objectPrototype)).
  - intros d t t' _ Ht Hrun'. by eapply visit_result_read.
  - by intros x ?%elem_of_nil.
Qed.

(** X1. A dependency on an id that names nothing, neither an option nor a
    property of [Object.prototype], makes the resolver throw a
    [TypeError], on V8 (for fewer than 64 linked ids): either the
    comparator of the grouping step reads the type of [undefined], or
    [visit] reads its dependencies. *)
Theorem idOrder_dangling options :
  Dangling options → length (linkedOptions options) < 64 →
  idOrder V8.sort options = Throw TypeError.
Proof.
  intros (id & o & deps & dep & Hin & Hd & Hdep & Hmissing & Hnot) _.
  assert (dep ∈ linkedOptions options) as Hlinked.
  { apply linkedOptions_elem. exists id, o, deps. auto. }
  unfold idOrder, groupDropdowns.
  pose proof (sort_fuel (typeFirst "DROPDOWN" options)
                (typeFirst_fuel "DROPDOWN" options) (linkedOptions options)) as Hfuel.
  destruct (V8.sort _ (linkedOptions options)) as [linked|e| |] eqn:Hsort; [| | |done].
  - simpl. pose proof (topologicalSort_fuel options linked) as Hfuel'.
    pose proof (topologicalSort_Diverges options linked) as Hends.
    destruct (topologicalSort options linked) as [res|e| |] eqn:Htopo; [| |done..].
    + assert (dep ∈ res) as Hres.
      { eapply topologicalSort_NoDup; [done|]. by rewrite (sort_perm _ _ _ Hsort). }
      by destruct (topologicalSort_read _ _ _ _ Htopo Hres).
    + simpl. by rewrite (topologicalSort_Throw _ _ _ Htopo).
  - simpl. apply sort_Throw in Hsort as (a & b & Hcmp).
    by rewrite (typeFirst_Throw _ _ _ _ _ Hcmp).
  - apply sort_Diverges in Hsort as (a & b & Hcmp).
    by apply typeFirst_Diverges in Hcmp.
Qed.

Lemma idOrder_dangling_witness :
  Dangling dangling ∧ idOrder V8.sort dangling = Throw TypeError.
Proof.
  assert (Dangling dangling) as Hd.
  { exists "A", (mkOption "CHECKBOX" [] (Some [("ghost", [VBool true])])),
      [("ghost", [VBool true])], "ghost".
    split_and!; [by left | done | by left | |].
    - unfold keys. simpl. by intros ?%list_elem_of_singleton.
    - unfold objectPrototype. set_solver. }
  split; [done|]. apply (idOrder_dangling dangling Hd). simpl. lia.
Defined.

(** With a name that [Object.prototype] has, the order is computed, and it
    is the loop that throws when it comes to that name. *)
Example idOrder_inheritedName :
  idOrder V8.sort inheritedName = Normal ["constructor"; "A"] ∧
  ∀ user, collectOptions inheritedName user ["constructor"; "A"]
          = Throw (InvalidOptionType "undefined").
Proof. split; [vm_compute; reflexivity | done]. Qed.

(** ** What a completed run has recorded *)

Lemma step_Answered options user id rest σ st' :
  step options user id rest σ = Normal (Advance st') →
  ∃ unit,
    nextUnit options id rest = Normal (unit, pending st') ∧
    Answered options user (userOptionValues (store st')) unit.
Proof.
  unfold step, nextUnit. destruct (property options id) as [o| |] eqn:Hprop; [|done..].
  apply property_Own in Hprop as Ho.
  case_bool_decide as Hcb; [|case_bool_decide as Hdd; [|case_bool_decide as Htx]].
  - destruct (checkboxCluster options id rest σ) as [cluster rest' σ1|σ1] eqn:Hc;
      [|done].
    destruct (checkboxCluster_store _ _ _ _ emptyStore _ _ _ Hc) as [s0 ->].
    intros (visible & _ & Hpick)%bind_Normal.
    destruct (checkboxPick user cluster) as [ticked|] eqn:Hticked; [|done].
    injection Hpick as <-. simpl. exists (Cluster cluster). split; [done|].
    exists ticked. split; [done|]. intros k Hk Hproto.
    apply checkboxCluster_spec in Hc as (_ & _ & _ & ->).
    rewrite !foldl_assign_lookup.
    rewrite (decide_True (P := k ∈ cluster ∧ _)) by done. case_decide as Hsel.
    + destruct Hsel as [[Hsel _]%list_elem_of_filter _].
      by rewrite bool_decide_eq_true_2.
    + rewrite bool_decide_eq_false_2; [done|]. intros Hticked'. apply Hsel.
      split; [by apply list_elem_of_filter | done].
  - destruct (quickPick user id) as [index|] eqn:Hpick; simpl; [|done].
    destruct (choices o !! index) as [label|] eqn:Hlabel; [|done].
    intros [= <-]. simpl. exists (Singleton id). split; [done|].
    exists o. split_and!; [done | intros _ | by rewrite Hdd].
    exists index, label. split_and!; [done..|]. intros Hproto.
    by rewrite assign_lookup, decide_True.
  - destruct (inputBox user id) as [s|] eqn:Hinput; simpl; [|done].
    case_bool_decide as Hs; [done|]. intros [= <-]. simpl.
    exists (Singleton id). split; [done|].
    exists o. split_and!; [done | by rewrite Htx | intros _].
    exists s. split_and!; [done..|]. intros Hproto.
    by rewrite assign_lookup, decide_True.
  - done.
Qed.

Lemma Answered_agree options user values values' unit :
  (∀ k, k ∈ unitIds unit → values' !! k = values !! k) →
  Answered options user values unit → Answered options user values' unit.
Proof.
  intros Hsame. destruct unit as [cluster|id]; simpl in *.
  - intros (ticked & Hpick & Hall). exists ticked. split; [done|].
    intros k Hk Hproto. rewrite Hsame by done. by apply Hall.
  - intros (o & Ho & Hdd & Htx). exists o.
    rewrite Hsame by (by apply list_elem_of_singleton). done.
Qed.

(** The values of the ids the loop has left behind stay as they are until
    the end. *)
Lemma collect_untouched options user fuel st values :
  collect options user fuel st = Normal (Some values) →
  ∀ k, k ∉ pending st → values !! k = userOptionValues (store st) !! k.
Proof.
  revert st. induction fuel as [|fuel IH]; intros st.
  - simpl. destruct (pending st); [|done]. by intros [= <-].
  - destruct (pending st) as [|x rest] eqn:Hp.
    { simpl. rewrite Hp. by intros [= <-]. }
    rewrite (collect_unfold _ _ _ _ _ _ Hp).
    intros ([st'|] & Hstep & Hrun)%bind_Normal; [|done].
    assert (stepsTo options user st st') as (unit & Hu & _ & [_ Hsame] & _)%stepsTo_pending
      by (by exists x, rest).
    rewrite Hp in Hu. intros k Hk. rewrite Hu in Hk.
    rewrite (IH st' Hrun), Hsame; [done | |]; intros ?; apply Hk, elem_of_app; auto.
Qed.

(** No assignment stores anything under [__proto__]. *)
Lemma step_proto options user id rest σ st' :
  step options user id rest σ = Normal (Advance st') →
  userOptionValues (store st') !! "__proto__" = userOptionValues σ !! "__proto__".
Proof.
  unfold step. destruct (property options id) as [o| |]; [|done..].
  case_bool_decide; [|case_bool_decide; [|case_bool_decide; [|done]]].
  - destruct (checkboxCluster options id rest σ) as [cluster rest' σ1|σ1] eqn:Hc;
      [|done].
    intros (visible & _ & Hpick)%bind_Normal.
    destruct (checkboxPick user cluster) as [ticked|]; [|done].
    injection Hpick as <-. simpl.
    apply checkboxCluster_spec in Hc as (_ & _ & _ & ->).
    rewrite !foldl_assign_lookup. by rewrite !decide_False by tauto.
  - destruct (quickPick user id ≫= _); [|done]. intros [= <-]. simpl.
    rewrite !assign_lookup. by rewrite !decide_False by (intros [-> ?]; done).
  - destruct (falsy _); [done|]. intros [= <-]. simpl.
    rewrite !assign_lookup. by rewrite !decide_False by (intros [-> ?]; done).
Qed.

Lemma collect_proto options user fuel st values :
  collect options user fuel st = Normal (Some values) →
  values !! "__proto__" = userOptionValues (store st) !! "__proto__".
Proof.
  revert st. induction fuel as [|fuel IH]; intros st.
  - simpl. destruct (pending st); [|done]. by intros [= <-].
  - destruct (pending st) as [|x rest] eqn:Hp.
    { simpl. rewrite Hp. by intros [= <-]. }
    rewrite (collect_unfold _ _ _ _ _ _ Hp).
    intros ([st'|] & Hstep & Hrun)%bind_Normal; [|done].
    by rewrite (IH st' Hrun), (step_proto _ _ _ _ _ _ Hstep).
Qed.

Lemma collect_Answered options user fuel st values :
  NoDup (pending st) →
  collect options user fuel st = Normal (Some values) →
  ∃ units,
    segmentFrom options fuel (pending st) = Normal units ∧
    concat (unitIds <$> units) = pending st ∧
    Forall (Answered options user values) units.
Proof.
  revert st. induction fuel as [|fuel IH]; intros st Hnd.
  - simpl. destruct (pending st); [|done]. intros _. by exists [].
  - destruct (pending st) as [|x rest] eqn:Hp.
    { simpl. rewrite Hp. intros _. by exists []. }
    rewrite (collect_unfold _ _ _ _ _ _ Hp).
    intros ([st'|] & Hstep & Hrun)%bind_Normal; [|done].
    destruct (step_Answered _ _ _ _ _ _ Hstep) as (unit & Hunit & Hans).
    destruct (step_Advance _ _ _ _ _ _ Hstep) as (unit' & Hunit' & Heq & _).
    rewrite Hunit in Hunit'. injection Hunit' as <-.
    rewrite Heq in Hnd. apply NoDup_app in Hnd as (_ & Hdisj & Hnd').
    destruct (IH st' Hnd' Hrun) as (units & Hseg & Hcat & Hall).
    exists (unit :: units). cbn [segmentFrom]. rewrite Hunit. cbn.
    rewrite Hseg. cbn. split_and!; [done | by rewrite Hcat, Heq |].
    constructor; [|done]. eapply Answered_agree; [|done].
    intros k Hk. apply (collect_untouched _ _ _ _ _ Hrun). by apply Hdisj.
Qed.

(** X2. A run over a duplicate-free list of ids that reaches the end of
    the loop has presented exactly the units of the segmentation, each
    prompt was answered, and for every id other than [__proto__] the
    final value is the answer: [true] for the ticked and [false] for the
    other members of a cluster, the picked label of a dropdown, the
    non-empty string entered in a text box. *)
Theorem completed_run_Answered options user ids values :
  NoDup ids →
  collectOptions options user ids = Normal (Some values) →
  ∃ units,
    segment options ids = Normal units ∧
    concat (unitIds <$> units) = ids ∧
    Forall (Answered options user values) units.
Proof. intros Hnd Hrun. by apply (collect_Answered _ _ _ (initialState ids)). Qed.

Lemma completed_run_Answered_witness :
  NoDup ["A"; "B"; "C"] ∧
  collectOptions scenario thorough ["A"; "B"; "C"]
  = Normal (Some (userOptionValues (store completed))) ∧
  ∃ units,
    segment scenario ["A"; "B"; "C"] = Normal units ∧
    concat (unitIds <$> units) = ["A"; "B"; "C"] ∧
    Forall (Answered scenario thorough (userOptionValues (store completed))) units.
Proof.
  assert (NoDup ["A"; "B"; "C"]) as Hnd
    by (apply (bool_decide_unpack _); vm_compute; exact I).
  assert (collectOptions scenario thorough ["A"; "B"; "C"]
          = Normal (Some (userOptionValues (store completed)))) as Hrun
    by (vm_compute; reflexivity).
  split_and!; [done..|].
  apply (completed_run_Answered scenario thorough _ _ Hnd Hrun).
Defined.

Lemma WellTyped_defined options values id :
  WellTyped options values id → Passable options id →
  ∃ v, values !! id = Some (Some v).
Proof.
  intros (o & Ho & Hcb & Htx & Hdd) (o' & Ho' & Hty & _).
  rewrite Ho in Ho'. injection Ho' as <-.
  apply elem_of_cons in Hty as [Hty|Hty]; [destruct (Hcb Hty) as [? ->]; eauto|].
  apply elem_of_cons in Hty as [Hty|Hty]; [destruct (Hdd Hty) as (? & _ & ->); eauto|].
  apply list_elem_of_singleton in Hty. destruct (Htx Hty) as [? ->]. eauto.
Qed.

(** X3. When the loop reaches its end, [userOptionValues] has an entry for
    exactly the ids of [idOrder] other than [__proto__], and no entry is
    [undefined]. *)
Theorem completed_run_entries options user ids values :
  collectOptions options user ids = Normal (Some values) →
  ∀ k, (k ∈ ids → k ≠ "__proto__" → ∃ v, values !! k = Some (Some v)) ∧
       (k ∉ ids ∨ k = "__proto__" → values !! k = None).
Proof.
  intros Hrun k. split.
  - intros Hk Hproto. apply (WellTyped_defined options).
    + eapply collect_WellTyped; [exact Hrun | done | by left].
    + by eapply collect_Passable.
  - intros [Hk | ->].
    + by rewrite (collect_untouched _ _ _ _ _ Hrun k Hk).
    + by rewrite (collect_proto _ _ _ _ _ Hrun).
Qed.

Lemma completed_run_entries_witness :
  collectOptions scenario thorough ["A"; "B"; "C"]
  = Normal (Some (userOptionValues (store completed))) ∧
  ∀ k, (k ∈ ["A"; "B"; "C"] → k ≠ "__proto__" →
          ∃ v, userOptionValues (store completed) !! k = Some (Some v)) ∧
       (k ∉ ["A"; "B"; "C"] ∨ k = "__proto__" →
          userOptionValues (store completed) !! k = None).
Proof.
  assert (collectOptions scenario thorough ["A"; "B"; "C"]
          = Normal (Some (userOptionValues (store completed)))) as Hrun
    by (vm_compute; reflexivity).
  split; [done|]. apply (completed_run_entries scenario thorough _ _ Hrun).
Defined.

(** ** Errors of the collection loop *)

Lemma step_valid options user id rest σ :
  isCheckbox options "undefined" = false →
  (∃ o, get options id = Some o ∧ type o ∈ ["CHECKBOX"; "DROPDOWN"; "TEXT"]) →
  ∃ r, step options user id rest σ = Normal r.
Proof.
  intros Hu (o & Ho & Hty). unfold step. rewrite (property_get _ _ _ Ho).
  case_bool_decide as Hcb; [|case_bool_decide; [|case_bool_decide; [|set_solver]]].
  - destruct (checkboxCluster_Breaks options id rest σ Hu)
      as (cluster & rest' & σ1 & Hc). rewrite Hc.
    destruct (checkboxCluster_visible _ _ _ _ _ _ _ _ (userOptionValues σ1) Hc Ho Hcb)
      as [visible ->].
    simpl. destruct (checkboxPick user cluster); eauto.
  - destruct (quickPick user id ≫= _); eauto.
  - destruct (falsy _); eauto.
Qed.

Lemma step_Throw options user id rest σ e :
  step options user id rest σ = Throw e → ThrownAt options id e.
Proof.
  unfold step, ThrownAt.
  destruct (property options id) as [o| |] eqn:Hprop; [|by intros [= <-]..].
  apply property_Own in Hprop as Ho.
  case_bool_decide as Hcb; [|case_bool_decide as Hdd; [|case_bool_decide as Htx]].
  - destruct (checkboxCluster options id rest σ) as [cluster rest' σ1|σ1] eqn:Hc;
      [|done].
    destruct (checkboxCluster_visible _ _ _ _ _ _ _ _ (userOptionValues σ1) Hc Ho Hcb)
      as [visible ->].
    simpl. by destruct (checkboxPick user cluster).
  - by destruct (quickPick user id ≫= _).
  - by destruct (falsy _).
  - intros [= <-]. split; [|done]. set_solver.
Qed.

Lemma step_Diverges options user id rest σ :
  step options user id rest σ = Diverges →
  isCheckbox options "undefined" = true ∧
  ∀ x, x ∈ id :: rest → isCheckbox options x = true.
Proof.
  unfold step. destruct (property options id) as [o| |] eqn:Hprop; [|done..].
  apply property_Own in Hprop as Ho.
  case_bool_decide as Hcb; [|case_bool_decide as Hdd; [|case_bool_decide as Htx]].
  - destruct (checkboxCluster options id rest σ) as [cluster rest' σ1|σ1] eqn:Hc.
    + destruct (checkboxCluster_visible _ _ _ _ _ _ _ _ (userOptionValues σ1) Hc Ho Hcb)
        as [visible ->].
      simpl. by destruct (checkboxPick user cluster).
    + intros _.
      destruct (proj1 (checkboxCluster_Loops options id rest σ)) as [Hu Hall]; [eauto|].
      split; [done|]. intros x [-> | Hx]%elem_of_cons; [|by apply Hall].
      unfold isCheckbox. rewrite Ho. by apply bool_decide_eq_true.
  - by destruct (quickPick user id ≫= _).
  - by destruct (falsy _).
  - done.
Qed.

Lemma collect_Throw options user fuel st e :
  collect options user fuel st = Throw e →
  ∃ id, id ∈ pending st ∧ ThrownAt options id e.
Proof.
  revert st. induction fuel as [|fuel IH]; intros st.
  - simpl. by destruct (pending st).
  - destruct (pending st) as [|x rest] eqn:Hp; [simpl; by rewrite Hp|].
    rewrite (collect_unfold _ _ _ _ _ _ Hp).
    intros [Hstep%step_Throw | ([st'|] & Hstep & Hrun)]%bind_Throw; [| |done].
    + exists x. split; [by left | done].
    + destruct (IH _ Hrun) as (id & Hid & Hthrown).
      exists id. split; [|done].
      assert (stepsTo options user st st') as (unit & Hu & _)%stepsTo_pending
        by (by exists x, rest).
      rewrite Hp in Hu. rewrite Hu. apply elem_of_app. by right.
Qed.

Lemma collect_Diverges options user fuel st :
  collect options user fuel st = Diverges →
  isCheckbox options "undefined" = true ∧
  ∃ id, last (pending st) = Some id ∧ isCheckbox options id = true.
Proof.
  revert st. induction fuel as [|fuel IH]; intros st.
  - simpl. by destruct (pending st).
  - destruct (pending st) as [|x rest] eqn:Hp; [simpl; by rewrite Hp|].
    rewrite (collect_unfold _ _ _ _ _ _ Hp).
    intros [[Hu Hall]%step_Diverges | ([st'|] & Hstep & Hrun)]%bind_Diverges;
      [| |done].
    + split; [done|].
      destruct (last (x :: rest)) as [id|] eqn:Hlast; [|by apply last_None in Hlast].
      exists id. split; [done|]. by apply Hall, last_Some_elem_of.
    + destruct (IH _ Hrun) as (Hu & id & Hlast & Hid). split; [done|].
      exists id. split; [|done].
      assert (stepsTo options user st st') as (unit & Hu' & _)%stepsTo_pending
        by (by exists x, rest).
      rewrite Hp in Hu'. rewrite Hu'.
      apply last_Some in Hlast as [l' Hl']. rewrite Hl', (assoc_L (++)).
      apply last_snoc.
Qed.

Lemma collectOptions_valid options user ids :
  isCheckbox options "undefined" = false →
  ValidIds options ids → ∃ r, collectOptions options user ids = Normal r.
Proof.
  intros Hu Hvalid.
  pose proof (collectOptions_total options user ids) as Hfuel.
  destruct (collectOptions options user ids) as [r|e| |] eqn:Hrun; [eauto| | |done].
  - apply collect_Throw in Hrun as (id & Hid & Hthrown).
    destruct (Hvalid id Hid) as (o & Ho & Hty). unfold ThrownAt in Hthrown.
    rewrite (property_get _ _ _ Ho) in Hthrown. by destruct Hthrown.
  - apply collect_Diverges in Hrun as [Hu' _]. congruence.
Qed.

(** X4. The collection loop throws only at an id of [idOrder] for which
    [nodeInfo.options] has nothing ([TypeError]), or a property inherited
    from [Object.prototype] (invalid option type [undefined]), or an
    option of a type other than the three (invalid option type, with that
    type).  In particular it does not throw because of an answer of the
    user. *)
Theorem collectOptions_Throw options user ids e :
  collectOptions options user ids = Throw e →
  ∃ id, id ∈ ids ∧ ThrownAt options id e.
Proof. apply collect_Throw. Qed.

Lemma collectOptions_Throw_witness :
  collectOptions oddType eager ["A"; "S"] = Throw (InvalidOptionType "SLIDER") ∧
  ∃ id, id ∈ ["A"; "S"] ∧ ThrownAt oddType id (InvalidOptionType "SLIDER").
Proof.
  split; [reflexivity|].
  apply (collectOptions_Throw oddType eager ["A"; "S"]). reflexivity.
Defined.

Example collectOptions_oddType :
  collectOptions oddType eager ["A"; "S"] = Throw (InvalidOptionType "SLIDER").
Proof. reflexivity. Qed.

(** X23. The collection loop can fail to end in one way only: a CHECKBOX
    option has the id [undefined], and the last id of [idOrder] is a
    CHECKBOX, so that the loop of its cluster reads past the end. *)
Theorem collectOptions_Diverges options user ids :
  collectOptions options user ids = Diverges →
  hasType options "CHECKBOX" "undefined" ∧
  ∃ id, last ids = Some id ∧ hasType options "CHECKBOX" id.
Proof.
  intros (Hu & id & Hlast & Hid)%collect_Diverges.
  split; [by apply isCheckbox_hasType|]. exists id.
  split; [done | by apply isCheckbox_hasType].
Qed.

Lemma collectOptions_Diverges_witness :
  collectOptions undefinedBox thorough ["undefined"] = Diverges ∧
  hasType undefinedBox "CHECKBOX" "undefined" ∧
  ∃ id, last ["undefined"] = Some id ∧ hasType undefinedBox "CHECKBOX" id.
Proof.
  split; [reflexivity|].
  apply (collectOptions_Diverges undefinedBox thorough ["undefined"]). reflexivity.
Defined.

(** ** The command from the options to the job *)

Lemma idOrder_keys sort options ids :
  Rearranges sort → idOrder sort options = Normal ids →
  ∀ id, id ∈ keys options → id ∈ ids.
Proof.
  intros Hsort. unfold idOrder.
  intros (linked & _ & (res & Hres & (rest & Hrest & [= <-])%bind_Normal)%bind_Normal)%bind_Normal.
  destruct (Hsort (typeFirst "CHECKBOX" options) (keys options))
    as (rest' & Hrest' & Hperm).
  { intros a b Ha _. rewrite typeFirst_Normal; eauto. }
  rewrite Hrest in Hrest'. injection Hrest' as <-.
  intros id Hid. rewrite removeDupes_elem, elem_of_app, Hperm. by right.
Qed.

Lemma Passable_keys options id : Passable options id → id ∈ keys options.
Proof. intros (o & Ho & _). apply get_is_Some. by rewrite Ho. Qed.

(** X5. When the command gets as far as [createNewJob], the user has
    confirmed, and the option list handed over has an entry for exactly
    the options of the node other than [__proto__], each with a value of
    the type of its option; none is [undefined]. *)
Theorem obfuscate_submits_all sort options user values :
  Rearranges sort →
  obfuscate sort options user = Normal (Some values) →
  confirmOptions user values = true ∧
  ∀ k, (k ∈ keys options → k ≠ "__proto__" →
          WellTyped options values k ∧ ∃ v, values !! k = Some (Some v)) ∧
       (k ∉ keys options ∨ k = "__proto__" → values !! k = None).
Proof.
  intros Hsort. unfold obfuscate.
  intros (ids & Hids & ([values'|] & Hrun & Hconfirm)%bind_Normal)%bind_Normal;
    [|done].
  destruct (confirmOptions user values') eqn:Hc; [|done].
  injection Hconfirm as ->. split; [done|]. intros k. split.
  - intros Hk%(idOrder_keys _ _ _ Hsort Hids) Hproto.
    assert (WellTyped options values k) as Hw
      by (eapply collect_WellTyped; [exact Hrun | done | by left]).
    split; [done|]. apply (WellTyped_defined options); [done|].
    by eapply collect_Passable.
  - intros [Hk | ->].
    + rewrite (collect_untouched _ _ _ _ _ Hrun k); [done|].
      intros Hin. apply Hk, Passable_keys. by eapply collect_Passable.
    + by rewrite (collect_proto _ _ _ _ _ Hrun).
Qed.

Lemma obfuscate_submits_all_witness :
  Rearranges V8.sort ∧
  obfuscate V8.sort scenario thorough
  = Normal (Some (userOptionValues (store completed))) ∧
  confirmOptions thorough (userOptionValues (store completed)) = true ∧
  ∀ k, (k ∈ keys scenario → k ≠ "__proto__" →
          WellTyped scenario (userOptionValues (store completed)) k ∧
          ∃ v, userOptionValues (store completed) !! k = Some (Some v)) ∧
       (k ∉ keys scenario ∨ k = "__proto__" →
          userOptionValues (store completed) !! k = None).
Proof.
  assert (obfuscate V8.sort scenario thorough
          = Normal (Some (userOptionValues (store completed)))) as Hrun
    by (vm_compute; reflexivity).
  split_and!; [apply V8_sort_Rearranges | done | |];
    apply (obfuscate_submits_all V8.sort scenario thorough _ V8_sort_Rearranges Hrun).
Defined.

(** X6. With an engine that rearranges, an option set without dangling
    dependencies, with options of the three types only and without a
    CHECKBOX of the id [undefined], the command throws nowhere between the
    node and the job, and its loops end: it ends with a job or without
    one. *)
Theorem obfuscate_returns sort options user :
  Rearranges sort → Closed options → ValidTypes options →
  ¬ hasType options "CHECKBOX" "undefined" →
  ∃ r, obfuscate sort options user = Normal r.
Proof.
  intros Hsort Hclosed Htypes Hu.
  destruct (idOrder_steps sort options Hsort Hclosed)
    as (linked & res & rest & _ & Hperm & Hres & Hrest & Hids).
  unfold obfuscate. rewrite Hids. simpl.
  destruct (collectOptions_valid options user (removeDupes (res ++ rest)))
    as [[values|] ->]; simpl; eauto.
  - apply not_true_is_false. by rewrite isCheckbox_hasType.
  - intros id. rewrite removeDupes_elem, elem_of_app, Hrest. intros Hid.
    assert (id ∈ keys options) as [o Ho]%get_is_Some.
    { destruct Hid as [Hid|Hid]; [|done].
      eapply (topologicalSort_keys _ linked); [done| |done..].
      intros y. rewrite Hperm. by apply linkedOptions_keys. }
    exists o. split; [done|]. by eapply Htypes.
  - destruct (confirmOptions user values); eauto.
Qed.

Lemma scenario_ValidTypes : ValidTypes scenario.
Proof.
  intros id o Ho%get_Some_elem. unfold scenario in Ho.
  repeat (apply elem_of_cons in Ho as [[= -> ->] | Ho];
          [simpl; set_unfold; tauto|]).
  by apply elem_of_nil in Ho.
Qed.

Lemma obfuscate_returns_witness :
  ∃ r, obfuscate V8.sort scenario hesitant = Normal r.
Proof.
  apply (obfuscate_returns V8.sort scenario hesitant V8_sort_Rearranges
           scenario_Closed scenario_ValidTypes).
  by intros (o & [=] & _).
Defined.

(** X7. A node with a dropdown that has no choices can never be submitted:
    whatever the user answers, the command ends or throws before
    [createNewJob]. *)
Theorem choiceless_dropdown_blocks sort options user id o :
  Rearranges sort →
  get options id = Some o → type o = "DROPDOWN" → choices o = [] →
  ¬ ∃ values, obfuscate sort options user = Normal (Some values).
Proof.
  intros Hsort Ho Hty Hchoices [values Hjob]. revert Hjob. unfold obfuscate.
  intros (ids & Hids & ([values'|] & Hrun & Hconfirm)%bind_Normal)%bind_Normal;
    [|done].
  assert (id ∈ ids) as Hid.
  { apply (idOrder_keys _ _ _ Hsort Hids), get_is_Some. by rewrite Ho. }
  destruct (collect_Passable _ _ _ _ _ Hrun id Hid) as (o' & Ho' & _ & Hdd).
  rewrite Ho in Ho'. injection Ho' as <-. by apply Hdd.
Qed.

Lemma choiceless_dropdown_blocks_witness :
  ¬ ∃ values, obfuscate V8.sort noChoice eager = Normal (Some values).
Proof.
  apply (choiceless_dropdown_blocks V8.sort noChoice eager "D"
           (mkOption "DROPDOWN" [] None) V8_sort_Rearranges);
    reflexivity.
Defined.

(** ** Linked options first *)

Lemma visit_result_linked options fuel id s s' :
  visit options fuel id s = Normal s' →
  id ∈ linkedOptions options →
  (∀ x, x ∈ result s → x ∈ linkedOptions options) →
  ∀ x, x ∈ result s' → x ∈ linkedOptions options.
Proof.
  revert id s s'. induction fuel as [|fuel IH]; intros id s s'; simpl.
  { case_bool_decide; [|done]. by intros [= <-]. }
  case_bool_decide as Hvis; [by intros [= <-]|].
  intros (dependencies & Hdo & (s2 & Hdeps & [= <-])%bind_Normal)%bind_Normal
    Hid Hs x. simpl.
  intros [Hx | ->%list_elem_of_singleton]%elem_of_app; [|done].
  revert x Hx. destruct dependencies as [deps|].
  - apply dependenciesOf_Some in Hdo as (o & Ho & Hd). revert Hdeps.
    apply (forEach_invariant _ (λ t, ∀ x, x ∈ result t → x ∈ linkedOptions options));
      [|exact Hs].
    intros d t t' Hdep Ht Hrun. eapply IH; [done| |done].
    apply linkedOptions_elem. exists id, o, deps.
    split_and!; [by apply get_Some_elem | done | by right].
  - by injection Hdeps as <-.
Qed.

Lemma topologicalSort_linked options arr res :
  topologicalSort options arr = Normal res →
  (∀ x, x ∈ arr → x ∈ linkedOptions options) →
  ∀ x, x ∈ res → x ∈ linkedOptions options.
Proof.
  unfold topologicalSort. intros (s & Hrun & [= <-])%bind_Normal Harr.
  revert Hrun.
  apply (forEach_invariant _ (λ t, ∀ x, x ∈ result t → x ∈ linkedOptions options)).
  - intros d t t' Hd Ht Hrun'. eapply visit_result_linked; [done | by apply Harr | done].
  - by intros x ?%elem_of_nil.
Qed.

(** The order splits into the linked ids and the others. *)
Lemma idOrder_split sort options :
  Rearranges sort → Closed options →
  ∃ res rest others,
    idOrder sort options = Normal (res ++ others) ∧
    removeDupes (res ++ rest) = res ++ others ∧
    rest ≡ₚ keys options ∧
    sort (typeFirst "CHECKBOX" options) (keys options) = Normal rest ∧
    (∃ linked, groupDropdowns sort options (linkedOptions options) = Normal linked ∧
               topologicalSort options linked = Normal res) ∧
    NoDup res ∧
    (∀ x, x ∈ res ↔ x ∈ linkedOptions options) ∧
    (∀ x, x ∈ others ↔ x ∈ keys options ∧ x ∉ linkedOptions options).
Proof.
  intros Hsort Hclosed.
  destruct (Hsort (typeFirst "DROPDOWN" options) (linkedOptions options))
    as (linked & Hlinked & Hperm).
  { intros a b Ha _. rewrite typeFirst_Normal; [eauto|].
    by apply linkedOptions_keys. }
  destruct (topologicalSort_terminates options linked) as [res Hres]; [done| |].
  { intros id Hid. apply linkedOptions_keys; [done|]. by rewrite <- Hperm. }
  destruct (Hsort (typeFirst "CHECKBOX" options) (keys options))
    as (rest & Hsorted & Hrest).
  { intros a b Ha _. rewrite typeFirst_Normal; eauto. }
  assert (idOrder sort options = Normal (removeDupes (res ++ rest))) as Hids.
  { unfold idOrder, groupDropdowns in *. rewrite Hlinked. simpl.
    rewrite Hres. simpl. by rewrite Hsorted. }
  destruct (topologicalSort_NoDup _ _ _ Hres) as [Hnd Hall].
  destruct (removeDupes_app res rest Hnd) as [others Hothers].
  assert (∀ x, x ∈ res ↔ x ∈ linkedOptions options) as Hiff.
  { intros x. split.
    - apply (topologicalSort_linked _ _ _ Hres). intros y. by rewrite Hperm.
    - intros Hx. apply Hall. by rewrite Hperm. }
  exists res, rest, others. rewrite Hids, Hothers.
  split_and!; [done..| |done|done|].
  - by exists linked.
  - intros x.
    pose proof (removeDupes_NoDup (res ++ rest)) as Hnd'.
    pose proof (removeDupes_elem (res ++ rest) x) as Hel.
    rewrite Hothers in Hnd', Hel. apply NoDup_app in Hnd' as (_ & Hdisj & _).
    rewrite !elem_of_app, Hrest in Hel. rewrite <- Hiff. split.
    + intros Hx. split; [|intros Hr; by apply (Hdisj x)].
      destruct (proj1 Hel (or_intror Hx)) as [Hr|]; [|done].
      apply linkedOptions_keys; [done|]. by apply Hiff.
    + intros [Hk Hr]. destruct (proj2 Hel (or_intror Hk)); done.
Qed.

(** X8. Whatever the engine's sort does with the inconsistent comparators,
    the linked ids come first: every id of [linkedOptions], that is, every
    option that has a [dependencies] object, be it empty, and every id
    named in one, is asked before every option that is not among them. *)
Theorem idOrder_linked_first sort options :
  Rearranges sort → Closed options →
  ∃ ids,
    idOrder sort options = Normal ids ∧
    ∀ a b, a ∈ linkedOptions options →
           b ∈ keys options → b ∉ linkedOptions options →
      ∃ i j, indexOf ids a = Some i ∧ indexOf ids b = Some j ∧ i < j.
Proof.
  intros Hsort Hclosed.
  destruct (idOrder_split sort options Hsort Hclosed)
    as (res & rest & others & Hids & _ & _ & _ & _ & _ & Hres & Hothers).
  exists (res ++ others). split; [done|]. intros a b Ha Hb Hnb.
  apply Hres, list_elem_of_lookup in Ha as [i Hi].
  assert (b ∈ others) as [j Hj]%list_elem_of_lookup by (by apply Hothers).
  pose proof (idOrder_NoDup _ _ _ Hids) as Hnd.
  exists i, (length res + j). split_and!.
  - apply indexOf_NoDup; [done|]. by apply lookup_app_l_Some.
  - apply indexOf_NoDup; [done|]. rewrite lookup_app_r by lia.
    by replace (length res + j - length res) with j by lia.
  - apply lookup_lt_Some in Hi. lia.
Qed.

Lemma idOrder_linked_first_witness :
  ∃ ids,
    idOrder V8.sort scenario = Normal ids ∧
    ∀ a b, a ∈ linkedOptions scenario →
           b ∈ keys scenario → b ∉ linkedOptions scenario →
      ∃ i j, indexOf ids a = Some i ∧ indexOf ids b = Some j ∧ i < j.
Proof.
  apply (idOrder_linked_first V8.sort scenario V8_sort_Rearranges scenario_Closed).
Defined.

(** ** What the duplicate filter keeps *)

Lemma firstOccurrences_snoc seen todo x :
  firstOccurrences (seen ++ todo ++ [x]) (length seen) (todo ++ [x])
  = firstOccurrences (seen ++ todo) (length seen) todo
    ++ (if decide (x ∈ seen ++ todo) then [] else [x]).
Proof.
  revert seen. induction todo as [|v todo IH]; intros seen; simpl.
  - rewrite app_nil_r. case_bool_decide as Hx.
    + apply indexOf_first in Hx. by rewrite decide_False.
    + rewrite indexOf_first in Hx. apply dec_stable in Hx. by rewrite decide_True.
  - rewrite (firstOccurrences_shift seen v (todo ++ [x])).
    rewrite (firstOccurrences_shift seen v todo).
    rewrite (IH (seen ++ [v])). rewrite <- !(assoc_L (++)). simpl.
    assert (indexOf (seen ++ v :: todo ++ [x]) v = Some (length seen)
            ↔ indexOf (seen ++ v :: todo) v = Some (length seen)) as Hiff
      by (by rewrite !indexOf_first).
    do 2 case_bool_decide; tauto || done.
Qed.

Lemma removeDupes_snoc arr x :
  removeDupes (arr ++ [x])
  = removeDupes arr ++ (if decide (x ∈ arr) then [] else [x]).
Proof. unfold removeDupes. apply (firstOccurrences_snoc [] arr x). Qed.

(** X9. The filter [(v, i, arr) => arr.indexOf(v) === i] of line 211 goes
    through the array from the left and keeps a value exactly when it has
    not occurred before: of each value the first occurrence stays, at its
    place among the others. *)
Theorem removeDupes_first_occurrence arr x :
  removeDupes [] = [] ∧
  removeDupes (arr ++ [x])
  = removeDupes arr ++ (if decide (x ∈ arr) then [] else [x]).
Proof.
  split; [done | apply removeDupes_snoc].
Qed.








(** ** Dependencies inside a cluster *)

Lemma dependenciesHold_true values selectedItems deps :
  dependenciesHold values selectedItems deps = true ↔
  ∀ depId depVals, (depId, depVals) ∈ deps →
    includes depVals (valueOf values depId) = true ∨
    includes depVals (Some (VBool (bool_decide (depId ∈ selectedItems)))) = true.
Proof.
  induction deps as [|[d vs] deps IH]; cbn [dependenciesHold].
  - split; [by intros _ ? ? ?%elem_of_nil | done].
  - destruct (includes vs (valueOf values d)) eqn:H1;
      [|destruct (includes vs (Some (VBool (bool_decide (d ∈ selectedItems)))))
          eqn:H2]; cbn [negb andb].
    + rewrite IH. split.
      * intros Hall ? ? [[= -> ->] | ?]%elem_of_cons; [by left | by apply Hall].
      * intros Hall ? ? ?. apply Hall. by right.
    + rewrite IH. split.
      * intros Hall ? ? [[= -> ->] | ?]%elem_of_cons; [by right | by apply Hall].
      * intros Hall ? ? ?. apply Hall. by right.
    + split; [done|]. intros Hall.
      destruct (Hall d vs) as [H|H]; [by left | rewrite H1 in H; done | rewrite H2 in H; done].
Qed.

Lemma filterC_kept {A : Type} (p : A → Completion bool) arr kept x :
  filterC p arr = Normal kept → (x ∈ kept ↔ x ∈ arr ∧ p x = Normal true).
Proof.
  revert kept. induction arr as [|y arr IH]; intros kept; cbn [filterC].
  { intros [= <-]. split; [by intros ?%elem_of_nil | by intros [?%elem_of_nil _]]. }
  intros (keep & Hy & (kept' & Hrest & [= <-])%bind_Normal)%bind_Normal.
  specialize (IH kept' Hrest). destruct keep.
  - rewrite !elem_of_cons, IH. split; [intros [-> | [? ?]]; auto | ].
    intros [[-> | ?] ?]; auto.
  - rewrite elem_of_cons, IH. split; [intros [? ?]; auto|].
    intros [[-> | ?] ?]; [congruence | auto].
Qed.

(** X11. What the filter of lines 274-292 keeps (which is not always what
    the pick lists: see the handler below).  Of a cluster, it keeps a
    checkbox whose dependencies are all on checkboxes of the same cluster
    (none of them [__proto__]) exactly when each dependency admits
    [false], or admits [true] and that sibling is ticked: a dependency is
    judged against the recorded [false] of the sibling and against its
    tick.  So a dependency that asks for a sibling to be off never makes
    the filter drop the option, whether the sibling is ticked or not. *)
Theorem sibling_dependency_visible options id rest σ cluster rest' σ1
    selectedItems x o deps visible :
  checkboxCluster options id rest σ = Breaks cluster rest' σ1 →
  get options x = Some o → dependencies o = Some deps →
  (∀ d, d ∈ keys deps → d ∈ cluster ∧ d ≠ "__proto__") →
  x ∈ cluster →
  getVisibleOptions options (userOptionValues σ1) selectedItems cluster
  = Normal visible →
  (x ∈ visible ↔
   ∀ d depVals, (d, depVals) ∈ deps →
     VBool false ∈ depVals ∨ (VBool true ∈ depVals ∧ d ∈ selectedItems)).
Proof.
  intros (_ & _ & _ & ->)%checkboxCluster_spec Ho Hd Hsib Hx Hvisible.
  unfold getVisibleOptions in Hvisible.
  rewrite (filterC_kept _ _ _ x Hvisible).
  unfold isVisible. rewrite (dependenciesOf_get _ _ _ Ho), Hd. simpl.
  assert (∀ d depVals, (d, depVals) ∈ deps →
            (includes depVals
               (valueOf (userOptionValues
                  (foldl (λ σ x, assign x (Some (VBool false)) σ) σ cluster)) d)
             = true
             ∨ includes depVals (Some (VBool (bool_decide (d ∈ selectedItems))))
               = true)
            ↔ (VBool false ∈ depVals ∨ (VBool true ∈ depVals ∧ d ∈ selectedItems)))
    as Hpair.
  { intros d depVals Hin. unfold valueOf. rewrite foldl_assign_lookup.
    rewrite decide_True by (eapply Hsib, elem_keys, Hin). simpl.
    rewrite !bool_decide_eq_true. case_bool_decide; tauto. }
  split.
  - intros [_ [= Hhold]].
    pose proof (proj1 (dependenciesHold_true _ _ _) Hhold) as Hall.
    intros d depVals Hin. by apply (Hpair d depVals Hin), Hall.
  - intros Hall. split; [done|]. f_equal.
    apply (proj2 (dependenciesHold_true _ _ _)).
    intros d depVals Hin. by apply (Hpair d depVals Hin), Hall.
Qed.

Lemma sibling_dependency_visible_witness :
  getVisibleOptions scenario (userOptionValues clusterOpened) ["A"] ["A"; "B"]
  = Normal ["A"; "B"] ∧
  ("B" ∈ ["A"; "B"] ↔
   ∀ d depVals, (d, depVals) ∈ [("A", [VBool true])] →
     VBool false ∈ depVals ∨ (VBool true ∈ depVals ∧ d ∈ ["A"])).
Proof.
  assert (getVisibleOptions scenario (userOptionValues clusterOpened) ["A"]
            ["A"; "B"] = Normal ["A"; "B"]) as Hvisible by reflexivity.
  split; [done|].
  apply (sibling_dependency_visible scenario "A" ["B"; "C"] emptyStore
           ["A"; "B"] ["C"] clusterOpened ["A"] "B"
           (mkOption "CHECKBOX" [] (Some [("A", [VBool true])]))
           [("A", [VBool true])] ["A"; "B"] eq_refl eq_refl eq_refl).
  - intros d ->%list_elem_of_singleton. split; [by left | done].
  - by right; left.
  - done.
Defined.

(** ** The selection handler *)

Lemma sameOptions_cases visibleOptions items :
  (sameOptions visibleOptions items = Normal true
   ↔ visibleOptions `prefix_of` items) ∧
  (sameOptions visibleOptions items = Throw TypeError
   ↔ items `prefix_of` visibleOptions ∧ items ≠ visibleOptions) ∧
  (sameOptions visibleOptions items = Normal false
   ↔ ¬ visibleOptions `prefix_of` items ∧ ¬ items `prefix_of` visibleOptions).
Proof.
  revert items. induction visibleOptions as [|o vs IH]; intros items; simpl.
  - split_and!.
    + split; [intros _; apply prefix_nil | done].
    + split; [done|]. intros [->%prefix_nil_inv Hne]. done.
    + split; [done|]. intros [Hn _]. destruct Hn. apply prefix_nil.
  - destruct items as [|item items].
    + split_and!.
      * split; [done|]. by intros ?%prefix_nil_inv.
      * split; [intros _; split; [apply prefix_nil | done] | done].
      * split; [done|]. intros [_ Hn]. destruct Hn. apply prefix_nil.
    + case_bool_decide as Heq.
      * subst item. destruct (IH items) as (IH1 & IH2 & IH3).
        rewrite IH1, IH2, IH3. split_and!.
        -- split; [apply prefix_cons | apply prefix_cons_inv_2].
        -- split.
           ++ intros [Hp Hne]. split; [by apply prefix_cons | congruence].
           ++ intros [Hp%prefix_cons_inv_2 Hne]. split; [done | congruence].
        -- split.
           ++ intros [H1 H2]. split; intros ?%prefix_cons_inv_2; tauto.
           ++ intros [H1 H2]. split; intros ?; [apply H1 | apply H2];
                by apply prefix_cons.
      * split_and!.
        -- split; [done|]. by intros ?%prefix_cons_inv_1.
        -- split; [done|]. intros [?%prefix_cons_inv_1 _]. done.
        -- split; [|done]. intros _. split; intros ?%prefix_cons_inv_1; done.
Qed.

(** X12. The comparison of line 329 does not test whether the two lists
    are the same: it is true exactly when the new visible options are a
    prefix of the items shown, and it throws a [TypeError] exactly when the
    items shown are a proper prefix of the new visible options; in every
    other case it is false. *)
Theorem sameOptions_prefix visibleOptions items :
  (sameOptions visibleOptions items = Normal true
   ↔ visibleOptions `prefix_of` items) ∧
  (sameOptions visibleOptions items = Throw TypeError
   ↔ items `prefix_of` visibleOptions ∧ items ≠ visibleOptions) ∧
  (sameOptions visibleOptions items = Normal false
   ↔ ¬ visibleOptions `prefix_of` items ∧ ¬ items `prefix_of` visibleOptions).
Proof. apply sameOptions_cases. Qed.

(** X13. When a change of the selection makes options visible that all
    come after the items shown, the handler throws instead of showing
    them; when it hides options at the end of the items shown, the handler
    leaves them listed.  In both cases the items of the pick stay what they
    were. *)
Theorem onDidChangeSelection_stale options values cluster
    shown selectedItems items visibleOptions :
  getVisibleOptions options values selectedItems cluster = Normal visibleOptions →
  (shown `prefix_of` visibleOptions → shown ≠ visibleOptions →
   onDidChangeSelection options values cluster false shown selectedItems items
   = Throw TypeError) ∧
  (visibleOptions `prefix_of` shown →
   onDidChangeSelection options values cluster false shown selectedItems items
   = Normal Unchanged) ∧
  (¬ visibleOptions `prefix_of` shown → ¬ shown `prefix_of` visibleOptions →
   onDidChangeSelection options values cluster false shown selectedItems items
   = Normal (Replaced visibleOptions items)).
Proof.
  intros Hvisible. unfold onDidChangeSelection. rewrite Hvisible. simpl.
  destruct (sameOptions_cases visibleOptions shown) as (H1 & H2 & H3).
  split_and!.
  - intros Hp Hne. by rewrite (proj2 H2).
  - intros Hp. by rewrite (proj2 H1).
  - intros Hp Hq. by rewrite (proj2 H3).
Qed.

(** In [scenario], option B depends on its sibling A being ticked: the pick
    opens with A alone, and ticking A makes the handler throw. *)
Lemma onDidChangeSelection_stale_witness :
  getVisibleOptions scenario (userOptionValues clusterOpened) []
    ["A"; "B"] = Normal ["A"] ∧
  getVisibleOptions scenario (userOptionValues clusterOpened) ["A"]
    ["A"; "B"] = Normal ["A"; "B"] ∧
  onDidChangeSelection scenario (userOptionValues clusterOpened)
    ["A"; "B"] false ["A"] ["A"] ["A"] = Throw TypeError.
Proof.
  assert (getVisibleOptions scenario (userOptionValues clusterOpened)
            ["A"] ["A"; "B"] = Normal ["A"; "B"]) as Hvisible by reflexivity.
  split_and!; [reflexivity | done |].
  apply (onDidChangeSelection_stale scenario _ ["A"; "B"] ["A"] ["A"] ["A"]
           ["A"; "B"] Hvisible).
  - by exists ["B"].
  - done.
Defined.

(** ** Where the result is saved *)

Lemma string_length_app s t :
  String.length (s +:+ t) = String.length s + String.length t.
Proof. induction s as [|a s IH]; simpl; [done | by rewrite IH]. Qed.

Lemma string_app_inj_r s1 s2 t : s1 +:+ t = s2 +:+ t → s1 = s2.
Proof.
  revert s2. induction s1 as [|a s1 IH]; intros [|b s2] Heq; [done| | |].
  - apply (f_equal String.length) in Heq.
    rewrite !string_length_app in Heq. simpl in Heq. lia.
  - apply (f_equal String.length) in Heq.
    rewrite !string_length_app in Heq. simpl in Heq. lia.
  - change (String a (s1 +:+ t) = String b (s2 +:+ t)) in Heq.
    injection Heq as -> Heq. f_equal. by apply IH.
Qed.

Lemma pretty_N_not_empty (n : N) s : pretty n ≠ String "." s.
Proof.
  unfold pretty, pretty_N. case_decide; [done|].
  assert (∀ x t, (∃ c t', t = String c t' ∧ c ≠ "."%char) →
            ∃ c t', pretty_N_go x t = String c t' ∧ c ≠ "."%char) as Hgo.
  { intros x. induction (N.lt_wf_0 x) as [x _ IH]; intros t Ht.
    assert (x = 0 ∨ 0 < x)%N as [->|?] by lia; [by rewrite pretty_N_go_0|].
    rewrite pretty_N_go_step by done. apply IH; [by apply N.div_lt|].
    eexists _, _. split; [done|]. unfold pretty_N_char. by repeat case_match. }
  assert (0 < n)%N as Hpos by lia.
  rewrite pretty_N_go_step by done.
  destruct (Hgo (n `div` 10)%N (String (pretty_N_char (n `mod` 10)) ""))
    as (c & t' & -> & Hc).
  { eexists _, _. split; [done|]. unfold pretty_N_char. by repeat case_match. }
  congruence.
Qed.

(** X14. No two tries of the loop ask for the same path. *)
Theorem candidate_inj directory filePart (tries tries' : N) :
  tries ≠ tries' →
  candidate directory filePart tries ≠ candidate directory filePart tries'.
Proof.
  unfold candidate. intros Hne Heq.
  do 4 apply String.app_inj in Heq. apply string_app_inj_r in Heq.
  destruct (0 <? tries)%N eqn:Ht, (0 <? tries')%N eqn:Ht'.
  - apply String.app_inj in Heq. by apply pretty_N_inj in Heq.
  - done.
  - done.
  - apply N.ltb_ge in Ht, Ht'. lia.
Qed.

Lemma candidate_inj_witness :
  candidate "/w" "main" 0 ≠ candidate "/w" "main" 1.
Proof. apply (candidate_inj "/w" "main" 0 1). lia. Defined.

Lemma doubleSlashStart_candidate directory filePart tries :
  doubleSlashStart (candidate directory filePart tries)
  = doubleSlashStart (candidate directory filePart 0).
Proof.
  unfold candidate.
  destruct directory as [|a [|b directory]]; [destruct filePart as [|c filePart]|..];
    reflexivity.
Qed.

#[local] Opaque candidate.

Lemma increment_below tries : (tries < 2 ^ 53)%N → increment tries = (tries + 1)%N.
Proof. unfold increment. lia. Qed.

Lemma increment_top : increment (2 ^ 53) = (2 ^ 53)%N.
Proof. reflexivity. Qed.

Lemma findFree_slash stat fuel directory filePart tries :
  doubleSlashStart (candidate directory filePart 0) = false →
  findFree stat fuel directory filePart tries ≠ UriError.
Proof.
  intros Hslash. revert tries. induction fuel as [|fuel IH]; intros tries; [done|].
  simpl. rewrite doubleSlashStart_candidate, Hslash.
  destruct (stat _); [apply IH | done..].
Qed.

Lemma findFree_decided stat fuel directory filePart tries r :
  (tries ≤ 2 ^ 53)%N →
  findFree stat fuel directory filePart tries = r → r ≠ Unfinished →
  ∃ last, (tries ≤ last ≤ 2 ^ 53)%N ∧
    (∀ earlier, (tries ≤ earlier < last)%N →
       stat (candidate directory filePart earlier) = Found) ∧
    match r with
    | Free path =>
        path = candidate directory filePart last ∧ stat path = FileNotFound
    | Rethrown err => stat (candidate directory filePart last) = Failed err
    | UriError => last = tries
    | Unfinished => False
    end.
Proof.
  revert tries. induction fuel as [|fuel IH]; intros tries Hle; simpl.
  { by intros <-. }
  destruct (doubleSlashStart (candidate directory filePart tries)) eqn:Hslash.
  { intros <- _. exists tries. split; [lia|]. split; [intros; lia | done]. }
  destruct (stat (candidate directory filePart tries)) as [| |err] eqn:Hstat.
  - intros Hr Hne.
    destruct (decide (tries = 2 ^ 53)%N) as [->|Hlt].
    + rewrite increment_top in Hr.
      destruct (IH _ Hle Hr Hne) as (last & Hlast & _ & Hres).
      assert (last = 2 ^ 53)%N as -> by lia.
      destruct r; [destruct Hres as [-> Hres]| | |done]; [congruence..|].
      exists (2 ^ 53)%N. split; [lia|]. split; [intros; lia | done].
    + rewrite increment_below in Hr by lia.
      destruct (IH (tries + 1)%N ltac:(lia) Hr Hne) as (last & Hlast & Hearlier & Hres).
      assert (r ≠ UriError) as Hr'.
      { rewrite <- Hr. apply findFree_slash.
        by rewrite <- (doubleSlashStart_candidate _ _ tries). }
      exists last. split_and!; [lia.. | |by destruct r].
      intros earlier He. destruct (decide (earlier = tries)) as [->|]; [done|].
      apply Hearlier. lia.
  - intros <- _. exists tries. split; [lia|]. split; [intros; lia | done].
  - intros <- _. exists tries. split; [lia|]. split; [intros; lia | done].
Qed.

(** X15. The loop ends at once, with the error of [vscode.Uri.from], when
    the paths it is about to try begin with two slashes.  Otherwise the
    path it settles on is the first one, in the order
    [name-obfuscated.lua], [name-obfuscated-1.lua],
    [name-obfuscated-2.lua], ..., for which [stat] reports that no file
    exists: every earlier one names an existing file, and the path chosen
    never does; and an error the loop rethrows is the answer of [stat] for
    the first path that was not found to exist. *)
Theorem findFree_first_free stat fuel directory filePart r :
  findFree stat fuel directory filePart 0 = r → r ≠ Unfinished →
  (r = UriError ∧ doubleSlashStart (candidate directory filePart 0) = true) ∨
  (doubleSlashStart (candidate directory filePart 0) = false ∧
   ∃ tries,
     (∀ earlier, (earlier < tries)%N →
        stat (candidate directory filePart earlier) = Found) ∧
     ((r = Free (candidate directory filePart tries) ∧
       stat (candidate directory filePart tries) = FileNotFound) ∨
      (∃ err, r = Rethrown err ∧
         stat (candidate directory filePart tries) = Failed err))).
Proof.
  intros Hr Hne.
  destruct (findFree_decided stat fuel directory filePart 0 _ ltac:(lia) Hr Hne)
    as (last & _ & Hearlier & Hres).
  destruct (doubleSlashStart (candidate directory filePart 0)) eqn:Hslash.
  { left. split; [|done]. destruct fuel as [|fuel]; [by subst r|].
    simpl in Hr. by rewrite Hslash in Hr. }
  right. split; [done|]. exists last.
  split; [intros earlier He; apply Hearlier; lia|].
  destruct r as [path|err| |]; [left|right| |done].
  - destruct Hres as [-> Hstat]. done.
  - by exists err.
  - by destruct (findFree_slash stat fuel directory filePart 0 Hslash).
Qed.

Lemma findFree_fuel stat directory filePart last :
  (last ≤ 2 ^ 53)%N →
  stat (candidate directory filePart last) ≠ Found →
  ∀ fuel tries, (tries ≤ last)%N → N.to_nat (last - tries) < fuel →
    findFree stat fuel directory filePart tries ≠ Unfinished ∧
    findFree stat fuel directory filePart tries
    = findFree stat (S (N.to_nat (last - tries))) directory filePart tries.
Proof.
  intros Hlast Hstat. induction fuel as [|fuel IH]; intros tries Hle Hfuel; [lia|].
  cbn [findFree].
  destruct (doubleSlashStart (candidate directory filePart tries)); [done|].
  destruct (stat (candidate directory filePart tries)) as [| |err] eqn:Htries;
    [|done..].
  assert (tries ≠ last) by congruence.
  rewrite increment_below by lia.
  destruct (IH (tries + 1)%N ltac:(lia) ltac:(lia)) as [Hne Heq].
  split; [done|]. rewrite Heq. f_equal. lia.
Qed.

(** X16. The loop ends as soon as one of the paths it tries is not that of
    an existing file: if that holds for the path of some [tries] up to
    [2^53], then [tries + 1] iterations are enough, and more iterations
    give the same result. *)
Theorem findFree_ends stat directory filePart last :
  (last ≤ 2 ^ 53)%N →
  stat (candidate directory filePart last) ≠ Found →
  ∃ r, r ≠ Unfinished ∧
    ∀ fuel, N.to_nat last < fuel →
      findFree stat fuel directory filePart 0 = r.
Proof.
  intros Hlast Hstat.
  exists (findFree stat (S (N.to_nat last)) directory filePart 0). split.
  - apply (findFree_fuel stat directory filePart last Hlast Hstat); lia.
  - intros fuel Hfuel.
    destruct (findFree_fuel stat directory filePart last Hlast Hstat fuel 0%N)
      as [_ ->]; [lia..|].
    by rewrite N.sub_0_r.
Qed.

#[local] Transparent candidate.

Lemma findFree_ends_witness :
  ∃ r, r ≠ Unfinished ∧
    ∀ fuel, N.to_nat 2 < fuel → findFree twoTaken fuel "/w" "main" 0 = r.
Proof.
  apply (findFree_ends twoTaken "/w" "main" 2).
  - vm_compute. discriminate.
  - vm_compute. discriminate.
Defined.

Lemma findFree_first_free_witness :
  findFree twoTaken 3 "/w" "main" 0 = Free "/w/main-obfuscated-2.lua" ∧
  ((Free "/w/main-obfuscated-2.lua" = UriError ∧
    doubleSlashStart (candidate "/w" "main" 0) = true) ∨
   (doubleSlashStart (candidate "/w" "main" 0) = false ∧
    ∃ tries,
      (∀ earlier, (earlier < tries)%N →
         twoTaken (candidate "/w" "main" earlier) = Found) ∧
      ((Free "/w/main-obfuscated-2.lua" = Free (candidate "/w" "main" tries) ∧
        twoTaken (candidate "/w" "main" tries) = FileNotFound) ∨
       (∃ err, Free "/w/main-obfuscated-2.lua" = Rethrown err ∧
          twoTaken (candidate "/w" "main" tries) = Failed err)))).
Proof.
  assert (findFree twoTaken 3 "/w" "main" 0 = Free "/w/main-obfuscated-2.lua")
    as Hr by (vm_compute; reflexivity).
  split; [done|].
  apply (findFree_first_free twoTaken 3 "/w" "main" _ Hr). discriminate.
Defined.

(** A document that is neither a file nor untitled, with no workspace
    folder open: its whole path becomes the name, and the path built from
    it begins with two slashes. *)
Example findFree_UriError :
  resultLocation None {| scheme := "vscode-remote"; path := "/home/u/main.lua" |}
  = Normal ("", "/home/u/main.lua") ∧
  filePartOf "/home/u/main.lua" = "/home/u/main" ∧
  ∀ stat, findFree stat 1 "" "/home/u/main" 0 = UriError.
Proof. split_and!; reflexivity. Qed.

Lemma chars_app s t : chars (s +:+ t) = chars s ++ chars t.
Proof. unfold chars. induction s as [|a s IH]; simpl; [done | by rewrite IH]. Qed.

Lemma lastIndexOf_None c s : lastIndexOf c s = None ↔ c ∉ chars s.
Proof.
  unfold chars. induction s as [|a s IH]; simpl.
  - split; [intros _ ?%elem_of_nil | ]; done.
  - rewrite not_elem_of_cons, <- IH.
    destruct (lastIndexOf c s); [naive_solver|].
    case_bool_decide; naive_solver.
Qed.

Lemma lastIndexOf_split c s i :
  lastIndexOf c s = Some i →
  s = substringTo i s +:+ String c (substringFrom (S i) s) ∧
  (c ∉ chars (substringFrom (S i) s)).
Proof.
  revert i. induction s as [|a s IH]; intros i; simpl; [done|].
  destruct (lastIndexOf c s) as [j|] eqn:Hj.
  - intros [= <-]. destruct (IH j eq_refl) as [Heq Hnot].
    split; [|done].
    change (String a s
            = String a (substringTo j s +:+ String c (substringFrom (S j) s))).
    by rewrite <- Heq.
  - case_bool_decide as Hc; [|done]. intros [= <-]. subst a.
    split; [reflexivity | by apply lastIndexOf_None].
Qed.

Lemma firstPart_split c s :
  (c ∉ chars (firstPart c s)) ∧
  (s = firstPart c s ∨ ∃ rest, s = firstPart c s +:+ String c rest).
Proof.
  induction s as [|a s [IH1 IH2]]; simpl.
  - split; [by intros ?%elem_of_nil | by left].
  - case_bool_decide as Hc.
    + subst a. split; [by intros ?%elem_of_nil | right; by exists s].
    + split.
      * unfold chars in *. simpl. rewrite not_elem_of_cons. split; [congruence | done].
      * destruct IH2 as [IH2 | [rest IH2]].
        -- left. by rewrite <- IH2.
        -- right. exists rest.
           change (String a s = String a (firstPart c s +:+ String c rest)).
           by rewrite <- IH2.
Qed.

(** X17. For a document of scheme [file] or [untitled] whose path
    contains a slash, [directory] and [resultName] are the path cut at its
    last slash, so every path the loop tries lies in the folder of the
    document; and [filePart] is the part of [resultName] before its first
    dot, not before its last one. *)
Theorem resultLocation_splits workspaceFolders uri :
  workspaceFolders ≠ Some [] →
  scheme uri = "file" ∨ scheme uri = "untitled" →
  "/"%char ∈ chars (path uri) →
  ∃ directory resultName,
    resultLocation workspaceFolders uri = Normal (directory, resultName) ∧
    path uri = directory +:+ "/" +:+ resultName ∧
    ("/"%char ∉ chars resultName) ∧
    ("."%char ∉ chars (filePartOf resultName)) ∧
    (resultName = filePartOf resultName ∨
     ∃ rest, resultName = filePartOf resultName +:+ "." +:+ rest).
Proof.
  intros Hfolders Hscheme Hslash. unfold resultLocation.
  destruct (lastIndexOf "/" (path uri)) as [lastSlash|] eqn:Hlast.
  2: { by apply lastIndexOf_None in Hlast. }
  destruct (lastIndexOf_split _ _ _ Hlast) as [Hpath Hnot].
  exists (substringTo lastSlash (path uri)),
         (substringFrom (S lastSlash) (path uri)).
  split_and!; [| done | done | apply firstPart_split..].
  rewrite Nat.add_1_r.
  assert (bool_decide (scheme uri = "file")
          || bool_decide (scheme uri = "untitled") = true) as Hs.
  { destruct Hscheme as [-> | ->]; reflexivity. }
  destruct workspaceFolders as [[|folder folders]|]; [done|..]; simpl.
  all: by rewrite Hs.
Qed.

Lemma resultLocation_splits_witness :
  ∃ directory resultName,
    resultLocation (Some ["/w"])
      {| scheme := "file"; path := "/w/src/main.test.lua" |}
    = Normal (directory, resultName) ∧
    "/w/src/main.test.lua" = directory +:+ "/" +:+ resultName ∧
    ("/"%char ∉ chars resultName) ∧
    ("."%char ∉ chars (filePartOf resultName)) ∧
    (resultName = filePartOf resultName ∨
     ∃ rest, resultName = filePartOf resultName +:+ "." +:+ rest).
Proof.
  apply (resultLocation_splits (Some ["/w"])
           {| scheme := "file"; path := "/w/src/main.test.lua" |}).
  - done.
  - by left.
  - vm_compute. set_solver.
Defined.

Example resultLocation_first_dot :
  resultLocation (Some ["/w"])
    {| scheme := "file"; path := "/w/src/main.test.lua" |}
  = Normal ("/w/src", "main.test.lua") ∧
  filePartOf "main.test.lua" = "main".
Proof. split; reflexivity. Qed.

(** ** Before the options *)

(** X18. The command goes on to the service only with a key and a text
    that are not empty, the text and file name being those of the open
    document; the key is the configured one, or, when none is configured,
    the one entered, and then exactly that key has been saved. *)
Theorem preflight_Proceeds configured action input document
    apiKey fileName contents saved :
  preflight configured action input document
  = Proceeds apiKey fileName contents saved →
  apiKey ≠ "" ∧ contents ≠ "" ∧ document = Some (fileName, contents) ∧
  ((configured = Some apiKey ∧ saved = None) ∨
   (falsy configured = true ∧ action = true ∧ input = Some apiKey ∧
    saved = Some apiKey)).
Proof.
  unfold preflight.
  assert (∀ k s,
            match document with
            | None => ErrorShown "Please open an file to obfuscate." s
            | Some (f, c) =>
                if bool_decide (c = "")
                then ErrorShown "Cannot obfuscate an empty file." s
                else Proceeds k f c s
            end = Proceeds apiKey fileName contents saved →
            k = apiKey ∧ s = saved ∧ contents ≠ "" ∧
            document = Some (fileName, contents)) as Hdoc.
  { intros k s. destruct document as [[f c]|]; [|done].
    case_bool_decide; [done|]. by intros [= -> -> -> ->]. }
  assert (∀ c, falsy c = true →
            (if action then
               if falsy input then Returned None
               else match document with
                    | None => ErrorShown "Please open an file to obfuscate." input
                    | Some (f, c) =>
                        if bool_decide (c = "")
                        then ErrorShown "Cannot obfuscate an empty file." input
                        else Proceeds (default "" input) f c input
                    end
             else Returned None) = Proceeds apiKey fileName contents saved →
            apiKey ≠ "" ∧ contents ≠ "" ∧ document = Some (fileName, contents) ∧
            ((c = Some apiKey ∧ saved = None) ∨
             (falsy c = true ∧ action = true ∧ input = Some apiKey ∧
              saved = Some apiKey))) as Hask.
  { intros c Hc. destruct action; [|done].
    destruct input as [k|]; simpl; [|done].
    case_bool_decide as Hk; [done|].
    intros (-> & <- & ? & ?)%Hdoc. split_and!; [done..|]. right. done. }
  destruct configured as [k|].
  - case_bool_decide as Hk.
    + subst k. by apply Hask.
    + intros (-> & <- & ? & ?)%Hdoc. split_and!; [done..|]. by left.
  - by apply Hask.
Qed.

Lemma preflight_Proceeds_witness :
  preflight None true (Some "key") (Some ("main.lua", "print(1)"))
  = Proceeds "key" "main.lua" "print(1)" (Some "key") ∧
  "key" ≠ "" ∧ "print(1)" ≠ "" ∧
  Some ("main.lua", "print(1)") = Some ("main.lua", "print(1)") ∧
  ((None = Some "key" ∧ Some "key" = None) ∨
   (falsy None = true ∧ true = true ∧ Some "key" = Some "key" ∧
    Some "key" = Some "key")).
Proof.
  split; [reflexivity|].
  apply (preflight_Proceeds None true (Some "key")
           (Some ("main.lua", "print(1)")) "key" "main.lua" "print(1)" (Some "key")).
  reflexivity.
Defined.

Lemma filter_every {A : Type} (P : A → Prop) `{!∀ x, Decision (P x)} (l : list A) :
  (∀ x, x ∈ l → P x) → filter P l = l.
Proof.
  induction l as [|x l IH]; intros Hl; [done|].
  rewrite filter_cons_True by (apply Hl; left). f_equal. apply IH.
  intros y Hy. apply Hl. by right.
Qed.

Lemma availableNodes_snoc recommendedId nodeIds nodeId :
  Nodes.label <$> Nodes.availableNodes recommendedId (nodeIds ++ [nodeId])
  = if bool_decide (Some nodeId = recommendedId)
    then nodeId :: (Nodes.label <$> Nodes.availableNodes recommendedId nodeIds)
    else (Nodes.label <$> Nodes.availableNodes recommendedId nodeIds) ++ [nodeId].
Proof.
  unfold Nodes.availableNodes. rewrite foldl_snoc.
  case_bool_decide; [done|]. by rewrite fmap_app.
Qed.

(** X19. The node pick lists every node of the service once: the
    recommended node, if it is one of them, first, and the others after it
    in the order the service gives them. *)
Theorem availableNodes_recommended_first recommendedId nodeIds :
  NoDup nodeIds →
  Nodes.label <$> Nodes.availableNodes recommendedId nodeIds
  = match recommendedId with
    | Some r => if decide (r ∈ nodeIds)
                then r :: filter (λ nodeId, nodeId ≠ r) nodeIds
                else nodeIds
    | None => nodeIds
    end.
Proof.
  induction nodeIds as [|nodeId nodeIds IH] using rev_ind; intros Hnd.
  { destruct recommendedId as [r|]; [|done]. by rewrite decide_False by set_solver. }
  apply NoDup_app in Hnd as (Hnd & Hdisj & _). specialize (IH Hnd).
  rewrite availableNodes_snoc, IH. clear IH.
  destruct recommendedId as [r|]; [|by rewrite bool_decide_eq_false_2].
  case_bool_decide as Hr.
  - injection Hr as ->.
    assert (r ∉ nodeIds) as Hnot.
    { intros Hin. apply (Hdisj r Hin). by left. }
    rewrite decide_False by done.
    rewrite decide_True by (apply elem_of_app; right; by left).
    f_equal. rewrite filter_app, filter_cons_False, app_nil_r by tauto.
    symmetry. apply filter_every. intros x Hx ->. done.
  - assert (nodeId ≠ r) as Hne by congruence.
    destruct (decide (r ∈ nodeIds)) as [Hin|Hnot].
    + rewrite decide_True by (apply elem_of_app; by left).
      by rewrite filter_app, filter_cons_True by done.
    + rewrite decide_False; [done|].
      rewrite elem_of_app, list_elem_of_singleton. intros [?|?]; congruence.
Qed.

Lemma availableNodes_recommended_first_witness :
  Nodes.label <$> Nodes.availableNodes (Some "eu") ["us"; "eu"; "asia"]
  = "eu" :: filter (λ nodeId, nodeId ≠ "eu") ["us"; "eu"; "asia"].
Proof.
  apply (availableNodes_recommended_first (Some "eu") ["us"; "eu"; "asia"]).
  apply (bool_decide_unpack _). vm_compute. exact I.
Defined.
